(** * WeFlow: encrypted data access and media decryption engine

    A shallow embedding of the algorithmic core of the repository:

    - [readVarint], [parseGroupNicknamesFromExtBuffer] and
      [resolveGroupNicknameByCandidates] of
      electron/services/groupAnalyticsService.ts;
    - [getKeystream] of the WasmService;
    - [fetchMessagesBatch], [handleMessages] and [detectImageExt] of the
      HTTP API service.

    Conventions.  JavaScript numbers that the code uses as indices and
    counters are integers of [Z]; a [Buffer] is a list of byte values; a
    JavaScript string is the list of its UTF-16 code units; a [Map] is an
    insertion-ordered association list with unique keys. *)

From Stdlib Require Import String Ascii ZArith List Bool Lia.
From Stdlib Require Import Sorting.Permutation Sorting.Sorted.
Import ListNotations.
Local Open Scope Z_scope.

(* ===================================================================== *)
(** * Part I: the embedding                                               *)
(* ===================================================================== *)

(** ** Buffers *)

Definition Buffer := list Z.

Definition buf_length (b : Buffer) : Z := Z.of_nat (length b).

(** [buffer[i]]: [None] stands for [undefined], the value of an index that
    is negative or not below the length. *)
Definition buf_get (b : Buffer) (i : Z) : option Z :=
  if i <? 0 then None else nth_error b (Z.to_nat i).

(** [x & m] for [x] a byte or [undefined]; ToInt32(undefined) is 0. *)
Definition js_band (x : option Z) (m : Z) : Z :=
  match x with
  | Some v => Z.land v m
  | None => 0
  end.

(** [buffer.subarray(s, e)] and the range of [buffer.toString(enc, s, e)]
    for [0 <= s]: both clamp the end to the length and give the empty
    range when the end does not exceed the start. *)
Definition buf_range (b : Buffer) (s e : Z) : Buffer :=
  let from := Z.max 0 s in
  let to := Z.min (buf_length b) e in
  if to <=? from then []
  else firstn (Z.to_nat (to - from)) (skipn (Z.to_nat from) b).

(** ** Strings

    A string is the list of its UTF-16 code units; [str] writes an ASCII
    literal. *)

Definition jsstring := list Z.

Definition str (s : string) : jsstring :=
  map (fun a => Z.of_N (N_of_ascii a)) (list_ascii_of_string s).

Fixpoint str_eqb (a b : jsstring) : bool :=
  match a, b with
  | [], [] => true
  | x :: a', y :: b' => (x =? y) && str_eqb a' b'
  | _, _ => false
  end.

(** Truthiness of a string: non-empty. *)
Definition truthy (s : jsstring) : bool :=
  match s with [] => false | _ :: _ => true end.

Definition str_length (s : jsstring) : Z := Z.of_nat (length s).

Definition in_range (lo hi c : Z) : bool := (lo <=? c) && (c <=? hi).

(** WhiteSpace and LineTerminator code units, the ones [trim] strips. *)
Definition is_whitespace (c : Z) : bool :=
  in_range 0x09 0x0d c || (c =? 0x20) || (c =? 0xa0) || (c =? 0x1680)
  || in_range 0x2000 0x200a c || (c =? 0x2028) || (c =? 0x2029)
  || (c =? 0x202f) || (c =? 0x205f) || (c =? 0x3000) || (c =? 0xfeff).

Fixpoint trimStart (s : jsstring) : jsstring :=
  match s with
  | c :: rest => if is_whitespace c then trimStart rest else s
  | [] => []
  end.

Definition trim (s : jsstring) : jsstring :=
  rev (trimStart (rev (trimStart s))).

Fixpoint startsWith (s prefix : jsstring) : bool :=
  match prefix, s with
  | [], _ => true
  | p :: prefix', c :: s' => (c =? p) && startsWith s' prefix'
  | _ :: _, [] => false
  end.

Fixpoint includes (s needle : jsstring) : bool :=
  startsWith s needle ||
  match s with
  | [] => false
  | _ :: s' => includes s' needle
  end.

(** Character classes of the regular expressions in the source.  None of
    them has the [u] flag, so they work on code units, and the [i] flag
    folds case on ASCII letters only. *)
Definition is_upper (c : Z) : bool := in_range 65 90 c.
Definition is_lower (c : Z) : bool := in_range 97 122 c.
Definition is_alpha (c : Z) : bool := is_upper c || is_lower c.
Definition is_digit (c : Z) : bool := in_range 48 57 c.
Definition is_alnum (c : Z) : bool := is_alpha c || is_digit c.
(* \w *)
Definition is_word (c : Z) : bool := is_alnum c || (c =? 95).
(* LineTerminator, which [.] does not match *)
Definition is_line_terminator (c : Z) : bool :=
  (c =? 0x0a) || (c =? 0x0d) || (c =? 0x2028) || (c =? 0x2029).

Definition ascii_fold (c : Z) : Z := if is_upper c then c + 32 else c.

(** Case folding of the ASCII letters of a string.  It is what
    [String.prototype.toLowerCase] does on a string whose code units are
    all below 128. *)
Definition asciiLower (s : jsstring) : jsstring := map ascii_fold s.

(** [prefix] matched at the start of [s] under the [i] flag. *)
Fixpoint startsWith_ci (s prefix : jsstring) : bool :=
  match prefix, s with
  | [], _ => true
  | p :: prefix', c :: s' => (ascii_fold c =? ascii_fold p) && startsWith_ci s' prefix'
  | _ :: _, [] => false
  end.

(** The longest prefix of [s] whose code units satisfy [p]: a greedy
    [[...]*]. *)
Fixpoint takeWhile (p : Z -> bool) (s : jsstring) : jsstring :=
  match s with
  | c :: rest => if p c then c :: takeWhile p rest else []
  | [] => []
  end.

(** ** UTF-8 decoding

    [buffer.toString('utf8', ...)]: the decoder of the Encoding standard.
    An ill-formed sequence gives U+FFFD and decoding resumes at the byte
    that broke it; code points above U+FFFF become surrogate pairs. *)

Inductive Utf8Lead :=
| LeadAscii
| LeadMulti (cp needed lower upper : Z)
| LeadInvalid.

Definition utf8_lead (b : Z) : Utf8Lead :=
  if in_range 0x00 0x7f b then LeadAscii
  else if in_range 0xc2 0xdf b then LeadMulti (Z.land b 0x1f) 1 0x80 0xbf
  else if in_range 0xe0 0xef b then
    LeadMulti (Z.land b 0x0f) 2 (if b =? 0xe0 then 0xa0 else 0x80)
              (if b =? 0xed then 0x9f else 0xbf)
  else if in_range 0xf0 0xf4 b then
    LeadMulti (Z.land b 0x07) 3 (if b =? 0xf0 then 0x90 else 0x80)
              (if b =? 0xf4 then 0x8f else 0xbf)
  else LeadInvalid.

Definition utf16_units (cp : Z) : list Z :=
  if cp <? 0x10000 then [cp]
  else [0xd800 + (cp - 0x10000) / 0x400; 0xdc00 + (cp - 0x10000) mod 0x400].

Fixpoint utf8_decode_from (bytes : list Z) (cp needed lower upper : Z) : jsstring :=
  match bytes with
  | [] => if needed =? 0 then [] else [0xfffd]
  | b :: rest =>
    let fresh :=
      match utf8_lead b with
      | LeadAscii => b :: utf8_decode_from rest 0 0 0x80 0xbf
      | LeadMulti cp' n lo hi => utf8_decode_from rest cp' n lo hi
      | LeadInvalid => 0xfffd :: utf8_decode_from rest 0 0 0x80 0xbf
      end in
    if needed =? 0 then fresh
    else if in_range lower upper b then
      let cp' := cp * 64 + Z.land b 0x3f in
      if needed =? 1 then utf16_units cp' ++ utf8_decode_from rest 0 0 0x80 0xbf
      else utf8_decode_from rest cp' (needed - 1) 0x80 0xbf
    else 0xfffd :: fresh
  end.

Definition utf8_decode (bytes : list Z) : jsstring :=
  utf8_decode_from bytes 0 0 0x80 0xbf.

(** [buffer.toString('utf8', s, e)] *)
Definition toString_utf8 (b : Buffer) (s e : Z) : jsstring :=
  utf8_decode (buf_range b s e).

(** ** Map and Set

    A [Map<string, string>] keeps its entries in insertion order, one per
    key; a [Set<string>] likewise. *)

Definition JsMap := list (jsstring * jsstring).

Fixpoint map_get (m : JsMap) (k : jsstring) : option jsstring :=
  match m with
  | [] => None
  | (k', v) :: rest => if str_eqb k' k then Some v else map_get rest k
  end.

Definition map_has (m : JsMap) (k : jsstring) : bool :=
  match map_get m k with Some _ => true | None => false end.

Fixpoint map_set (m : JsMap) (k v : jsstring) : JsMap :=
  match m with
  | [] => [(k, v)]
  | (k', v') :: rest =>
    if str_eqb k' k then (k', v) :: rest else (k', v') :: map_set rest k v
  end.

Definition JsSet := list jsstring.

Definition set_has (s : JsSet) (x : jsstring) : bool := existsb (str_eqb x) s.

Definition set_add (s : JsSet) (x : jsstring) : JsSet :=
  if set_has s x then s else s ++ [x].

(* [set.size > 0] *)
Definition truthy_set (s : JsSet) : bool :=
  match s with [] => false | _ :: _ => true end.

(** [new Set(values)] *)
Definition set_of_list (values : list jsstring) : JsSet :=
  fold_left set_add values [].

(** ** Numbers

    [value] in [readVarint] is a double.  Every operand there is a
    non-negative integer, products by a power of two are exact, and a sum
    is the exact sum rounded to 53 significant bits, ties to even.  A
    negative sum, which only the counts of the statistics can give, is
    rounded as its magnitude is. *)

Definition round53_magnitude (z : Z) : Z :=
  if z <? 2 ^ 53 then z
  else
    let e := Z.log2 z - 52 in
    let q := Z.shiftr z e in
    let r := z - Z.shiftl q e in
    let half := Z.shiftl 1 (e - 1) in
    let q' :=
      if r <? half then q
      else if half <? r then q + 1
      else if Z.even q then q else q + 1 in
    Z.shiftl q' e.

Definition round53 (z : Z) : Z :=
  if z <? 0 then - round53_magnitude (- z) else round53_magnitude z.

Definition js_add (x y : Z) : Z := round53 (x + y).

(** ** readVarint *)

(** The result of a run, together with the indices at which the loop read
    [buffer[pos]], in the order of the reads. *)
Record VarintRun := mkVarintRun {
  vr_result : option (Z * Z);   (* { value, next } or null *)
  vr_reads : list Z
}.

Fixpoint readVarint_loop (fuel : nat) (buffer : Buffer)
         (limit value shift pos : Z) : VarintRun :=
  match fuel with
  | O => mkVarintRun None []
  | S fuel' =>
    if (pos <? limit) && (shift <=? 53) then
      let byte := buf_get buffer pos in
      let value' := js_add value (js_band byte 0x7f * 2 ^ shift) in
      let pos' := pos + 1 in
      if js_band byte 0x80 =? 0 then
        mkVarintRun (Some (value', pos')) [pos]
      else
        let run := readVarint_loop fuel' buffer limit value' (shift + 7) pos' in
        mkVarintRun (vr_result run) (pos :: vr_reads run)
    else mkVarintRun None []
  end.

(** [shift] takes the values 0, 7, ..., 49 inside the loop and 56 stops
    it, so nine rounds of fuel always reach the loop's own exit. *)
Definition varint_fuel : nat := 9.

Definition readVarint_run (buffer : Buffer) (offset limit : Z) : VarintRun :=
  readVarint_loop varint_fuel buffer limit 0 0 offset.

Definition readVarint (buffer : Buffer) (offset limit : Z) : option (Z * Z) :=
  vr_result (readVarint_run buffer offset limit).

(** The call sites pass no [limit]: it defaults to [buffer.length]. *)
Definition readVarint_default (buffer : Buffer) (offset : Z) : option (Z * Z) :=
  readVarint buffer offset (buf_length buffer).

(** Base-128 little-endian value of a sequence of bytes: seven payload
    bits per byte, least significant group first. *)
Fixpoint le128 (bytes : list Z) : Z :=
  match bytes with
  | [] => 0
  | b :: rest => Z.land b 0x7f + 128 * le128 rest
  end.

(** The continuation bit of the byte at index [i]. *)
Definition continues (buffer : Buffer) (i : Z) : Prop :=
  js_band (buf_get buffer i) 0x80 <> 0.

(** The indices [from], [from + 1], ..., [from + n - 1]. *)
Definition indices (from : Z) (n : nat) : list Z :=
  map (fun k => from + Z.of_nat k) (seq 0 n).

(** What a run of [readVarint] guarantees when [limit] does not exceed
    the length of the buffer: only indices in [offset, limit) are read, at
    most eight of them; the result is null exactly when every byte read
    has its continuation bit set; a result ends right after the first
    byte without it, and its value is the base-128 little-endian number
    of the bytes consumed when that number is below 2^53. *)
Definition readVarint_contract (buffer : Buffer) (offset limit : Z) : Prop :=
  let run := readVarint_run buffer offset limit in
  Forall (fun i => offset <= i < Z.min limit (buf_length buffer)) (vr_reads run)
  /\ (length (vr_reads run) <= 8)%nat
  /\ (vr_result run = None <-> Forall (continues buffer) (vr_reads run))
  /\ (forall v next, vr_result run = Some (v, next) ->
        offset < next <= limit
        /\ vr_reads run = indices offset (Z.to_nat (next - offset))
        /\ (le128 (buf_range buffer offset next) < 2 ^ 53 ->
            v = le128 (buf_range buffer offset next))).

(** The same guarantees with no condition on [limit] and with the exact
    value: reads stay below [min(limit, buffer.length)], null exactly
    when no byte read within those bounds has its high bit clear, and the
    value is the base-128 little-endian number of the consumed bytes. *)
Definition readVarint_unconditional (buffer : Buffer) (offset limit : Z) : Prop :=
  let run := readVarint_run buffer offset limit in
  let bound := Z.min limit (buf_length buffer) in
  Forall (fun i => i < bound) (vr_reads run)
  /\ (length (vr_reads run) <= 8)%nat
  /\ (vr_result run = None <->
      forall i, In i (vr_reads run) -> i < bound -> continues buffer i)
  /\ (forall v next, vr_result run = Some (v, next) ->
        offset < next <= limit
        /\ v = le128 (buf_range buffer offset next)).

(** ** Group nicknames (groupAnalyticsService.ts)

    [String.prototype.toLowerCase] follows the Unicode case tables of the
    host; the code is modelled over an arbitrary such function. *)

Definition s_wxid_ : jsstring := str "wxid_".
Definition s_chatroom : jsstring := str "@chatroom".

(** The outcome of one round of the scan loop of
    [parseGroupNicknamesFromExtBuffer]: the record it accepted, if any,
    and the value of [i] when the round ends (the loop then adds 1). *)
Record ScanStep := mkScanStep {
  accepted : option (jsstring * jsstring);   (* memberId, nickname *)
  last_i : Z
}.

(** The inner loop of the case-insensitive fallback either leaves the
    function with the empty string or runs to its end. *)
Inductive EntryScan :=
| Ambiguous
| Scanned (found : jsstring) (matched : Z).

Section Host.

Variable toLowerCase : jsstring -> jsstring.

Definition cleanAccountDirName (name : jsstring) : jsstring :=
  let trimmed := trim name in
  if negb (truthy trimmed) then trimmed
  else if startsWith (toLowerCase trimmed) s_wxid_ then
    (* /^(wxid_[^_]+)/i *)
    let run := takeWhile (fun c => negb (c =? 95)) (skipn 5 trimmed) in
    if startsWith_ci trimmed s_wxid_ && truthy run
    then firstn 5 trimmed ++ run
    else trimmed
  else
    (* /^(.+)_([a-zA-Z0-9]{4})$/ *)
    let n := length trimmed in
    let prefix := firstn (n - 5) trimmed in
    let suffix := skipn (n - 5) trimmed in
    match suffix with
    | [u; a; b; c; d] =>
      if truthy prefix && forallb (fun x => negb (is_line_terminator x)) prefix
         && (u =? 95) && forallb is_alnum [a; b; c; d]
      then prefix else trimmed
    | _ => trimmed
    end.

Definition isLikelyMemberId (value : jsstring) : bool :=
  let id := trim value in
  if negb (truthy id) then false
  else if includes id s_chatroom then false
  else if (str_length id <? 4) || (str_length id >? 80) then false
  else
    (* /^[A-Za-z][A-Za-z0-9_.@-]*$/ *)
    match id with
    | c :: rest =>
      is_alpha c &&
      forallb (fun x => is_alnum x || (x =? 95) || (x =? 46) || (x =? 64) || (x =? 45)) rest
    | [] => false
    end.

Definition normalizeGroupNickname (value : jsstring) : jsstring :=
  let trimmed := trim value in
  if negb (truthy trimmed) then []
  else if forallb (fun c => (c =? 34) || (c =? 39) || (c =? 64)) trimmed then []
  else trimmed.

Definition isLikelyNickname (value : jsstring) : bool :=
  let cleaned := normalizeGroupNickname value in
  if negb (truthy cleaned) then false
  else if startsWith_ci cleaned s_wxid_
          && truthy (skipn 5 cleaned) && forallb is_word (skipn 5 cleaned) then false
  else if includes cleaned s_chatroom then false
  else if negb (existsb (fun c => in_range 0x4e00 0x9fff c || in_range 0x3400 0x4dbf c
                                  || is_word c) cleaned) then false
  else
    match cleaned with
    | [code] => in_range 0x3400 0x9fff code
    | _ => true
    end.

Fixpoint buildIdCandidates_loop (values : list (option jsstring)) (set : JsSet) : JsSet :=
  match values with
  | [] => set
  | rawValue :: rest =>
    let raw := trim (match rawValue with Some v => v | None => [] end) in
    if negb (truthy raw) then buildIdCandidates_loop rest set
    else
      let set1 := set_add set raw in
      let cleaned := cleanAccountDirName raw in
      let set2 := if truthy cleaned && negb (str_eqb cleaned raw)
                  then set_add set1 cleaned else set1 in
      buildIdCandidates_loop rest set2
  end.

Definition buildIdCandidates (values : list (option jsstring)) : list jsstring :=
  buildIdCandidates_loop values [].

(** One round of the scan loop, at index [i]. *)
Definition scan_at (buffer : Buffer) (candidateSet : JsSet) (i : Z) : ScanStep :=
  let skip := mkScanStep None in
  match buf_get buffer i with
  | Some 0x0a =>
    match readVarint_default buffer (i + 1) with
    | None => skip i
    | Some (idLen, idStart) =>
      if (idLen <=? 0) || (idLen >? 96) then skip i
      else
        let idEnd := idStart + idLen in
        if idEnd >? buf_length buffer then skip i
        else
          let memberId := trim (toString_utf8 buffer idStart idEnd) in
          if negb (isLikelyMemberId memberId) then skip i
          else
            let memberIdLower := toLowerCase memberId in
            if truthy_set candidateSet && negb (set_has candidateSet memberIdLower)
            then skip (idEnd - 1)
            else
              let cursor := idEnd in
              if (cursor >=? buf_length buffer)
                 || negb (match buf_get buffer cursor with
                          | Some b => b =? 0x12 | None => false end)
              then skip (idEnd - 1)
              else
                match readVarint_default buffer (cursor + 1) with
                | None => skip (idEnd - 1)
                | Some (nickLen, nickStart) =>
                  if (nickLen <=? 0) || (nickLen >? 128) then skip (idEnd - 1)
                  else
                    let nickEnd := nickStart + nickLen in
                    if nickEnd >? buf_length buffer then skip (idEnd - 1)
                    else
                      let rawNick := toString_utf8 buffer nickStart nickEnd in
                      let nickname :=
                        normalizeGroupNickname
                          (trim (filter (fun c => negb (in_range 0x00 0x1f c || (c =? 0x7f)))
                                        rawNick)) in
                      if negb (isLikelyNickname nickname) then skip (nickEnd - 1)
                      else mkScanStep (Some (memberId, nickname)) (nickEnd - 1)
                end
    end
  | _ => skip i
  end.

(** The two guarded insertions at the end of a round. *)
Definition record_nickname (nicknameMap : JsMap) (memberId nickname : jsstring) : JsMap :=
  let m1 := if negb (map_has nicknameMap memberId)
            then map_set nicknameMap memberId nickname else nicknameMap in
  if negb (map_has m1 (toLowerCase memberId))
  then map_set m1 (toLowerCase memberId) nickname else m1.

Fixpoint scan_loop (fuel : nat) (buffer : Buffer) (candidateSet : JsSet)
         (i : Z) (nicknameMap : JsMap) : JsMap :=
  match fuel with
  | O => nicknameMap
  | S fuel' =>
    if i <? buf_length buffer - 2 then
      let step := scan_at buffer candidateSet i in
      let nicknameMap' :=
        match accepted step with
        | Some (memberId, nickname) => record_nickname nicknameMap memberId nickname
        | None => nicknameMap
        end in
      scan_loop fuel' buffer candidateSet (last_i step + 1) nicknameMap'
    else nicknameMap
  end.

(** Every round leaves [i] larger than it found it, so as many rounds as
    the buffer has bytes reach the end of the loop. *)
Definition parseGroupNicknamesFromExtBuffer (buffer : Buffer) (candidates : list jsstring) : JsMap :=
  if buf_length buffer =? 0 then []
  else
    let candidateSet :=
      set_of_list (map toLowerCase (buildIdCandidates (map Some candidates))) in
    scan_loop (length buffer) buffer candidateSet 0 [].

(** The records the scan accepts, in the order it meets them. *)
Fixpoint scan_records (fuel : nat) (buffer : Buffer) (candidateSet : JsSet)
         (i : Z) : list (jsstring * jsstring) :=
  match fuel with
  | O => []
  | S fuel' =>
    if i <? buf_length buffer - 2 then
      let step := scan_at buffer candidateSet i in
      match accepted step with
      | Some r => r :: scan_records fuel' buffer candidateSet (last_i step + 1)
      | None => scan_records fuel' buffer candidateSet (last_i step + 1)
      end
    else []
  end.

Definition accepted_records (buffer : Buffer) (candidates : list jsstring)
  : list (jsstring * jsstring) :=
  if buf_length buffer =? 0 then []
  else
    scan_records (length buffer) buffer
      (set_of_list (map toLowerCase (buildIdCandidates (map Some candidates)))) 0.

(** *** resolveGroupNicknameByCandidates *)

Definition get_or_empty (m : JsMap) (k : jsstring) : jsstring :=
  match map_get m k with Some v => v | None => [] end.

(** The first loop: the first candidate with an exact-case entry whose
    normalized nickname is not empty. *)
Fixpoint exact_lookup (groupNicknames : JsMap) (idCandidates : list jsstring)
  : option jsstring :=
  match idCandidates with
  | [] => None
  | id :: rest =>
    let exact := normalizeGroupNickname (get_or_empty groupNicknames id) in
    if truthy exact then Some exact else exact_lookup groupNicknames rest
  end.

(** The inner loop over [groupNicknames.entries()]. *)
Fixpoint scan_entries (lower : jsstring) (entries : JsMap)
         (found : jsstring) (matched : Z) : EntryScan :=
  match entries with
  | [] => Scanned found matched
  | (key, value) :: rest =>
    if negb (str_eqb (toLowerCase key) lower) then scan_entries lower rest found matched
    else
      let normalized := normalizeGroupNickname value in
      if negb (truthy normalized) then scan_entries lower rest found matched
      else
        let matched' := matched + 1 in
        if matched' >? 1 then Ambiguous
        else scan_entries lower rest normalized matched'
  end.

(** The second loop. *)
Fixpoint fallback_lookup (groupNicknames : JsMap) (idCandidates : list jsstring)
  : jsstring :=
  match idCandidates with
  | [] => []
  | id :: rest =>
    match scan_entries (toLowerCase id) groupNicknames [] 0 with
    | Ambiguous => []
    | Scanned found matched =>
      if (matched =? 1) && truthy found then found
      else fallback_lookup groupNicknames rest
    end
  end.

Definition resolveGroupNicknameByCandidates
           (groupNicknames : JsMap) (candidates : list jsstring) : jsstring :=
  let idCandidates := buildIdCandidates (map Some candidates) in
  match idCandidates with
  | [] => []
  | _ :: _ =>
    match exact_lookup groupNicknames idCandidates with
    | Some exact => exact
    | None => fallback_lookup groupNicknames idCandidates
    end
  end.

End Host.

(** The nickname that the first record writing [key] carries: the first
    one, in scan order, whose identifier is [key] as it stands or after
    lowercasing. *)
Definition first_writer (toLowerCase : jsstring -> jsstring)
           (records : list (jsstring * jsstring)) (key : jsstring) : option jsstring :=
  match find (fun r => str_eqb (fst r) key || str_eqb (toLowerCase (fst r)) key) records with
  | Some r => Some (snd r)
  | None => None
  end.

(** The blob 0A 09 "wxid_abcd" 12 06 "Alice1". *)
Definition sample_blob : Buffer :=
  [0x0a; 9] ++ str "wxid_abcd" ++ [0x12; 6] ++ str "Alice1".

(** *** Reading the fallback of resolveGroupNicknameByCandidates

    The entries of a table whose key is the candidate [id] up to case, and
    among them those that carry a nickname: a value that is not empty
    after normalization. *)

Section FallbackSpec.

Variable toLowerCase : jsstring -> jsstring.

Definition key_matches (table : JsMap) (id : jsstring) : JsMap :=
  filter (fun e => str_eqb (toLowerCase (fst e)) (toLowerCase id)) table.

(** The entry [e] is counted by the inner loop for the lowercased
    candidate [lower]. *)
Definition carries (lower : jsstring) (e : jsstring * jsstring) : bool :=
  str_eqb (toLowerCase (fst e)) lower && truthy (normalizeGroupNickname (snd e)).

Definition nickname_matches (table : JsMap) (id : jsstring) : JsMap :=
  filter (carries (toLowerCase id)) table.

(** The first candidate, in order, that some nickname-carrying entry
    matches: the one at which the fallback is decided. *)
Definition deciding_candidate (table : JsMap) (ids : list jsstring) : option jsstring :=
  find (fun id => match nickname_matches table id with [] => false | _ => true end) ids.

(** The fallback as decided there: the nickname of the only match, the
    empty string when there are several or when no candidate is matched. *)
Definition fallback_result (table : JsMap) (ids : list jsstring) : jsstring :=
  match deciding_candidate table ids with
  | None => []
  | Some id =>
    match nickname_matches table id with
    | [e] => normalizeGroupNickname (snd e)
    | _ => []
    end
  end.

(** The fallback read entry by entry, without regard to the nicknames the
    entries carry or to the order of the candidates: a nickname only if
    some candidate is matched by exactly one entry, and the empty string
    as soon as some candidate is matched by more than one. *)
Definition fallback_by_key_matches (table : JsMap) (candidates : list jsstring) : Prop :=
  let ids := buildIdCandidates toLowerCase (map Some candidates) in
  let result := resolveGroupNicknameByCandidates toLowerCase table candidates in
  exact_lookup table ids = None ->
  (result <> [] -> exists id, In id ids /\ length (key_matches table id) = 1%nat)
  /\ ((exists id, In id ids /\ (2 <= length (key_matches table id))%nat) -> result = []).

End FallbackSpec.

(** A table is a [Map]: no key occurs twice. *)
Definition map_wf (m : JsMap) : Prop := NoDup (map fst m).

(** ** Keystream generation (WasmService)

    The WebAssembly module is foreign code.  What the host sees of a call
    into it is the sequence of calls it makes back to
    [wasm_isaac_generate(ptr, size)], each with the contents of its linear
    memory at that moment, and whether the call then returns or throws. *)

Module Keystream.

Record CallbackArgs := mkCallbackArgs {
  heap : list Z;          (* Module.HEAPU8 when the callback runs *)
  ptr : Z;
  size : Z
}.

Record ForeignCall := mkForeignCall {
  callbacks : list CallbackArgs;
  throws : bool
}.

Record Isaac := mkIsaac {
  generate : Z -> ForeignCall;
  delete : option ForeignCall       (* [isaac.delete], when there is one *)
}.

(** [new WxIsaac64(key)] *)
Record Construction := mkConstruction {
  ctor_call : ForeignCall;
  instance : Isaac
}.

Definition Ctor := jsstring -> Construction.

Record WasmModule := mkWasmModule {
  WxIsaac64 : option Ctor;
  asm : option (option Ctor)        (* [Module.asm] and its [WxIsaac64] *)
}.

Inductive Error :=
| InitRejected            (* [await this.init()] rejects *)
| ModuleIsNull            (* TypeError on [this.module.asm] *)
| EntryPointNotFound      (* 'WxIsaac64 not found in WASM module' *)
| ForeignThrew            (* an exception out of the module or the callback *)
| CallbackNotCalled.      (* 'Failed to capture keystream (callback not called)' *)

Inductive Result (A : Type) :=
| Ok (a : A)
| Throw (e : Error).
Arguments Ok {A} a.
Arguments Throw {A} e.

(** The service: its fields, and a log of the buffers that
    [wasm_isaac_generate] captured, oldest first.  The log is not a field
    of the source; it records the history of [capturedKeystream]. *)
Record Service := mkService {
  module : option WasmModule;
  capturedKeystream : option (list Z);
  captured_log : list (list Z)
}.

(** Computations of the service: state passing with exceptions. *)
Definition M (A : Type) := Service -> Result A * Service.

Definition ret {A} (a : A) : M A := fun s => (Ok a, s).
Definition throw {A} (e : Error) : M A := fun s => (Throw e, s).
Definition bind {A B} (c : M A) (k : A -> M B) : M B :=
  fun s => match c s with
           | (Ok a, s') => k a s'
           | (Throw e, s') => (Throw e, s')
           end.

Notation "x <- c ;; k" := (bind c (fun x => k))
  (at level 61, c at next level, right associativity).
Notation "c ;; k" := (bind c (fun _ => k))
  (at level 61, right associativity).

Definition get_module : M (option WasmModule) := fun s => (Ok (module s), s).
Definition set_module (m : WasmModule) : M unit :=
  fun s => (Ok tt, mkService (Some m) (capturedKeystream s) (captured_log s)).
Definition get_captured : M (option (list Z)) := fun s => (Ok (capturedKeystream s), s).
Definition reset_captured : M unit :=
  fun s => (Ok tt, mkService (module s) None (captured_log s)).

(** [wasm_isaac_generate]: a view of [size] bytes of the heap at [ptr],
    copied into [capturedKeystream].  The view is a RangeError when the
    region does not lie inside the heap. *)
Definition wasm_isaac_generate (cb : CallbackArgs) : M unit :=
  fun s =>
    if (0 <=? ptr cb) && (0 <=? size cb) && (ptr cb + size cb <=? buf_length (heap cb))
    then
      let copy := buf_range (heap cb) (ptr cb) (ptr cb + size cb) in
      (Ok tt, mkService (module s) (Some copy) (captured_log s ++ [copy]))
    else (Throw ForeignThrew, s).

Fixpoint run_callbacks (cbs : list CallbackArgs) : M unit :=
  match cbs with
  | [] => ret tt
  | cb :: rest => wasm_isaac_generate cb ;; run_callbacks rest
  end.

(** A call into the module. *)
Definition foreign (call : ForeignCall) : M unit :=
  run_callbacks (callbacks call) ;;
  if throws call then throw ForeignThrew else ret tt.

(** Lines 170-179: the entry point, with the fallback to [Module.asm]. *)
Definition entry_point (m : WasmModule) : option Ctor :=
  match WxIsaac64 m with
  | Some c => Some c
  | None =>
    match asm m with
    | Some (Some c) => Some c
    | _ => None
    end
  end.

Definition resolve_entry_point : M Ctor :=
  om <- get_module ;;
  match om with
  | None => throw ModuleIsNull
  | Some m =>
    match entry_point m with
    | None => throw EntryPointNotFound
    | Some c => set_module (mkWasmModule (Some c) (asm m)) ;; ret c
    end
  end.

(** [getKeystream(key, size)], after [await this.init()] has settled:
    [init_ok] tells whether it resolved. *)
Definition getKeystream (init_ok : bool) (key : jsstring) (size : Z) : M (list Z) :=
  if negb init_ok then throw InitRejected
  else
    ctor <- resolve_entry_point ;;
    reset_captured ;;
    let isaac := ctor key in
    foreign (ctor_call isaac) ;;
    foreign (generate (instance isaac) size) ;;
    match delete (instance isaac) with
    | Some d => foreign d
    | None => ret tt
    end ;;
    captured <- get_captured ;;
    match captured with
    | Some keystream => ret (rev keystream)
    | None => throw CallbackNotCalled
    end.

(** The buffers captured during a call: what it added to the log. *)
Definition captured_during (before after : Service) : list (list Z) :=
  skipn (length (captured_log before)) (captured_log after).

(** The three calls into the module that a run of [getKeystream] makes
    when none of them throws. *)
Definition calls_of (c : Ctor) (key : jsstring) (size : Z) : list ForeignCall :=
  [ctor_call (c key); generate (instance (c key)) size]
  ++ match delete (instance (c key)) with Some d => [d] | None => [] end.

(** The part of [getKeystream] that runs inside the [try] block. *)
Definition generate_block (ctor : Ctor) (key : jsstring) (size : Z) : M (list Z) :=
  reset_captured ;;
  foreign (ctor_call (ctor key)) ;;
  foreign (generate (instance (ctor key)) size) ;;
  match delete (instance (ctor key)) with
  | Some d => foreign d
  | None => ret tt
  end ;;
  captured <- get_captured ;;
  match captured with
  | Some keystream => ret (rev keystream)
  | None => throw CallbackNotCalled
  end.

(** [s'] comes after [s]: the log grew by [added], and
    [capturedKeystream] is the newest buffer added, if any. *)
Definition extends_by (added : list (list Z)) (s s' : Service) : Prop :=
  captured_log s' = captured_log s ++ added
  /\ capturedKeystream s' =
     match added with
     | [] => capturedKeystream s
     | _ :: _ => Some (last added [])
     end.

(** A module that writes 1 2 3 4 at address 2 of its memory and calls
    back with the first [n] of them, and a service that holds it. *)
Definition sample_module : WasmModule :=
  mkWasmModule
    (Some (fun _ =>
             mkConstruction (mkForeignCall [] false)
               (mkIsaac (fun n => mkForeignCall [mkCallbackArgs [9; 9; 1; 2; 3; 4; 9] 2 n] false)
                        (Some (mkForeignCall [] false)))))
    None.

Definition sample_service : Service := mkService (Some sample_module) None [].

End Keystream.

(** ** The HTTP API service *)

(** [array.slice(start, end)]: a negative index counts from the end, and
    both are clamped to the length. *)
Definition rel_index (len k : Z) : Z :=
  if k <? 0 then Z.max (len + k) 0 else Z.min k len.

Definition js_slice {A} (l : list A) (s e : Z) : list A :=
  let len := Z.of_nat (length l) in
  let from := rel_index len s in
  let to := rel_index len e in
  firstn (Z.to_nat (to - from)) (skipn (Z.to_nat from) l).

(** [array.slice(start)] *)
Definition js_slice_from {A} (l : list A) (s : Z) : list A :=
  js_slice l s (Z.of_nat (length l)).

(** *** detectImageExt *)

(** [buffer.toString('ascii')]: Node clears the high bit of every byte
    before it decodes ("when decoding a Buffer into a string, using this
    encoding will additionally unset the highest bit of each byte"). *)
Definition toString_ascii (b : Buffer) : jsstring := map (fun x => Z.land x 0x7f) b.

(** [a.equals(b)] *)
Definition buf_equals (a b : Buffer) : bool := str_eqb a b.

Definition png_signature : Buffer := [0x89; 0x50; 0x4e; 0x47; 0x0d; 0x0a; 0x1a; 0x0a].

Definition byte_is (b : Buffer) (i v : Z) : bool :=
  match buf_get b i with Some x => x =? v | None => false end.

Definition detectImageExt (buffer : Buffer) : jsstring :=
  if (buf_length buffer >=? 3) && byte_is buffer 0 0xff && byte_is buffer 1 0xd8
     && byte_is buffer 2 0xff then str ".jpg"
  else if (buf_length buffer >=? 8) && buf_equals (buf_range buffer 0 8) png_signature
  then str ".png"
  else if (buf_length buffer >=? 6)
          && (let sig6 := toString_ascii (buf_range buffer 0 6) in
              str_eqb sig6 (str "GIF87a") || str_eqb sig6 (str "GIF89a"))
  then str ".gif"
  else if (buf_length buffer >=? 12)
          && str_eqb (toString_ascii (buf_range buffer 0 4)) (str "RIFF")
          && str_eqb (toString_ascii (buf_range buffer 8 12)) (str "WEBP")
  then str ".webp"
  else if (buf_length buffer >=? 2) && byte_is buffer 0 0x42 && byte_is buffer 1 0x4d
  then str ".bmp"
  else str ".jpg".

(** A buffer holds bytes. *)
Definition bytes_ok (b : Buffer) : Prop := Forall (fun x => 0 <= x < 256) b.

(** The signatures, byte for byte. *)
Definition has_prefix (b sig : Buffer) : Prop := firstn (length sig) b = sig.

Definition is_jpeg (b : Buffer) : Prop := has_prefix b [0xff; 0xd8; 0xff].
Definition is_png (b : Buffer) : Prop := has_prefix b png_signature.
Definition is_gif (b : Buffer) : Prop :=
  has_prefix b (str "GIF87a") \/ has_prefix b (str "GIF89a").
Definition is_webp (b : Buffer) : Prop :=
  has_prefix b (str "RIFF") /\ (12 <= length b)%nat /\ firstn 4 (skipn 8 b) = str "WEBP".
Definition is_bmp (b : Buffer) : Prop := has_prefix b (str "BM").

(** The extension for every buffer: that of the signature it starts
    with, [.jpg] when it starts with none. *)
Definition sniffs_by_signature (b : Buffer) : Prop :=
  (is_jpeg b -> detectImageExt b = str ".jpg")
  /\ (is_png b -> detectImageExt b = str ".png")
  /\ (is_gif b -> detectImageExt b = str ".gif")
  /\ (is_webp b -> detectImageExt b = str ".webp")
  /\ (is_bmp b -> detectImageExt b = str ".bmp")
  /\ (~ is_jpeg b -> ~ is_png b -> ~ is_gif b -> ~ is_webp b -> ~ is_bmp b ->
      detectImageExt b = str ".jpg").

(** *** fetchMessagesBatch

    The encrypted store ([wcdbService]) and the row mapper
    ([chatService.mapRowsToMessagesForApi]) are collaborators.  A cursor is
    what it answers to the successive calls of [fetchMessageBatch]; any
    call to the store may throw. *)

Section Fetch.

Variable Row : Type.
Variable Message : Type.
Variable mapRowsToMessagesForApi : list Row -> list Message.

(** [{ success, rows?, hasMore? }] *)
Record Batch := mkBatch {
  batch_success : bool;
  batch_rows : option (list Row);
  batch_hasMore : option bool
}.

Inductive Fetched :=
| FetchThrows
| FetchReturns (batch : Batch).

Record Cursor := mkCursor {
  fetchMessageBatch : nat -> Fetched;     (* the answer to the n-th call, from 0 *)
  closeThrows : bool                      (* whether [closeMessageCursor] throws *)
}.

(** [{ success, cursor? }] *)
Inductive Opened :=
| OpenThrows
| OpenReturns (success : bool) (cursor : option Cursor).

(** [openMessageCursor(talker, batchSize, ascending, begin, end)] *)
Definition Store := jsstring -> Z -> bool -> Z -> Z -> Opened.

(** The rows of a batch that the loop goes on with: none when
    [!batch.success || !batch.rows || batch.rows.length === 0]. *)
Definition usable_rows (batch : Batch) : option (list Row) :=
  if batch_success batch then
    match batch_rows batch with
    | Some (r :: rows) => Some (r :: rows)
    | _ => None
    end
  else None.

(** How the [while] loop ends. *)
Inductive Loop :=
| LoopThrows
| LoopEnds (allRows : list Row) (hasMore : bool) (fetches : nat)
| LoopOutOfFuel.

Fixpoint fetch_loop (fuel : nat) (cursor : Cursor) (offset limit : Z)
         (allRows : list Row) (hasMore : bool) (skipped : Z) (fetches : nat) : Loop :=
  match fuel with
  | O => LoopOutOfFuel
  | S fuel' =>
    if (Z.of_nat (length allRows) <? limit) && hasMore then
      match fetchMessageBatch cursor fetches with
      | FetchThrows => LoopThrows
      | FetchReturns batch =>
        match usable_rows batch with
        | None => LoopEnds allRows false (S fetches)
        | Some rows =>
          let hasMore' := match batch_hasMore batch with Some true => true | _ => false end in
          if skipped <? offset then
            let remaining := offset - skipped in
            if remaining >=? Z.of_nat (length rows) then
              fetch_loop fuel' cursor offset limit allRows hasMore'
                         (skipped + Z.of_nat (length rows)) (S fetches)
            else
              fetch_loop fuel' cursor offset limit
                         (allRows ++ js_slice_from rows remaining) hasMore'
                         offset (S fetches)
          else
            fetch_loop fuel' cursor offset limit (allRows ++ rows) hasMore'
                       skipped (S fetches)
        end
      end
    else LoopEnds allRows hasMore fetches
  end.

(** Every round with a usable batch either skips at least one row of the
    offset or accumulates at least one row, so this many rounds reach the
    end of the loop. *)
Definition fetch_fuel (offset limit : Z) : nat :=
  S (Z.to_nat offset + Z.to_nat limit).

Definition run_loop (cursor : Cursor) (offset limit : Z) : Loop :=
  fetch_loop (fetch_fuel offset limit) cursor offset limit [] true 0 0.

Record Page := mkPage {
  messages : list Message;
  hasMore : bool
}.

(** [{ success: true, messages, hasMore }] or [{ success: false, error }] *)
Inductive FetchResult :=
| Failure
| Success (page : Page).

Definition batchSize_of (limit : Z) : Z := Z.min limit 500.

(** [t > 10000000000 ? Math.floor(t / 1000) : t] *)
Definition to_seconds (t : Z) : Z := if t >? 10000000000 then t / 1000 else t.

Definition fetchMessagesBatch (store : Store) (talker : jsstring) (offset limit : Z)
           (startTime endTime : Z) (ascending : bool) : FetchResult :=
  let batchSize := batchSize_of limit in
  let beginTimestamp := to_seconds startTime in
  let endTimestamp := to_seconds endTime in
  match store talker batchSize ascending beginTimestamp endTimestamp with
  | OpenThrows => Failure
  | OpenReturns true (Some cursor) =>
    match run_loop cursor offset limit with
    | LoopEnds allRows hasMore _ =>
      let trimmedRows := js_slice allRows 0 limit in
      let finalHasMore := hasMore || (Z.of_nat (length allRows) >? limit) in
      let messages := mapRowsToMessagesForApi trimmedRows in
      (* finally: closeMessageCursor *)
      if closeThrows cursor then Failure
      else Success (mkPage messages finalHasMore)
    | _ => Failure
    end
  | OpenReturns _ _ => Failure
  end.

(** The rows of the first [n] batches of a cursor, in order. *)
Fixpoint fetched_rows (cursor : Cursor) (n : nat) : list Row :=
  match n with
  | O => []
  | S n' =>
    fetched_rows cursor n' ++
    match fetchMessageBatch cursor n' with
    | FetchReturns batch =>
      match usable_rows batch with Some rows => rows | None => [] end
    | FetchThrows => []
    end
  end.

(** A batch carries the flag [hasMore: true]. *)
Definition flags_more (f : Fetched) : Prop :=
  match f with
  | FetchReturns batch => batch_hasMore batch = Some true
  | FetchThrows => False
  end.

(** A batch brings rows and carries the flag [hasMore: true]. *)
Definition brings_more (f : Fetched) : Prop :=
  match f with
  | FetchReturns batch =>
    usable_rows batch <> None /\ batch_hasMore batch = Some true
  | FetchThrows => False
  end.

(** The state of the loop before a round: [skipped] rows of the offset
    are behind, [n] batches were fetched, [hm] is the flag of the last
    one. *)
Definition loop_inv (cursor : Cursor) (offset : Z)
           (allRows : list Row) (hm : bool) (skipped : Z) (n : nat) : Prop :=
  ((skipped < offset /\ allRows = []
    /\ skipped = Z.of_nat (length (fetched_rows cursor n)))
   \/ (skipped = offset
       /\ allRows = skipn (Z.to_nat offset) (fetched_rows cursor n)
       /\ offset <= Z.of_nat (length (fetched_rows cursor n))))
  /\ ((1 <= n)%nat ->
      (hm = true <-> brings_more (fetchMessageBatch cursor (n - 1)))).

(** What a successful fetch returns, [last_signal] saying when the last
    batch fetched counts as a signal that more data remains: the loop
    ended after at least one fetch; the page holds at most [limit] rows,
    the first [limit] of the rows fetched beyond the first [offset]; and
    [hasMore] holds exactly when the last batch signalled more data or
    more than [limit] rows were accumulated. *)
Definition page_contract (last_signal : Fetched -> Prop)
           (store : Store) (talker : jsstring) (offset limit : Z)
           (startTime endTime : Z) (ascending : bool) (page : Page) : Prop :=
  exists cursor allRows loopHasMore fetches,
    store talker (batchSize_of limit) ascending (to_seconds startTime) (to_seconds endTime)
      = OpenReturns true (Some cursor)
    /\ run_loop cursor offset limit = LoopEnds allRows loopHasMore (S fetches)
    /\ allRows = skipn (Z.to_nat offset) (fetched_rows cursor (S fetches))
    /\ messages page = mapRowsToMessagesForApi (firstn (Z.to_nat limit) allRows)
    /\ Z.of_nat (length (firstn (Z.to_nat limit) allRows)) <= limit
    /\ ((forall rows, length (mapRowsToMessagesForApi rows) = length rows) ->
        Z.of_nat (length (messages page)) <= limit)
    /\ (hasMore page = true <->
        last_signal (fetchMessageBatch cursor fetches)
        \/ Z.of_nat (length allRows) > limit).

(** How a cursor sets [hasMore] on a batch: when rows remain after it,
    when the batch is full, or on every batch that has rows. *)
Inductive FlagPolicy :=
| RowsRemain
| BatchFull
| UntilEmpty.

(** Modelled from the spec: the native batch cursor of the encrypted
    store ([wcdbService.openMessageCursor], [fetchMessageBatch],
    [closeMessageCursor]), which is not part of the sources: "a stateful
    handle over an encrypted datastore yielding rows in fixed-size
    batches", whose [fetchBatch] answers [{ rows, hasMore }].  Over a
    stable dataset the n-th batch holds the next [batchSize] rows, fewer
    at the end and none beyond it. *)
Definition dataset_cursor (policy : FlagPolicy) (rows : list Row) (batchSize : Z) : Cursor :=
  mkCursor
    (fun n =>
       let rest := skipn (n * Z.to_nat batchSize) rows in
       let batch := firstn (Z.to_nat batchSize) rest in
       let after := skipn (Z.to_nat batchSize) rest in
       let flag :=
         match policy with
         | RowsRemain => match after with [] => false | _ :: _ => true end
         | BatchFull => Z.of_nat (length batch) =? batchSize
         | UntilEmpty => match batch with [] => false | _ :: _ => true end
         end in
       FetchReturns (mkBatch true (Some batch) (Some flag)))
    false.

Definition dataset_store (policy : FlagPolicy) (rows : list Row) : Store :=
  fun _ batchSize _ _ _ => OpenReturns true (Some (dataset_cursor policy rows batchSize)).

(** A cursor that answers every fetch with an empty batch flagged
    [hasMore: true]. *)
Definition empty_flagged_cursor : Cursor :=
  mkCursor (fun _ => FetchReturns (mkBatch true (Some []) (Some true))) false.

Definition empty_flagged_store : Store :=
  fun _ _ _ _ _ => OpenReturns true (Some empty_flagged_cursor).

End Fetch.

Arguments mkBatch {Row}.
Arguments FetchThrows {Row}.
Arguments FetchReturns {Row}.
Arguments mkCursor {Row}.
Arguments OpenThrows {Row}.
Arguments OpenReturns {Row}.
Arguments Failure {Message}.
Arguments Success {Message}.
Arguments mkPage {Message}.
Arguments messages {Message}.
Arguments hasMore {Message}.

(** *** handleMessages

    The handler reads the query parameters, fetches, filters by keyword
    and answers in one of two formats.  [parseInt] and [parseTimeParam]
    are taken at their results; the export of media and the conversion of
    each message for the response do not touch the selection and are left
    out. *)

Section Handle.

Variable Row : Type.
Variable Message : Type.
Variable mapRowsToMessagesForApi : list Row -> list Message.
Variable toLowerCase : jsstring -> jsstring.
Variable parsedContent : Message -> option jsstring.
Variable rawContent : Message -> option jsstring.

Record Request := mkRequest {
  q_talker : option jsstring;      (* searchParams.get('talker') *)
  q_limit : option Z;              (* parseInt of 'limit'; None for NaN *)
  q_offset : option Z;             (* parseInt of 'offset'; None for NaN *)
  q_keyword : option jsstring;     (* searchParams.get('keyword') *)
  q_start : Z;                     (* parseTimeParam(startParam) *)
  q_end : Z;                       (* parseTimeParam(endParam, true) *)
  q_chatlab : bool;                (* parseBooleanParam(url, ['chatlab'], false) *)
  q_format : option jsstring       (* searchParams.get('format') *)
}.

Inductive Response :=
| ErrorResponse (status : Z)
| JsonResponse (count : Z) (hasMore : bool) (messages : list Message)
| ChatLabResponse (messages : list Message).

(** The arguments of a call to [fetchMessagesBatch]. *)
Record Query := mkQuery {
  query_talker : jsstring;
  query_offset : Z;
  query_limit : Z;
  query_start : Z;
  query_end : Z;
  query_ascending : bool
}.

Record Handled := mkHandled {
  queried : option Query;          (* the fetch the handler made, if any *)
  response : Response
}.

Definition MAX_SAFE_INTEGER : Z := 2 ^ 53 - 1.

Definition parseIntParam (parsed : option Z) (defaultValue min max : Z) : Z :=
  match parsed with
  | None => defaultValue
  | Some p => Z.min (Z.max p min) max
  end.

(** [value || ''] *)
Definition or_empty (value : option jsstring) : jsstring :=
  match value with Some v => v | None => [] end.

(** [msg.parsedContent || msg.rawContent || ''] *)
Definition resolved_content (msg : Message) : jsstring :=
  if truthy (or_empty (parsedContent msg)) then or_empty (parsedContent msg)
  else if truthy (or_empty (rawContent msg)) then or_empty (rawContent msg)
  else [].

(** The keyword filter: the lowercased content includes the keyword. *)
Definition keyword_filter (keyword : jsstring) (messages : list Message) : list Message :=
  filter (fun msg => includes (toLowerCase (resolved_content msg)) keyword) messages.

Definition handleMessages (store : Store Row) (req : Request) : Handled :=
  let talker := trim (or_empty (q_talker req)) in
  let limit := parseIntParam (q_limit req) 100 1 10000 in
  let offset := parseIntParam (q_offset req) 0 0 MAX_SAFE_INTEGER in
  let keyword := toLowerCase (trim (or_empty (q_keyword req))) in
  let formatParam := toLowerCase (trim (or_empty (q_format req))) in
  let format :=
    if truthy formatParam then formatParam
    else if q_chatlab req then str "chatlab" else str "json" in
  if negb (truthy talker) then mkHandled None (ErrorResponse 400)
  else if negb (str_eqb format (str "json")) && negb (str_eqb format (str "chatlab"))
  then mkHandled None (ErrorResponse 400)
  else
    let queryOffset := if truthy keyword then 0 else offset in
    let queryLimit := if truthy keyword then 10000 else limit in
    let query := mkQuery talker queryOffset queryLimit (q_start req) (q_end req) true in
    match fetchMessagesBatch Row Message mapRowsToMessagesForApi store
            talker queryOffset queryLimit (q_start req) (q_end req) true with
    | Failure => mkHandled (Some query) (ErrorResponse 500)
    | Success page =>
      let selection :=
        if truthy keyword then
          let filtered := keyword_filter keyword (messages page) in
          let endIndex := js_add offset limit in
          (js_slice filtered offset endIndex,
           Z.of_nat (length filtered) >? endIndex)
        else (messages page, hasMore page) in
      mkHandled (Some query)
        (if str_eqb format (str "chatlab") then ChatLabResponse (fst selection)
         else JsonResponse (Z.of_nat (length (fst selection))) (snd selection)
                           (fst selection))
    end.

(** What a response reports. *)
Definition reported_messages (r : Response) : option (list Message) :=
  match r with
  | ErrorResponse _ => None
  | JsonResponse _ _ ms => Some ms
  | ChatLabResponse ms => Some ms
  end.

Definition reported_hasMore (r : Response) : option bool :=
  match r with
  | JsonResponse _ h _ => Some h
  | _ => None
  end.

(** The keyword search of a request as the handler normalizes it: the
    caller's offset and limit, and the trimmed, lowercased keyword. *)
Definition effective_offset (req : Request) : Z :=
  parseIntParam (q_offset req) 0 0 MAX_SAFE_INTEGER.
Definition effective_limit (req : Request) : Z :=
  parseIntParam (q_limit req) 100 1 10000.
Definition effective_keyword (req : Request) : jsstring :=
  toLowerCase (trim (or_empty (q_keyword req))).
Definition effective_format (req : Request) : jsstring :=
  if truthy (toLowerCase (trim (or_empty (q_format req))))
  then toLowerCase (trim (or_empty (q_format req)))
  else if q_chatlab req then str "chatlab" else str "json".

(** The page of a keyword search: of the messages whose lowercased
    content includes the keyword, those at positions
    [offset, offset + limit), and whether more follow. *)
Definition keyword_page (req : Request) (fetched : list Message) : list Message * bool :=
  let filtered := keyword_filter (effective_keyword req) fetched in
  (firstn (Z.to_nat (effective_limit req)) (skipn (Z.to_nat (effective_offset req)) filtered),
   Z.of_nat (length filtered) >? effective_offset req + effective_limit req).

(** The keyword search as every request with a non-empty [keyword]
    parameter would get it, in either format: the store is queried from
    offset 0 with limit 10000, and the response reports the page of the
    filtered messages and its [hasMore]. *)
Definition keyword_search_always (store : Store Row) (req : Request) : Prop :=
  forall kw, q_keyword req = Some kw -> kw <> [] ->
    exists talker,
      queried (handleMessages store req)
        = Some (mkQuery talker 0 10000 (q_start req) (q_end req) true)
      /\ forall page,
          fetchMessagesBatch Row Message mapRowsToMessagesForApi store
            talker 0 10000 (q_start req) (q_end req) true = Success page ->
          Z.of_nat (length (messages page)) < 2 ^ 32 ->
          reported_messages (response (handleMessages store req))
            = Some (fst (keyword_page req (messages page)))
          /\ reported_hasMore (response (handleMessages store req))
             = Some (snd (keyword_page req (messages page))).

End Handle.

(** A store of four text messages, each row being its own message, and
    the handler over it. *)
Definition chat_rows : list jsstring :=
  [str "Hello there"; str "bye"; str "HELLO again"; str "hello hello"].

Definition chat_store : Store jsstring := dataset_store jsstring RowsRemain chat_rows.

Definition chat_handler : Request -> Handled jsstring :=
  handleMessages jsstring jsstring (fun rows => rows) asciiLower
                 (fun msg => Some msg) (fun _ => None) chat_store.

(** [?talker=room&keyword=hello&offset=1&limit=1], in the json format and
    in the chatlab format, and the same request with a blank keyword. *)
Definition search_json : Request :=
  mkRequest (Some (str "room")) (Some 1) (Some 1) (Some (str "hello")) 0 0 false None.
Definition search_chatlab : Request :=
  mkRequest (Some (str "room")) (Some 1) (Some 1) (Some (str "hello")) 0 0 true None.
Definition search_blank : Request :=
  mkRequest (Some (str "room")) (Some 1) (Some 1) (Some (str " ")) 0 0 false None.

(* ===================================================================== *)
(** * Part I, continued: the functions around the ones above             *)
(* ===================================================================== *)

(** ** Strings, continued *)

(** The first code unit of a string, if any, is not a blank. *)
Definition head_not_ws (s : jsstring) : Prop :=
  match s with
  | [] => True
  | c :: _ => is_whitespace c = false
  end.

(** ** The messages handler, continued *)

(** A request passes the two checks of [handleMessages]: its talker is
    not blank, and its format is json or chatlab. *)
Definition well_formed (toLowerCase : jsstring -> jsstring) (req : Request) : Prop :=
  trim (or_empty (q_talker req)) <> []
  /\ (effective_format toLowerCase req = str "json"
      \/ effective_format toLowerCase req = str "chatlab").

(** ** Message content and the ChatLab conversion (HttpService) *)

Module ChatLabType.
Definition TEXT : Z := 0.
Definition IMAGE : Z := 1.
Definition VOICE : Z := 2.
Definition VIDEO : Z := 3.
Definition FILE : Z := 4.
Definition EMOJI : Z := 5.
Definition LINK : Z := 7.
Definition LOCATION : Z := 8.
Definition RED_PACKET : Z := 20.
Definition TRANSFER : Z := 21.
Definition POKE : Z := 22.
Definition CALL : Z := 23.
Definition SHARE : Z := 24.
Definition REPLY : Z := 25.
Definition FORWARD : Z := 26.
Definition CONTACT : Z := 27.
Definition SYSTEM : Z := 80.
Definition RECALL : Z := 81.
Definition OTHER : Z := 99.
End ChatLabType.

(** The placeholders of [getMessageContent] and the name of the user's
    own account, as code units: a bracketed pair of CJK characters each,
    and U+6211. *)
Definition s_image : jsstring := [91; 22270; 29255; 93].
Definition s_voice : jsstring := [91; 35821; 38899; 93].
Definition s_video : jsstring := [91; 35270; 39057; 93].
Definition s_emoji : jsstring := [91; 34920; 24773; 93].
Definition s_card : jsstring := [91; 21517; 29255; 93].
Definition s_location : jsstring := [91; 20301; 32622; 93].
Definition s_message : jsstring := [91; 28040; 24687; 93].
Definition s_me : jsstring := [25105].

Definition endsWith (s suffix : jsstring) : bool :=
  (length suffix <=? length s)%nat
  && str_eqb (skipn (length s - length suffix) s) suffix.

(** [a || b], [a] a string that may be missing. *)
Definition or_else (a : option jsstring) (b : jsstring) : jsstring :=
  if truthy (or_empty a) then or_empty a else b.

(** [a || null] *)
Definition or_null (a : option jsstring) : option jsstring :=
  if truthy (or_empty a) then Some (or_empty a) else None.

(** A [Map] with string keys, in insertion order. *)
Definition entries_has {V : Type} (m : list (jsstring * V)) (k : jsstring) : bool :=
  existsb (fun e => str_eqb (fst e) k) m.

Fixpoint entries_set {V : Type} (m : list (jsstring * V)) (k : jsstring) (v : V)
  : list (jsstring * V) :=
  match m with
  | [] => [(k, v)]
  | (k', v') :: rest =>
    if str_eqb k' k then (k', v) :: rest else (k', v') :: entries_set rest k v
  end.

Record ChatLabMember := mkChatLabMember {
  platformId : jsstring;
  accountName : jsstring;
  groupNickname : option jsstring
}.

Record ChatLabMessage := mkChatLabMessage {
  sender : jsstring;
  msg_accountName : jsstring;
  msg_groupNickname : option jsstring;
  timestamp : Z;
  msg_type : Z;
  content : option jsstring;
  platformMessageId : option jsstring;
  mediaPath : option jsstring
}.

Record ChatLabMeta := mkChatLabMeta {
  meta_name : jsstring;
  meta_type : jsstring;
  groupId : option jsstring;
  ownerId : option jsstring
}.

Record ChatLabData := mkChatLabData {
  exportedAt : Z;
  meta : ChatLabMeta;
  members : list ChatLabMember;
  chatlab_messages : list ChatLabMessage
}.

Section Convert.

Variable Message : Type.
Variable toLowerCase : jsstring -> jsstring.

(** The fields of a message that the conversion reads. *)
Variable localId : Message -> Z.
Variable serverId : Message -> option jsstring.   (* String(msg.serverId), None when falsy *)
Variable localType : Message -> Z.
Variable createTime : Message -> Z.
Variable isSend : Message -> option Z.
Variable senderUsername : Message -> option jsstring.
Variable parsedContent : Message -> option jsstring.
Variable rawContent : Message -> option jsstring.
Variable cardNickname : Message -> option jsstring.
Variable linkTitle : Message -> option jsstring.
Variable fileName : Message -> option jsstring.
Variable xmlType : Message -> option jsstring.

(** What the conversion asks of its environment: the display names that
    [getDisplayNames] resolves for a list of users (no name where the
    call failed), the nicknames of [wcdbService.getGroupNicknames] (none
    where the call failed or brought no table), and the configured
    [myWxid]. *)
Variable getDisplayNames : list jsstring -> jsstring -> option jsstring.
Variable getGroupNicknames : jsstring -> option JsMap.
Variable myWxidConfig : option jsstring.

Definition getMessageContent (msg : Message) : option jsstring :=
  if truthy (or_empty (parsedContent msg)) then parsedContent msg
  else if localType msg =? 1 then or_null (rawContent msg)
  else if localType msg =? 3 then Some s_image
  else if localType msg =? 34 then Some s_voice
  else if localType msg =? 43 then Some s_video
  else if localType msg =? 47 then Some s_emoji
  else if localType msg =? 42 then Some (or_else (cardNickname msg) s_card)
  else if localType msg =? 48 then Some s_location
  else if localType msg =? 49
  then Some (or_else (linkTitle msg) (or_else (fileName msg) s_message))
  else or_null (rawContent msg).

Definition mapType49 (msg : Message) : Z :=
  match xmlType msg with
  | None => ChatLabType.OTHER
  | Some t =>
    if str_eqb t (str "5") || str_eqb t (str "49") then ChatLabType.LINK
    else if str_eqb t (str "6") then ChatLabType.FILE
    else if str_eqb t (str "19") then ChatLabType.FORWARD
    else if str_eqb t (str "33") || str_eqb t (str "36") then ChatLabType.SHARE
    else if str_eqb t (str "57") then ChatLabType.REPLY
    else if str_eqb t (str "2000") then ChatLabType.TRANSFER
    else if str_eqb t (str "2001") then ChatLabType.RED_PACKET
    else ChatLabType.OTHER
  end.

Definition mapMessageType (type : Z) (msg : Message) : Z :=
  if type =? 1 then ChatLabType.TEXT
  else if type =? 3 then ChatLabType.IMAGE
  else if type =? 34 then ChatLabType.VOICE
  else if type =? 43 then ChatLabType.VIDEO
  else if type =? 47 then ChatLabType.EMOJI
  else if type =? 48 then ChatLabType.LOCATION
  else if type =? 42 then ChatLabType.CONTACT
  else if type =? 50 then ChatLabType.CALL
  else if type =? 10000 then ChatLabType.SYSTEM
  else if type =? 49 then mapType49 msg
  else if type =? 244813135921 then ChatLabType.REPLY
  else if type =? 266287972401 then ChatLabType.POKE
  else if type =? 8594229559345 then ChatLabType.RED_PACKET
  else if type =? 8589934592049 then ChatLabType.TRANSFER
  else ChatLabType.OTHER.

(** The first loop: the set of the senders, in order of appearance. *)
Definition senderSet (messages : list Message) : JsSet :=
  fold_left (fun set msg =>
               if truthy (or_empty (senderUsername msg))
               then set_add set (or_empty (senderUsername msg)) else set)
            messages [].

(** [groupNicknamesMap.get(sender) || groupNicknamesMap.get(sender.toLowerCase()) || ''],
    then [groupNickname || undefined]. *)
Definition groupNickname_of (isGroup : bool) (groupNicknamesMap : JsMap) (s : jsstring)
  : option jsstring :=
  or_null
    (if isGroup
     then Some (or_else (map_get groupNicknamesMap s)
                        (or_else (map_get groupNicknamesMap (toLowerCase s)) []))
     else Some []).

Definition member_of (isGroup : bool) (groupNicknamesMap : JsMap)
           (senderNames : jsstring -> option jsstring) (myWxid s : jsstring)
  : ChatLabMember :=
  let displayName := or_else (senderNames s) s in
  let isSelf := str_eqb s myWxid || str_eqb (toLowerCase s) (toLowerCase myWxid) in
  mkChatLabMember s (if isSelf then s_me else displayName)
                  (groupNickname_of isGroup groupNicknamesMap s).

(** The second loop: one member for each sender, at its first message. *)
Fixpoint memberMap_loop (isGroup : bool) (groupNicknamesMap : JsMap)
         (senderNames : jsstring -> option jsstring) (myWxid : jsstring)
         (messages : list Message) (memberMap : list (jsstring * ChatLabMember))
  : list (jsstring * ChatLabMember) :=
  match messages with
  | [] => memberMap
  | msg :: rest =>
    let s := or_empty (senderUsername msg) in
    memberMap_loop isGroup groupNicknamesMap senderNames myWxid rest
      (if truthy s && negb (entries_has memberMap s)
       then entries_set memberMap s
              (member_of isGroup groupNicknamesMap senderNames myWxid s)
       else memberMap)
  end.

Definition message_of (isGroup : bool) (groupNicknamesMap : JsMap)
           (senderNames : jsstring -> option jsstring) (myWxid : jsstring)
           (mediaMap : Z -> option jsstring) (msg : Message) : ChatLabMessage :=
  let s := or_empty (senderUsername msg) in
  let isSelf := (match isSend msg with Some v => v =? 1 | None => false end)
                || str_eqb s myWxid in
  mkChatLabMessage s
    (if isSelf then s_me else or_else (senderNames s) s)
    (groupNickname_of isGroup groupNicknamesMap s)
    (createTime msg)
    (mapMessageType (localType msg) msg)
    (getMessageContent msg)
    (serverId msg)
    (mediaMap (localId msg)).

(** [mediaMap] gives the [fullPath] of the media exported for a message,
    [nowMs] is [Date.now()]. *)
Definition convertToChatLab (messages : list Message) (talkerId talkerName : jsstring)
           (mediaMap : Z -> option jsstring) (nowMs : Z) : ChatLabData :=
  let isGroup := endsWith talkerId s_chatroom in
  let myWxid := or_else myWxidConfig [] in
  let senderNames := getDisplayNames (senderSet messages) in
  let groupNicknamesMap :=
    if isGroup
    then match getGroupNicknames talkerId with Some m => m | None => [] end
    else [] in
  let memberMap :=
    memberMap_loop isGroup groupNicknamesMap senderNames myWxid messages [] in
  mkChatLabData (nowMs / 1000)
    (mkChatLabMeta talkerName
       (if isGroup then str "group" else str "private")
       (if isGroup then Some talkerId else None)
       (or_null (Some myWxid)))
    (map snd memberMap)
    (map (message_of isGroup groupNicknamesMap senderNames myWxid mediaMap) messages).

End Convert.

(** ** Names and fields written to files *)

Fixpoint dropWhile (p : Z -> bool) (s : jsstring) : jsstring :=
  match s with
  | c :: rest => if p c then dropWhile p rest else s
  | [] => []
  end.

(** [parts.join(sep)] *)
Fixpoint join (sep : jsstring) (parts : list jsstring) : jsstring :=
  match parts with
  | [] => []
  | [p] => p
  | p :: rest => p ++ sep ++ join sep rest
  end.

(** *** sanitizeFileName (HttpService) *)

(** The class of the first pattern: the characters < > : / \ | ? and
    asterisk, the double quote, and the controls U+0000 to U+001F. *)
Definition file_special (c : Z) : bool :=
  (c =? 60) || (c =? 62) || (c =? 58) || (c =? 34) || (c =? 47) || (c =? 92)
  || (c =? 124) || (c =? 63) || (c =? 42) || in_range 0x00 0x1f c.

(** [replace(/\.+$/g, '')]: the dots that end the string. *)
Definition strip_trailing_dots (s : jsstring) : jsstring :=
  rev (dropWhile (fun c => c =? 46) (rev s)).

Definition sanitizeFileName (value : option jsstring) (fallback : jsstring) : jsstring :=
  let safe :=
    strip_trailing_dots
      (map (fun c => if file_special c then 95 else c) (trim (or_empty value))) in
  if truthy safe then safe else fallback.

(** *** sanitizeWorksheetName (groupAnalyticsService.ts) *)

(** The pattern [/[*?:\\/\\[\\]]/g].  Its class ends at the first bracket
    that is not escaped, the one after the third escaped backslash, so it
    holds the six characters asterisk, question mark, colon, backslash,
    slash and opening bracket; the closing bracket that follows the class
    is a literal one.  A match is a character of the class followed by a
    closing bracket. *)
Definition sheet_special (c : Z) : bool :=
  (c =? 42) || (c =? 63) || (c =? 58) || (c =? 92) || (c =? 47) || (c =? 91).

(** [replace(pattern, '_')]: the matches, from left to right and without
    overlap. *)
Fixpoint replace_sheet_special (s : jsstring) : jsstring :=
  match s with
  | c :: rest =>
    match rest with
    | d :: rest' =>
      if sheet_special c && (d =? 93) then 95 :: replace_sheet_special rest'
      else c :: replace_sheet_special rest
    | [] => [c]
    end
  | [] => []
  end.

Definition sanitizeWorksheetName (name : option jsstring) : jsstring :=
  let cleaned := trim (replace_sheet_special (or_empty name)) in
  let limited := js_slice cleaned 0 31 in
  if truthy limited then limited else str "Sheet1".

(** *** escapeCsvValue (groupAnalyticsService.ts) *)

(** The class of the test: double quote, comma, line feed, carriage
    return. *)
Definition csv_special (c : Z) : bool :=
  (c =? 34) || (c =? 44) || (c =? 10) || (c =? 13).

(** The replacement of every double quote by two. *)
Fixpoint double_quotes (s : jsstring) : jsstring :=
  match s with
  | c :: rest => if c =? 34 then 34 :: 34 :: double_quotes rest else c :: double_quotes rest
  | [] => []
  end.

(** [None] is [null] or [undefined]. *)
Definition escapeCsvValue (value : option jsstring) : jsstring :=
  match value with
  | None => []
  | Some s => if existsb csv_special s then 34 :: double_quotes s ++ [34] else s
  end.

(** A line of the exported file:
    [row.map((cell) => this.escapeCsvValue(cell)).join(',')]. *)
Definition csv_line (row : list jsstring) : jsstring :=
  join [44] (map (fun cell => escapeCsvValue (Some cell)) row).

(** ** Group statistics (groupAnalyticsService.ts) *)

(** [array.sort((a, b) => count(b) - count(a))]: by decreasing count; the
    sort is stable, so elements of equal count keep their order. *)
Fixpoint insert_by_count {A : Type} (count : A -> Z) (x : A) (sorted : list A) : list A :=
  match sorted with
  | [] => [x]
  | y :: rest =>
    if count x <? count y then y :: insert_by_count count x rest else x :: sorted
  end.

Definition sort_by_count {A : Type} (count : A -> Z) (l : list A) : list A :=
  fold_right (insert_by_count count) [] l.

(** A [Map] with number keys, in insertion order. *)
Fixpoint counts_get (m : list (Z * Z)) (k : Z) : option Z :=
  match m with
  | [] => None
  | (k', v) :: rest => if k' =? k then Some v else counts_get rest k
  end.

Fixpoint counts_set (m : list (Z * Z)) (k v : Z) : list (Z * Z) :=
  match m with
  | [] => [(k, v)]
  | (k', v') :: rest =>
    if k' =? k then (k', v) :: rest else (k', v') :: counts_set rest k v
  end.

(** [count || 0], the count missing or a number *)
Definition or_zero (count : option Z) : Z :=
  match count with Some v => v | None => 0 end.

(** *** getGroupMediaStats *)

Record MediaTypeCount := mkMediaTypeCount {
  media_type : Z;
  media_name : jsstring;
  media_count : Z
}.

Definition mainTypes : list Z := [1; 3; 34; 43; 47; 49].

(** The names of the main types and of the others, as code units. *)
Definition typeNames (type : Z) : jsstring :=
  if type =? 1 then [25991; 26412]
  else if type =? 3 then [22270; 29255]
  else if type =? 34 then [35821; 38899]
  else if type =? 43 then [35270; 39057]
  else if type =? 47 then [34920; 24773; 21253]
  else if type =? 49 then [38142; 25509; 47; 25991; 20214]
  else [].

Definition s_others : jsstring := [20854; 20182].

(** The loop over [Object.entries(typeCountsRaw)]; an entry is given by
    the value of [parseInt(typeStr, 10)], [None] for NaN, and its count. *)
Fixpoint count_types (entries : list (option Z * Z))
         (countsMap : list (Z * Z)) (othersCount : Z) : list (Z * Z) * Z :=
  match entries with
  | [] => (countsMap, othersCount)
  | (Some type, count) :: rest =>
    if existsb (Z.eqb type) mainTypes
    then count_types rest
           (counts_set countsMap type (js_add (or_zero (counts_get countsMap type)) count))
           othersCount
    else count_types rest countsMap (js_add othersCount count)
  | (None, count) :: rest => count_types rest countsMap (js_add othersCount count)
  end.

(** The function, given whether the connection is there and the type
    counts of [wcdbService.getGroupStats], [None] when it brought no data;
    the result is [None] for [{ success: false }], and otherwise the type
    counts and the total. *)
Definition getGroupMediaStats (connected : bool) (typeCountsRaw : option (list (option Z * Z)))
  : option (list MediaTypeCount * Z) :=
  if negb connected then None
  else
    match typeCountsRaw with
    | None => None
    | Some entries =>
      let counted := count_types entries [] 0 in
      let countsMap := fst counted in
      let othersCount := snd counted in
      let mediaCounts :=
        filter (fun item => media_count item >? 0)
               (map (fun type => mkMediaTypeCount type (typeNames type)
                                   (or_zero (counts_get countsMap type)))
                    mainTypes) in
      let mediaCounts :=
        if othersCount >? 0
        then mediaCounts ++ [mkMediaTypeCount (-1) s_others othersCount]
        else mediaCounts in
      let sorted := sort_by_count media_count mediaCounts in
      let total := fold_left (fun sum item => js_add sum (media_count item)) sorted 0 in
      Some (sorted, total)
    end.

(** Where the loop counts an entry: under its type when that is a main
    type, and with the others, whose type in the result is -1, when it is
    not. *)
Definition bucket_of (type : option Z) : Z :=
  match type with
  | Some t => if existsb (Z.eqb t) mainTypes then t else -1
  | None => -1
  end.

(** The exact sum of a list of counts. *)
Definition total_of (counts : list Z) : Z := fold_right Z.add 0 counts.

(** The counts of the entries that the loop counts under [bucket]. *)
Definition counts_under (bucket : Z) (entries : list (option Z * Z)) : list Z :=
  map snd (filter (fun e => bucket_of (fst e) =? bucket) entries).

(** *** getGroupMessageRanking *)

Record GroupMessageRank := mkGroupMessageRank {
  rank_username : jsstring;
  rank_displayName : jsstring;
  rank_avatarUrl : option jsstring;
  messageCount : Z
}.

(** The function, given whether the connection is there, the entries of
    [sessionData.senders] ([None] when the statistics came without data,
    [Some None] when they hold no senders for the room), the names of
    [idMap], and the display names and avatars that are found for the
    ranked users.  [None] is [{ success: false }]. *)
Definition getGroupMessageRanking (connected : bool)
           (senders : option (option (list (jsstring * Z))))
           (idMap : jsstring -> option jsstring) (limit : Z)
           (names avatars : list jsstring -> jsstring -> option jsstring)
  : option (list GroupMessageRank) :=
  if negb connected then None
  else
    match senders with
    | None => None
    | Some None => Some []
    | Some (Some senderEntries) =>
      let rankings :=
        js_slice
          (sort_by_count messageCount
             (map (fun e => let username := or_else (idMap (fst e)) (fst e) in
                            mkGroupMessageRank username username None (snd e))
                  senderEntries))
          0 limit in
      let usernames := map rank_username rankings in
      Some (map (fun rank =>
                   mkGroupMessageRank
                     (rank_username rank)
                     (or_else (names usernames (rank_username rank)) (rank_displayName rank))
                     (or_null (avatars usernames (rank_username rank)))
                     (messageCount rank))
                rankings)
    end.

(** ** Reading the nicknames of a room (groupAnalyticsService.ts) *)

(** *** decodeExtBuffer *)

(** The value of the column, of type [unknown]: a [Buffer], a
    [Uint8Array], a string, or anything else, of which only the
    truthiness counts. *)
Inductive ExtValue :=
| ExtBuffer (b : Buffer)
| ExtBytes (b : Buffer)
| ExtString (s : jsstring)
| ExtOther (truthy_value : bool).

Definition is_hex_digit (c : Z) : bool :=
  is_digit c || in_range 97 102 c || in_range 65 70 c.

Definition hex_value (c : Z) : option Z :=
  if is_digit c then Some (c - 48)
  else if in_range 97 102 c then Some (c - 87)
  else if in_range 65 70 c then Some (c - 55)
  else None.

(** [/^[0-9a-fA-F]+$/] on a string of even length *)
Definition looksLikeHex (s : jsstring) : bool :=
  if negb (Z.of_nat (length s) mod 2 =? 0) then false
  else truthy s && forallb is_hex_digit s.

(** [/^[A-Za-z0-9+/=]+$/] on a string whose length is a multiple of 4 *)
Definition looksLikeBase64 (s : jsstring) : bool :=
  if negb (Z.of_nat (length s) mod 4 =? 0) then false
  else truthy s
       && forallb (fun c => is_alnum c || (c =? 43) || (c =? 47) || (c =? 61)) s.

(** [Buffer.from(s, 'hex')]: Node decodes pairs of hexadecimal digits and
    stops at the first pair that is not one; it does not throw.  It
    reads the low byte of each code unit, so that a code unit above U+00FF
    counts as the digit that its low byte is, if it is one. *)
Fixpoint from_hex (s : jsstring) : Buffer :=
  match s with
  | a :: rest =>
    match rest with
    | b :: rest' =>
      match hex_value (Z.land a 0xff), hex_value (Z.land b 0xff) with
      | Some x, Some y => (16 * x + y) :: from_hex rest'
      | _, _ => []
      end
    | [] => []
    end
  | [] => []
  end.

Section DecodeExt.

(** [Buffer.from(s, 'base64')], which does not throw either. *)
Variable from_base64 : jsstring -> Buffer.

(** The attempts that follow the first decoding by [Buffer.from(raw, 'hex')]
    are behind a [return] that a call without exception always reaches. *)
Definition decodeExtBuffer (value : ExtValue) : option Buffer :=
  match value with
  | ExtOther _ => None
  | ExtBuffer b => Some b
  | ExtBytes b => Some b
  | ExtString s =>
    if negb (truthy s) then None
    else
      let raw := trim s in
      if negb (truthy raw) then None
      else if looksLikeHex raw then Some (from_hex raw)
      else if looksLikeBase64 raw then Some (from_base64 raw)
      else Some (from_hex raw)
  end.

End DecodeExt.

(** [buffer.toString('hex')]: two lowercase digits for each byte. *)
Definition hex_digit_of (v : Z) : Z := if v <? 10 then 48 + v else 87 + v.

Definition toString_hex (b : Buffer) : jsstring :=
  flat_map (fun x => [hex_digit_of (x / 16); hex_digit_of (x mod 16)]) b.

(** *** getGroupNicknamesForRoom *)

(** The replacement of every single quote of [chatroomId] by two. *)
Fixpoint escape_quotes (s : jsstring) : jsstring :=
  match s with
  | c :: rest => if c =? 39 then 39 :: 39 :: escape_quotes rest else c :: escape_quotes rest
  | [] => []
  end.

Definition sql_head : jsstring := str "SELECT ext_buffer FROM chat_room WHERE username='".
Definition sql_tail : jsstring := str "' LIMIT 1".

Definition nickname_query (chatroomId : jsstring) : jsstring :=
  sql_head ++ escape_quotes chatroomId ++ sql_tail.

(** How the database reads the body of a string literal, after its
    opening quote: two quotes stand for one, and one quote alone ends the
    literal.  The result is the string denoted and the text after the
    closing quote; there is none when the literal is not closed. *)
Fixpoint read_literal (text : jsstring) : option (jsstring * jsstring) :=
  match text with
  | [] => None
  | c :: rest =>
    if c =? 39 then
      match rest with
      | d :: rest' =>
        if d =? 39 then
          match read_literal rest' with
          | Some (body, after) => Some (39 :: body, after)
          | None => None
          end
        else Some ([], rest)
      | [] => Some ([], [])
      end
    else
      match read_literal rest with
      | Some (body, after) => Some (c :: body, after)
      | None => None
      end
  end.

(** [wcdbService.execQuery('contact', null, sql)]: it throws, or it
    answers with [success] and, maybe, rows, of which the column
    [ext_buffer] is kept. *)
Inductive QueryResult :=
| QueryThrows
| QueryReturns (success : bool) (rows : option (list ExtValue)).

Section Room.

Variable toLowerCase : jsstring -> jsstring.
Variable from_base64 : jsstring -> Buffer.
Variable execQuery : jsstring -> QueryResult.

Definition getGroupNicknamesForRoom (chatroomId : jsstring) (candidates : list jsstring)
  : JsMap :=
  match execQuery (nickname_query chatroomId) with
  | QueryThrows => []
  | QueryReturns success rows =>
    if negb success then []
    else
      match rows with
      | None => []
      | Some [] => []
      | Some (row :: _) =>
        match decodeExtBuffer from_base64 row with
        | None => []
        | Some extBuffer =>
          parseGroupNicknamesFromExtBuffer toLowerCase extBuffer candidates
        end
      end
  end.

End Room.

(** ** The keystream service, continued *)

Module KeystreamRuns.
Import Keystream.

(** The region of a callback lies inside the heap: the test of
    [wasm_isaac_generate]. *)
Definition valid_region (cb : CallbackArgs) : bool :=
  (0 <=? ptr cb) && (0 <=? size cb) && (ptr cb + size cb <=? buf_length (heap cb)).

(** The bytes that the callback copies. *)
Definition region (cb : CallbackArgs) : list Z :=
  buf_range (heap cb) (ptr cb) (ptr cb + size cb).

(** A call into the module that returns: it does not throw, and each of
    its callbacks is given a region inside the heap. *)
Definition returns (call : ForeignCall) : bool :=
  negb (throws call) && forallb valid_region (callbacks call).

(** The callbacks of a run, in order. *)
Definition callbacks_of (calls : list ForeignCall) : list CallbackArgs :=
  flat_map callbacks calls.

End KeystreamRuns.

(** ** The sessions and contacts handlers (HttpService) *)

(** What [chatService.getSessions()] and [chatService.getContacts()]
    answer: an exception, or [success] and, maybe, the list. *)
Inductive Listing (A : Type) :=
| ListingThrows
| ListingReturns (success : bool) (items : option (list A)).
Arguments ListingThrows {A}.
Arguments ListingReturns {A}.

Inductive ListResponse (A : Type) :=
| ListError (status : Z)
| ListJson (count : Z) (items : list A).
Arguments ListError {A}.
Arguments ListJson {A}.

(** [value && value.toLowerCase().includes(lowerKeyword)], the value
    missing or a string *)
Definition field_includes (toLowerCase : jsstring -> jsstring)
           (value : option jsstring) (lowerKeyword : jsstring) : bool :=
  truthy (or_empty value) && includes (toLowerCase (or_empty value)) lowerKeyword.

Section Listings.

Variable toLowerCase : jsstring -> jsstring.

(** A session, with the fields that the handler reads, and what it
    reports of it. *)
Variable Session : Type.
Variable ApiSession : Type.
Variable session_username : Session -> jsstring.
Variable session_displayName : Session -> option jsstring.
Variable project : Session -> ApiSession.

Definition session_matches (keyword : jsstring) (s : Session) : bool :=
  includes (toLowerCase (session_username s)) (toLowerCase keyword)
  || field_includes toLowerCase (session_displayName s) (toLowerCase keyword).

(** [keywordParam] is [searchParams.get('keyword')], [limitParam] the
    value of [parseInt] for [searchParams.get('limit')]. *)
Definition handleSessions (keywordParam : option jsstring) (limitParam : option Z)
           (sessions : Listing Session) : ListResponse ApiSession :=
  let keyword := trim (or_empty keywordParam) in
  let limit := parseIntParam limitParam 100 1 10000 in
  match sessions with
  | ListingThrows => ListError 500
  | ListingReturns success items =>
    if negb success then ListError 500
    else
      match items with
      | None => ListError 500
      | Some all =>
        let filteredSessions :=
          if truthy keyword then filter (session_matches keyword) all else all in
        let limitedSessions := js_slice filteredSessions 0 limit in
        ListJson (Z.of_nat (length limitedSessions)) (map project limitedSessions)
      end
  end.

(** A contact, with the fields that the handler reads; it is reported as
    it is. *)
Variable Contact : Type.
Variable contact_username : Contact -> jsstring.
Variable contact_nickname : Contact -> option jsstring.
Variable contact_remark : Contact -> option jsstring.
Variable contact_displayName : Contact -> option jsstring.

Definition contact_matches (keyword : jsstring) (c : Contact) : bool :=
  includes (toLowerCase (contact_username c)) (toLowerCase keyword)
  || field_includes toLowerCase (contact_nickname c) (toLowerCase keyword)
  || field_includes toLowerCase (contact_remark c) (toLowerCase keyword)
  || field_includes toLowerCase (contact_displayName c) (toLowerCase keyword).

Definition handleContacts (keywordParam : option jsstring) (limitParam : option Z)
           (contacts : Listing Contact) : ListResponse Contact :=
  let keyword := trim (or_empty keywordParam) in
  let limit := parseIntParam limitParam 100 1 10000 in
  match contacts with
  | ListingThrows => ListError 500
  | ListingReturns success items =>
    if negb success then ListError 500
    else
      match items with
      | None => ListError 500
      | Some all =>
        let filteredContacts :=
          if truthy keyword then filter (contact_matches keyword) all else all in
        let limited := js_slice filteredContacts 0 limit in
        ListJson (Z.of_nat (length limited)) limited
      end
  end.

End Listings.

(** ** Varints, as they are written

    The numbers that [readVarint] reads are written by the other side in
    the base-128 format of protocol buffers: seven bits in each byte, the
    least significant first, and the high bit set on every byte but the
    last.  Ten bytes hold any number below 2^70. *)

Fixpoint varint_bytes (fuel : nat) (n : Z) : list Z :=
  match fuel with
  | O => []
  | S fuel' =>
    if n <? 128 then [n] else (n mod 128 + 128) :: varint_bytes fuel' (n / 128)
  end.

Definition writeVarint (n : Z) : list Z := varint_bytes 10 n.

(** ** Records, as they are written *)

(** A record of the nickname table in the bytes of the room: the tag
    0x0A, the length of the member id and its bytes, the tag 0x12, the
    length of the nickname and its bytes. *)
Definition written_record (id nick : list Z) : Buffer :=
  0x0a :: writeVarint (Z.of_nat (length id)) ++ id
       ++ 0x12 :: writeVarint (Z.of_nat (length nick)) ++ nick.

(** The nickname that the parser makes of the decoded bytes: controls
    removed, trimmed, normalized. *)
Definition nickname_of (rawNick : jsstring) : jsstring :=
  normalizeGroupNickname
    (trim (filter (fun c => negb (in_range 0x00 0x1f c || (c =? 0x7f))) rawNick)).

(* ===================================================================== *)
(** * Part II: properties                                                 *)
(* ===================================================================== *)

Example readVarint_one_byte : readVarint_default [0x0a; 0x09; 0x77] 1 = Some (9, 2).
Proof. reflexivity. Qed.

Example readVarint_two_bytes : readVarint_default [0x96; 0x01] 0 = Some (150, 2).
Proof. reflexivity. Qed.

Example readVarint_truncated : readVarint_default [0x96; 0x81] 0 = None.
Proof. reflexivity. Qed.

(** ** Buffers and numbers *)

Lemma indices_succ from n : indices from (S n) = from :: indices (from + 1) n.
Proof.
  unfold indices. simpl. f_equal; [lia|].
  rewrite <- seq_shift, map_map. apply map_ext. intros; lia.
Qed.

Lemma buf_get_Some b i x : buf_get b i = Some x -> 0 <= i < buf_length b.
Proof.
  unfold buf_get, buf_length. destruct (Z.ltb_spec i 0); [discriminate|].
  intros E. assert (nth_error b (Z.to_nat i) <> None) as N by congruence.
  apply nth_error_Some in N. lia.
Qed.

Lemma buf_get_None b i : buf_get b i = None -> i < 0 \/ buf_length b <= i.
Proof.
  unfold buf_get, buf_length. destruct (Z.ltb_spec i 0); [auto|].
  intros E. apply nth_error_None in E. lia.
Qed.

Lemma buf_range_nil b i e : e <= i -> buf_range b i e = [].
Proof.
  intros. unfold buf_range.
  destruct (Z.leb_spec (Z.min (buf_length b) e) (Z.max 0 i)); [reflexivity|lia].
Qed.

Lemma skipn_nth_error {A} (l : list A) n x :
  nth_error l n = Some x -> skipn n l = x :: skipn (S n) l.
Proof.
  revert l; induction n; intros [|a l] E; simpl in *; try discriminate.
  - congruence.
  - apply IHn in E. exact E.
Qed.

Lemma buf_range_cons b i e x :
  buf_get b i = Some x -> i < e -> buf_range b i e = x :: buf_range b (i + 1) e.
Proof.
  intros G L. pose proof (buf_get_Some _ _ _ G) as R.
  unfold buf_get in G. destruct (Z.ltb_spec i 0); [lia|].
  unfold buf_range, buf_length in *.
  set (to := Z.min (Z.of_nat (length b)) e).
  replace (Z.max 0 i) with i by lia. replace (Z.max 0 (i + 1)) with (i + 1) by lia.
  destruct (Z.leb_spec to i); [lia|].
  rewrite (skipn_nth_error _ _ _ G).
  replace (Z.to_nat (to - i)) with (S (Z.to_nat (to - (i + 1)))) by lia.
  replace (Z.to_nat (i + 1)) with (S (Z.to_nat i)) by lia.
  simpl firstn.
  destruct (Z.leb_spec to (i + 1)).
  - replace (Z.to_nat (to - (i + 1))) with 0%nat by lia. reflexivity.
  - reflexivity.
Qed.

Lemma round53_small z : - 2 ^ 53 < z < 2 ^ 53 -> round53 z = z.
Proof.
  intros. unfold round53, round53_magnitude.
  destruct (Z.ltb_spec z 0).
  - destruct (Z.ltb_spec (- z) (2 ^ 53)); lia.
  - destruct (Z.ltb_spec z (2 ^ 53)); [reflexivity|lia].
Qed.

Lemma land_127_bounds v : 0 <= Z.land v 0x7f < 128.
Proof.
  change 0x7f with (Z.ones 7). rewrite Z.land_ones by lia.
  apply Z.mod_pos_bound. lia.
Qed.

Lemma le128_nonneg bytes : 0 <= le128 bytes.
Proof.
  induction bytes as [|b rest IH]; cbn [le128]; [lia|].
  pose proof (land_127_bounds b). lia.
Qed.

Lemma js_band_127_bounds x : 0 <= js_band x 0x7f < 128.
Proof. destruct x; simpl; [apply land_127_bounds|lia]. Qed.

(** ** readVarint *)

Lemma loop_stops fuel buffer limit value shift pos :
  53 < shift -> readVarint_loop fuel buffer limit value shift pos = mkVarintRun None [].
Proof.
  intros. destruct fuel; simpl; [reflexivity|].
  destruct (Z.leb_spec shift 53); [lia|]. rewrite andb_false_r. reflexivity.
Qed.

(** The loop invariant: group [k] of a varint starts at bit [7 * k], and
    [value] holds the groups read so far, exactly. *)
Lemma loop_spec fuel : forall buffer limit value shift pos (k : nat),
  limit <= buf_length buffer ->
  (9 - k <= fuel)%nat -> (k <= 8)%nat ->
  shift = 7 * Z.of_nat k ->
  0 <= value < 2 ^ shift ->
  let run := readVarint_loop fuel buffer limit value shift pos in
  let n := length (vr_reads run) in
  vr_reads run = indices pos n
  /\ (n <= 8 - k)%nat
  /\ pos + Z.of_nat n <= Z.max pos limit
  /\ (vr_result run = None <-> Forall (continues buffer) (vr_reads run))
  /\ (forall v next, vr_result run = Some (v, next) ->
        (1 <= n)%nat /\ next = pos + Z.of_nat n /\
        v = round53 (value + 2 ^ shift * le128 (buf_range buffer pos next))).
Proof.
  induction fuel as [|fuel IH];
    intros buffer limit value shift pos k Hlim Hfuel Hk Hshift Hval.
  - lia.
  - assert (Hnone : forall run, run = mkVarintRun None [] ->
        vr_reads run = indices pos (length (vr_reads run))
        /\ (length (vr_reads run) <= 8 - k)%nat
        /\ pos + Z.of_nat (length (vr_reads run)) <= Z.max pos limit
        /\ (vr_result run = None <-> Forall (continues buffer) (vr_reads run))
        /\ (forall v next, vr_result run = Some (v, next) ->
             (1 <= length (vr_reads run))%nat /\
             next = pos + Z.of_nat (length (vr_reads run)) /\
             v = round53 (value + 2 ^ shift * le128 (buf_range buffer pos next)))).
    { intros run ->. cbn [vr_reads vr_result length].
      split; [reflexivity|]. split; [lia|]. split; [lia|].
      split; [split; auto|]. intros; discriminate. }
    cbv zeta. cbn [readVarint_loop].
    destruct (Z.ltb_spec pos limit) as [Hpos|Hpos]; cbn [andb];
      [|apply Hnone; reflexivity].
    destruct (Z.leb_spec shift 53) as [Hs|Hs];
      [|apply Hnone; reflexivity].
    clear Hnone.
    assert (Hk7 : (k <= 7)%nat) by lia.
    pose proof (js_band_127_bounds (buf_get buffer pos)) as Hg.
    set (g := js_band (buf_get buffer pos) 0x7f) in *.
    assert (Hpow : 2 ^ (shift + 7) = 128 * 2 ^ shift).
    { rewrite Z.pow_add_r by lia. change (2 ^ 7) with 128. ring. }
    assert (Hp0 : 0 < 2 ^ shift) by (apply Z.pow_pos_nonneg; lia).
    destruct (Z.eqb_spec (js_band (buf_get buffer pos) 0x80) 0) as [Hc|Hc].
    + cbn [vr_result vr_reads length].
      split; [unfold indices; cbn [seq map]; f_equal; lia|].
      split; [lia|]. split; [lia|]. split.
      * split; [discriminate|]. intros F. inversion F; subst.
        unfold continues in *. contradiction.
      * intros v next [= <- <-].
        split; [lia|]. split; [lia|]. unfold js_add. f_equal. f_equal.
        destruct (buf_get buffer pos) as [b|] eqn:G.
        -- rewrite (buf_range_cons _ _ _ _ G) by lia.
           rewrite buf_range_nil by lia. cbn [le128]. subst g. cbn [js_band]. ring.
        -- apply buf_get_None in G. destruct G as [G|G]; [|lia].
           unfold buf_range.
           destruct (Z.leb_spec (Z.min (buf_length buffer) (pos + 1)) (Z.max 0 pos)); [|lia].
           subst g; cbn [js_band le128]. ring.
    + cbn [vr_result vr_reads].
      destruct (buf_get buffer pos) as [b|] eqn:G; [|cbn in Hc; lia].
      destruct (Nat.eq_dec k 7) as [->|Hk6].
      * rewrite loop_stops by lia. cbn [vr_result vr_reads length].
        split; [unfold indices; cbn [seq map]; f_equal; lia|].
        split; [lia|]. split; [lia|]. split.
        -- split; [|reflexivity]. intros _.
           constructor; [unfold continues; rewrite G; exact Hc|constructor].
        -- intros; discriminate.
      * set (value' := js_add value (g * 2 ^ shift)).
        assert (Hv' : value' = value + g * 2 ^ shift).
        { unfold value', js_add. apply round53_small.
          assert (2 ^ (shift + 7) <= 2 ^ 49) by (apply Z.pow_le_mono_r; lia).
          assert (2 ^ 49 < 2 ^ 53) by (apply Z.pow_lt_mono_r; lia).
          nia. }
        assert (Hval' : 0 <= value' < 2 ^ (shift + 7)) by nia.
        specialize (IH buffer limit value' (shift + 7) (pos + 1) (S k) Hlim
                       ltac:(lia) ltac:(lia) ltac:(lia) Hval').
        cbv zeta in IH. destruct IH as (R & N & B & Z0 & S0).
        set (run := readVarint_loop fuel buffer limit value' (shift + 7) (pos + 1)) in *.
        cbn [length]. rewrite indices_succ, <- R.
        split; [reflexivity|]. split; [lia|]. split; [lia|]. split.
        -- split.
           ++ intros E. constructor; [unfold continues; rewrite G; exact Hc|]. apply Z0, E.
           ++ intros F. inversion F; subst. apply Z0. assumption.
        -- intros v next H. destruct (S0 _ _ H) as (Hn & -> & ->).
           split; [lia|]. split; [lia|].
           f_equal. rewrite (buf_range_cons _ _ _ _ G) by lia. cbn [le128].
           rewrite Hv', Hpow. subst g. cbn [js_band].
           replace (pos + Z.of_nat (S (length (vr_reads run))))
             with (pos + 1 + Z.of_nat (length (vr_reads run))) by lia.
           ring.
Qed.

(** Nine rounds are enough: more fuel never changes a run. *)
Lemma loop_fuel_irrelevant f1 : forall f2 buffer limit value shift pos (k : nat),
  shift = 7 * Z.of_nat k -> (9 - k <= f1)%nat -> (9 - k <= f2)%nat ->
  readVarint_loop f1 buffer limit value shift pos =
  readVarint_loop f2 buffer limit value shift pos.
Proof.
  induction f1 as [|f1 IH]; intros f2 buffer limit value shift pos k Hs H1 H2.
  - rewrite !loop_stops by lia. reflexivity.
  - destruct f2 as [|f2]; [rewrite !loop_stops by lia; reflexivity|].
    cbn [readVarint_loop].
    destruct ((pos <? limit) && (shift <=? 53)); [|reflexivity].
    destruct (js_band (buf_get buffer pos) 128 =? 0); [reflexivity|].
    rewrite (IH f2 _ _ _ (shift + 7) _ (S k)) by lia. reflexivity.
Qed.

Lemma readVarint_fuel_enough fuel buffer offset limit :
  (varint_fuel <= fuel)%nat ->
  readVarint_loop fuel buffer limit 0 0 offset = readVarint_run buffer offset limit.
Proof.
  intros H. unfold readVarint_run, varint_fuel in *.
  apply (loop_fuel_irrelevant _ _ _ _ _ _ _ 0%nat); lia.
Qed.

(** The value of a result, in full: the base-128 little-endian number
    of the bytes consumed, rounded to a double. *)
Lemma readVarint_value buffer offset limit v next :
  limit <= buf_length buffer ->
  readVarint buffer offset limit = Some (v, next) ->
  v = round53 (le128 (buf_range buffer offset next)).
Proof.
  intros Hlim E. unfold readVarint, readVarint_run, varint_fuel in E.
  pose proof (loop_spec 9 buffer limit 0 0 offset 0%nat Hlim
                ltac:(lia) ltac:(lia) ltac:(lia) ltac:(cbn; lia)) as H.
  cbv zeta in H. destruct H as (_ & _ & _ & _ & S0).
  destruct (S0 _ _ E) as (_ & _ & ->). f_equal. change (2 ^ 0) with 1. ring.
Qed.

(** C9, as amended.  For every buffer, start offset and limit with
    [limit <= buffer.length], [readVarint] reads only indices in
    [offset, min(limit, buffer.length)), at most eight of them, and returns
    null exactly when every byte it read has the continuation bit set;
    when it returns a result, [offset < next <= limit], the bytes read are
    those at [offset .. next - 1], and the value is the base-128
    little-endian number of these bytes whenever that number is below
    2^53. *)
Theorem readVarint_within_limit (buffer : Buffer) (offset limit : Z) :
  limit <= buf_length buffer ->
  readVarint_contract buffer offset limit.
Proof.
  intros Hlim. unfold readVarint_contract.
  pose proof (readVarint_value buffer offset limit) as Hvalue.
  unfold readVarint in Hvalue. unfold readVarint_run, varint_fuel in *.
  pose proof (loop_spec 9 buffer limit 0 0 offset 0%nat Hlim
                ltac:(lia) ltac:(lia) ltac:(lia) ltac:(cbn; lia)) as H.
  cbv zeta in *. destruct H as (R & N & B & Z0 & S0).
  set (run := readVarint_loop 9 buffer limit 0 0 offset) in *.
  split; [|split; [lia|split; [exact Z0|]]].
  - rewrite R. unfold indices. apply Forall_forall. intros i Hi.
    apply in_map_iff in Hi. destruct Hi as (j & <- & Hj). apply in_seq in Hj. lia.
  - intros v next E. pose proof (Hvalue v next Hlim E) as Hv.
    destruct (S0 _ _ E) as (Hn & Hnext & _). subst next.
    replace (Z.to_nat (offset + Z.of_nat (length (vr_reads run)) - offset))
      with (length (vr_reads run)) by lia.
    split; [lia|]. split; [exact R|].
    intros Hsmall. rewrite Hv. apply round53_small.
    split; [|exact Hsmall]. pose proof (le128_nonneg (buf_range buffer offset
      (offset + Z.of_nat (length (vr_reads run))))). lia.
Qed.

Lemma readVarint_within_limit_witness : readVarint_contract [0x96; 0x01; 0x12] 0 3.
Proof. apply (readVarint_within_limit [0x96; 0x01; 0x12] 0 3). vm_compute. discriminate. Defined.

(** C9, as stated, fails on the code.  With a limit beyond the end of the
    buffer the loop reads [buffer[pos]] past the end, gets [undefined],
    whose continuation bit is clear, and returns a result instead of null.
    And eight bytes carry 56 payload bits, more than a double holds: the
    value of FF FF FF FF FF FF FF 7F comes out as 2^56, not 2^56 - 1. *)
Lemma readVarint_unconditional_fails :
  ~ readVarint_unconditional [] 0 1
  /\ readVarint [] 0 1 = Some (0, 1)
  /\ ~ readVarint_unconditional [0xff; 0xff; 0xff; 0xff; 0xff; 0xff; 0xff; 0x7f] 0 8
  /\ readVarint [0xff; 0xff; 0xff; 0xff; 0xff; 0xff; 0xff; 0x7f] 0 8 = Some (2 ^ 56, 8).
Proof.
  split; [|split; [reflexivity|split; [|reflexivity]]].
  - intros (F & _). vm_compute in F. inversion F; subst. discriminate.
  - intros (_ & _ & _ & V).
    specialize (V (2 ^ 56) 8 eq_refl). destruct V as (_ & V).
    vm_compute in V. discriminate.
Qed.

Lemma readVarint_default_next buffer offset v next :
  readVarint_default buffer offset = Some (v, next) ->
  offset < next <= buf_length buffer.
Proof.
  unfold readVarint_default, readVarint, readVarint_run, varint_fuel. intros E.
  pose proof (loop_spec 9 buffer (buf_length buffer) 0 0 offset 0%nat ltac:(lia)
                ltac:(lia) ltac:(lia) ltac:(lia) ltac:(cbn; lia)) as H.
  cbv zeta in H. destruct H as (_ & _ & B & _ & S0).
  destruct (S0 _ _ E) as (Hn & -> & _). lia.
Qed.

Lemma find_append {A} (f : A -> bool) (l1 l2 : list A) :
  find f (l1 ++ l2) = match find f l1 with Some x => Some x | None => find f l2 end.
Proof.
  induction l1 as [|x l1 IH]; cbn; [reflexivity|].
  destruct (f x); [reflexivity|exact IH].
Qed.

(** ** Strings and maps *)

Lemma str_eqb_eq a : forall b, str_eqb a b = true <-> a = b.
Proof.
  induction a as [|x a IH]; intros [|y b]; cbn; split; try congruence; try discriminate.
  - intros H. apply andb_true_iff in H. destruct H as (H1 & H2).
    apply Z.eqb_eq in H1. apply IH in H2. congruence.
  - intros [= -> ->]. rewrite Z.eqb_refl. apply IH. reflexivity.
Qed.

Lemma str_eqb_refl a : str_eqb a a = true.
Proof. apply str_eqb_eq. reflexivity. Qed.

Lemma str_eqb_spec a b : reflect (a = b) (str_eqb a b).
Proof. apply iff_reflect. symmetry. apply str_eqb_eq. Qed.

Lemma map_get_set m k v k' :
  map_get (map_set m k v) k' = if str_eqb k k' then Some v else map_get m k'.
Proof.
  induction m as [|(k0, v0) m IH]; cbn.
  - destruct (str_eqb k k'); reflexivity.
  - destruct (str_eqb_spec k0 k) as [->|Hne]; cbn.
    + destruct (str_eqb k k'); reflexivity.
    + rewrite IH. destruct (str_eqb_spec k0 k') as [->|Hne'].
      * destruct (str_eqb_spec k k'); [congruence|reflexivity].
      * reflexivity.
Qed.

(** [if (!map.has(k)) map.set(k, v)] never changes what a key maps to. *)
Lemma guarded_set_get m k v key :
  map_get (if negb (map_has m k) then map_set m k v else m) key =
  match map_get m key with
  | Some x => Some x
  | None => if str_eqb k key then Some v else None
  end.
Proof.
  unfold map_has. destruct (map_get m k) eqn:E; cbn [negb].
  - destruct (map_get m key) eqn:Ek; [reflexivity|].
    destruct (str_eqb_spec k key); [congruence|reflexivity].
  - rewrite map_get_set.
    destruct (str_eqb_spec k key) as [->|]; [rewrite E; reflexivity|].
    destruct (map_get m key); reflexivity.
Qed.

(** ** The scan of parseGroupNicknamesFromExtBuffer *)

Section Scan.

Variable toLowerCase : jsstring -> jsstring.

(** What the two guarded insertions do to a lookup. *)
Lemma record_nickname_get m id nick key :
  map_get (record_nickname toLowerCase m id nick) key =
  match map_get m key with
  | Some v => Some v
  | None =>
    if str_eqb id key || str_eqb (toLowerCase id) key then Some nick else None
  end.
Proof.
  unfold record_nickname. rewrite !guarded_set_get.
  destruct (map_get m key); [reflexivity|].
  destruct (str_eqb id key), (str_eqb (toLowerCase id) key); reflexivity.
Qed.

Lemma scan_loop_step fuel buffer candidateSet i m :
  scan_loop toLowerCase (S fuel) buffer candidateSet i m =
  if i <? buf_length buffer - 2 then
    scan_loop toLowerCase fuel buffer candidateSet
      (last_i (scan_at toLowerCase buffer candidateSet i) + 1)
      match accepted (scan_at toLowerCase buffer candidateSet i) with
      | Some (memberId, nickname) => record_nickname toLowerCase m memberId nickname
      | None => m
      end
  else m.
Proof. reflexivity. Qed.

(** A round never moves [i] backwards. *)
Lemma scan_at_advances buffer candidateSet i :
  i <= last_i (scan_at toLowerCase buffer candidateSet i).
Proof.
  unfold scan_at.
  repeat match goal with
         | |- context [match ?x with _ => _ end] =>
           match type of x with
           | option _ => destruct x as [?|] eqn:?
           | prod _ _ => destruct x as [? ?]
           | bool => destruct x eqn:?
           | Z => destruct x
           | positive => destruct x
           end
         end; cbn [last_i]; try lia;
  repeat match goal with
         | H : readVarint_default _ _ = Some _ |- _ =>
           apply readVarint_default_next in H
         | H : (_ || _) = false |- _ => apply orb_false_iff in H; destruct H
         | H : (_ <=? _) = false |- _ => apply Z.leb_gt in H
         end; lia.
Qed.

(** Enough fuel: once it covers the bytes left, more changes nothing. *)
Lemma scan_loop_fuel f1 : forall f2 buffer candidateSet i m,
  (Z.to_nat (buf_length buffer - 2 - i) <= f1)%nat ->
  (Z.to_nat (buf_length buffer - 2 - i) <= f2)%nat ->
  scan_loop toLowerCase f1 buffer candidateSet i m =
  scan_loop toLowerCase f2 buffer candidateSet i m.
Proof.
  induction f1 as [|f1 IH]; intros f2 buffer cset i m H1 H2.
  - destruct f2; cbn [scan_loop]; [reflexivity|].
    destruct (Z.ltb_spec i (buf_length buffer - 2)); [lia|reflexivity].
  - destruct f2; cbn [scan_loop];
      destruct (Z.ltb_spec i (buf_length buffer - 2)); try reflexivity; try lia.
    pose proof (scan_at_advances buffer cset i).
    apply IH; lia.
Qed.

Lemma scan_records_fuel f1 : forall f2 buffer candidateSet i,
  (Z.to_nat (buf_length buffer - 2 - i) <= f1)%nat ->
  (Z.to_nat (buf_length buffer - 2 - i) <= f2)%nat ->
  scan_records toLowerCase f1 buffer candidateSet i =
  scan_records toLowerCase f2 buffer candidateSet i.
Proof.
  induction f1 as [|f1 IH]; intros f2 buffer cset i H1 H2.
  - destruct f2; cbn [scan_records]; [reflexivity|].
    destruct (Z.ltb_spec i (buf_length buffer - 2)); [lia|reflexivity].
  - destruct f2; cbn [scan_records];
      destruct (Z.ltb_spec i (buf_length buffer - 2)); try reflexivity; try lia.
    pose proof (scan_at_advances buffer cset i).
    rewrite (IH f2) by lia. reflexivity.
Qed.

(** The fuel of [parseGroupNicknamesFromExtBuffer] is enough. *)
Lemma parse_fuel_enough buffer candidates fuel :
  (length buffer <= fuel)%nat ->
  buffer <> [] ->
  parseGroupNicknamesFromExtBuffer toLowerCase buffer candidates =
  scan_loop toLowerCase fuel buffer
    (set_of_list (map toLowerCase (buildIdCandidates toLowerCase (map Some candidates))))
    0 [].
Proof.
  intros Hf Hne. unfold parseGroupNicknamesFromExtBuffer.
  destruct (Z.eqb_spec (buf_length buffer) 0) as [E|_].
  - destruct buffer; [congruence|]. unfold buf_length in E. cbn in E. lia.
  - apply scan_loop_fuel; unfold buf_length; lia.
Qed.

(** An entry survives every later round of the scan. *)
Lemma scan_loop_keeps fuel : forall buffer candidateSet i m key v,
  map_get m key = Some v ->
  map_get (scan_loop toLowerCase fuel buffer candidateSet i m) key = Some v.
Proof.
  induction fuel as [|fuel IH]; intros buffer cset i m key v H; cbn [scan_loop].
  - exact H.
  - destruct (i <? buf_length buffer - 2); [|exact H].
    apply IH. destruct (accepted (scan_at toLowerCase buffer cset i)) as [(id, nick)|];
      [|exact H].
    rewrite record_nickname_get, H. reflexivity.
Qed.

(** The table the scan builds, read through the records it accepted. *)
Lemma scan_loop_get fuel : forall buffer candidateSet i m key,
  map_get (scan_loop toLowerCase fuel buffer candidateSet i m) key =
  match map_get m key with
  | Some v => Some v
  | None => first_writer toLowerCase (scan_records toLowerCase fuel buffer candidateSet i) key
  end.
Proof.
  induction fuel as [|fuel IH]; intros buffer cset i m key;
    cbn [scan_loop scan_records].
  - destruct (map_get m key); reflexivity.
  - destruct (i <? buf_length buffer - 2);
      [|destruct (map_get m key); reflexivity].
    rewrite IH.
    destruct (accepted (scan_at toLowerCase buffer cset i)) as [(id, nick)|];
      [|reflexivity].
    rewrite record_nickname_get. unfold first_writer. cbn [find fst snd].
    destruct (map_get m key); [reflexivity|].
    destruct (str_eqb id key || str_eqb (toLowerCase id) key); reflexivity.
Qed.

(** C10.  First write wins.  For every blob and candidate set, the table
    returned by [parseGroupNicknamesFromExtBuffer] maps a key to the
    nickname of the earliest accepted record whose identifier is that key,
    as it stands or after lowercasing, whatever records with the same
    identifier follow; and throughout the scan an entry, once in the
    table, keeps its value. *)
Theorem parse_first_record_wins (buffer : Buffer) (candidates : list jsstring) :
  (forall key,
      map_get (parseGroupNicknamesFromExtBuffer toLowerCase buffer candidates) key =
      first_writer toLowerCase (accepted_records toLowerCase buffer candidates) key)
  /\ (forall earlier id1 nick1 later,
         accepted_records toLowerCase buffer candidates = earlier ++ (id1, nick1) :: later ->
         first_writer toLowerCase earlier id1 = None ->
         first_writer toLowerCase earlier (toLowerCase id1) = None ->
         map_get (parseGroupNicknamesFromExtBuffer toLowerCase buffer candidates) id1
           = Some nick1
         /\ map_get (parseGroupNicknamesFromExtBuffer toLowerCase buffer candidates)
              (toLowerCase id1) = Some nick1)
  /\ (forall fuel candidateSet i m key v,
         map_get m key = Some v ->
         map_get (scan_loop toLowerCase fuel buffer candidateSet i m) key = Some v).
Proof.
  assert (Hget : forall key,
      map_get (parseGroupNicknamesFromExtBuffer toLowerCase buffer candidates) key =
      first_writer toLowerCase (accepted_records toLowerCase buffer candidates) key).
  { intros key. unfold parseGroupNicknamesFromExtBuffer, accepted_records.
    destruct (buf_length buffer =? 0); [reflexivity|].
    rewrite scan_loop_get. reflexivity. }
  split; [exact Hget|]. split.
  - intros earlier id1 nick1 later E N1 N2. rewrite !Hget, E.
    unfold first_writer in *. rewrite !find_append.
    destruct (find _ earlier) eqn:F1; [discriminate|].
    destruct (find (fun r => str_eqb (fst r) (toLowerCase id1)
                             || str_eqb (toLowerCase (fst r)) (toLowerCase id1)) earlier)
      eqn:F2; [discriminate|].
    cbn [find fst snd]. rewrite !str_eqb_refl, ?orb_true_r. cbn [orb]. split; reflexivity.
  - intros. apply scan_loop_keeps. assumption.
Qed.

End Scan.

(** C6.  On the blob 0A 09 "wxid_abcd" 12 06 "Alice1" with the candidate
    set {"wxid_abcd"} the parser returns a table in which the raw-case key
    "wxid_abcd" and its lowercase form both map to "Alice1"; the two keys
    are one string, so the table has this one entry.  It holds on every
    host whose [toLowerCase] leaves the lowercase string "wxid_abcd" as it
    is. *)
Theorem parse_sample_blob (toLowerCase : jsstring -> jsstring) :
  toLowerCase (str "wxid_abcd") = str "wxid_abcd" ->
  let table := parseGroupNicknamesFromExtBuffer toLowerCase sample_blob [str "wxid_abcd"] in
  table = [(str "wxid_abcd", str "Alice1")]
  /\ map_get table (str "wxid_abcd") = Some (str "Alice1")
  /\ map_get table (toLowerCase (str "wxid_abcd")) = Some (str "Alice1").
Proof.
  intros H. cbv zeta.
  assert (E : parseGroupNicknamesFromExtBuffer toLowerCase sample_blob [str "wxid_abcd"]
              = [(str "wxid_abcd", str "Alice1")]).
  { assert (Hclean : cleanAccountDirName toLowerCase (str "wxid_abcd") = str "wxid_abcd").
    { unfold cleanAccountDirName. cbv zeta.
      change (trim (str "wxid_abcd")) with (str "wxid_abcd").
      rewrite H. reflexivity. }
    assert (Hset : set_of_list (map toLowerCase
                     (buildIdCandidates toLowerCase (map Some [str "wxid_abcd"])))
                   = [str "wxid_abcd"]).
    { assert (Hcands : buildIdCandidates toLowerCase (map Some [str "wxid_abcd"])
                       = [str "wxid_abcd"]).
      { unfold buildIdCandidates, map, buildIdCandidates_loop. cbv zeta.
        change (trim (str "wxid_abcd")) with (str "wxid_abcd").
        rewrite Hclean. reflexivity. }
      rewrite Hcands. unfold map. rewrite H. reflexivity. }
    assert (Hstep : scan_at toLowerCase sample_blob [str "wxid_abcd"] 0
                    = mkScanStep (Some (str "wxid_abcd", str "Alice1")) 18).
    { vm_compute in H. vm_compute. rewrite H. reflexivity. }
    assert (Hrec : record_nickname toLowerCase [] (str "wxid_abcd") (str "Alice1")
                   = [(str "wxid_abcd", str "Alice1")]).
    { unfold record_nickname. rewrite H. reflexivity. }
    unfold parseGroupNicknamesFromExtBuffer. rewrite Hset.
    change (buf_length sample_blob =? 0) with false. cbv iota.
    change (length sample_blob) with 19%nat.
    rewrite scan_loop_step, Hstep. cbn [accepted last_i]. rewrite Hrec.
    rewrite scan_loop_step. reflexivity. }
  rewrite E, H. repeat split; reflexivity.
Qed.

Lemma parse_sample_blob_witness :
  let table := parseGroupNicknamesFromExtBuffer asciiLower sample_blob [str "wxid_abcd"] in
  table = [(str "wxid_abcd", str "Alice1")]
  /\ map_get table (str "wxid_abcd") = Some (str "Alice1")
  /\ map_get table (asciiLower (str "wxid_abcd")) = Some (str "Alice1").
Proof. apply (parse_sample_blob asciiLower). reflexivity. Defined.

(** ** resolveGroupNicknameByCandidates *)

Section Resolve.

Variable toLowerCase : jsstring -> jsstring.

(** After one match, any further match ends the function. *)
Lemma scan_entries_after_one lower entries found :
  scan_entries toLowerCase lower entries found 1 =
  match filter (carries toLowerCase lower) entries with
  | [] => Scanned found 1
  | _ :: _ => Ambiguous
  end.
Proof.
  induction entries as [|(key, value) rest IH]; cbn [scan_entries filter]; [reflexivity|].
  unfold carries at 1. cbn [fst snd].
  destruct (str_eqb (toLowerCase key) lower); cbn [negb andb]; [|exact IH].
  destruct (truthy (normalizeGroupNickname value)); cbn [negb]; [reflexivity|exact IH].
Qed.

Lemma scan_entries_from_start lower entries found :
  scan_entries toLowerCase lower entries found 0 =
  match filter (carries toLowerCase lower) entries with
  | [] => Scanned found 0
  | [e] => Scanned (normalizeGroupNickname (snd e)) 1
  | _ :: _ :: _ => Ambiguous
  end.
Proof.
  revert found.
  induction entries as [|(key, value) rest IH]; intros found;
    cbn [scan_entries filter]; [reflexivity|].
  unfold carries at 1. cbn [fst snd].
  destruct (str_eqb (toLowerCase key) lower); cbn [negb andb]; [|apply IH].
  destruct (truthy (normalizeGroupNickname value)); cbn [negb]; [|apply IH].
  change (0 + 1 >? 1) with false. cbv iota. change (0 + 1) with 1.
  rewrite scan_entries_after_one. destruct (filter (carries toLowerCase lower) rest); reflexivity.
Qed.

Lemma scan_entries_matches table id :
  scan_entries toLowerCase (toLowerCase id) table [] 0 =
  match nickname_matches toLowerCase table id with
  | [] => Scanned [] 0
  | [e] => Scanned (normalizeGroupNickname (snd e)) 1
  | _ :: _ :: _ => Ambiguous
  end.
Proof. apply scan_entries_from_start. Qed.

Lemma nickname_matches_truthy table id e rest :
  nickname_matches toLowerCase table id = e :: rest ->
  truthy (normalizeGroupNickname (snd e)) = true.
Proof.
  intros E.
  assert (In e (nickname_matches toLowerCase table id)) as Hin
      by (rewrite E; left; reflexivity).
  apply filter_In in Hin. destruct Hin as (_ & Hc).
  apply andb_true_iff in Hc. tauto.
Qed.

(** The second loop is decided at the first candidate with a match. *)
Lemma fallback_lookup_decided table ids :
  fallback_lookup toLowerCase table ids = fallback_result toLowerCase table ids.
Proof.
  unfold fallback_result, deciding_candidate.
  induction ids as [|id rest IH]; cbn [fallback_lookup find]; [reflexivity|].
  rewrite scan_entries_matches.
  destruct (nickname_matches toLowerCase table id) as [|e [|e' more]] eqn:F.
  - cbn [Z.eqb andb]. exact IH.
  - rewrite F, (nickname_matches_truthy _ _ _ _ F). reflexivity.
  - rewrite F. reflexivity.
Qed.

(** C5, as amended.  When no candidate has an exact-case entry with a
    non-empty normalized nickname, the result is that of the
    case-insensitive fallback, which counts only the entries that carry a
    nickname (non-empty after normalization) and is decided at the first
    candidate, in order, that such an entry matches: exactly one match
    there gives its nickname, more than one is ambiguous and gives the
    empty string, and so does the absence of any match.  In particular a
    nickname is returned only if exactly one nickname-carrying entry
    matches some candidate up to case. *)
Theorem resolve_fallback_decided (table : JsMap) (candidates : list jsstring) :
  let ids := buildIdCandidates toLowerCase (map Some candidates) in
  let result := resolveGroupNicknameByCandidates toLowerCase table candidates in
  exact_lookup table ids = None ->
  result = fallback_result toLowerCase table ids
  /\ (result <> [] ->
      exists id e, In id ids /\ nickname_matches toLowerCase table id = [e]
                   /\ result = normalizeGroupNickname (snd e))
  /\ (forall id, deciding_candidate toLowerCase table ids = Some id ->
                 (2 <= length (nickname_matches toLowerCase table id))%nat ->
                 result = []).
Proof.
  cbv zeta. intros Hexact.
  assert (E : resolveGroupNicknameByCandidates toLowerCase table candidates
              = fallback_result toLowerCase table
                  (buildIdCandidates toLowerCase (map Some candidates))).
  { unfold resolveGroupNicknameByCandidates. rewrite Hexact.
    rewrite fallback_lookup_decided.
    destruct (buildIdCandidates toLowerCase (map Some candidates)); reflexivity. }
  split; [exact E|]. rewrite E. unfold fallback_result. split.
  - destruct (deciding_candidate _ _ _) as [id|] eqn:D; [|congruence].
    apply find_some in D. destruct D as (Hin & _).
    destruct (nickname_matches toLowerCase table id) as [|e [|e' more]] eqn:M;
      try congruence.
    intros _. exists id, e. auto.
  - intros id -> Hlen.
    destruct (nickname_matches toLowerCase table id) as [|e [|e' more]];
      cbn [length] in Hlen; try reflexivity; lia.
Qed.

End Resolve.

Lemma resolve_fallback_decided_witness :
  let table := [(str "ABC", str "Bob"); (str "Xy", str "Al")] in
  let ids := buildIdCandidates asciiLower (map Some [str "abc"; str "xy"]) in
  let result := resolveGroupNicknameByCandidates asciiLower table [str "abc"; str "xy"] in
  result = fallback_result asciiLower table ids
  /\ (result <> [] ->
      exists id e, In id ids /\ nickname_matches asciiLower table id = [e]
                   /\ result = normalizeGroupNickname (snd e))
  /\ (forall id, deciding_candidate asciiLower table ids = Some id ->
                 (2 <= length (nickname_matches asciiLower table id))%nat ->
                 result = []).
Proof.
  apply (resolve_fallback_decided asciiLower
           [(str "ABC", str "Bob"); (str "Xy", str "Al")] [str "abc"; str "xy"]).
  reflexivity.
Defined.

(** C5, as stated, fails on the code.  An entry whose value normalizes to
    the empty string is skipped before it is counted, so two keys that
    collide under lowercase need not make the lookup ambiguous; and the
    candidates are tried in order, so a later candidate matched by
    conflicting entries does not undo the single match of an earlier
    one. *)
Lemma fallback_by_key_matches_fails :
  (map_wf [(str "Abc", str "@"); (str "ABC", str "Bob")]
   /\ resolveGroupNicknameByCandidates asciiLower
        [(str "Abc", str "@"); (str "ABC", str "Bob")] [str "abc"] = str "Bob"
   /\ ~ fallback_by_key_matches asciiLower
          [(str "Abc", str "@"); (str "ABC", str "Bob")] [str "abc"])
  /\ (map_wf [(str "ABC", str "Bob"); (str "Xy", str "Al"); (str "XY", str "Bo")]
      /\ resolveGroupNicknameByCandidates asciiLower
           [(str "ABC", str "Bob"); (str "Xy", str "Al"); (str "XY", str "Bo")]
           [str "abc"; str "xy"] = str "Bob"
      /\ ~ fallback_by_key_matches asciiLower
             [(str "ABC", str "Bob"); (str "Xy", str "Al"); (str "XY", str "Bo")]
             [str "abc"; str "xy"]).
Proof.
  split; (split; [|split; [reflexivity|]]).
  - repeat constructor; cbn; intuition discriminate.
  - intros C. destruct (C eq_refl) as (_ & C2).
    assert (resolveGroupNicknameByCandidates asciiLower
              [(str "Abc", str "@"); (str "ABC", str "Bob")] [str "abc"] = []) as R.
    { apply C2. exists (str "abc"). split; [left; reflexivity|]. vm_compute. lia. }
    vm_compute in R. discriminate.
  - repeat constructor; cbn; intuition discriminate.
  - intros C. destruct (C eq_refl) as (_ & C2).
    assert (resolveGroupNicknameByCandidates asciiLower
              [(str "ABC", str "Bob"); (str "Xy", str "Al"); (str "XY", str "Bo")]
              [str "abc"; str "xy"] = []) as R.
    { apply C2. exists (str "xy"). split; [right; left; reflexivity|]. vm_compute. lia. }
    vm_compute in R. discriminate.
Qed.

(** ** getKeystream *)

Module KeystreamFacts.
Import Keystream.

Lemma last_app_cons {A} (l1 : list A) x l2 d :
  last (l1 ++ x :: l2) d = last (x :: l2) d.
Proof.
  induction l1 as [|y l1 IH]; [reflexivity|].
  cbn [app]. rewrite <- IH. cbn [last].
  destruct (l1 ++ x :: l2) eqn:E; [destruct l1; discriminate|reflexivity].
Qed.

Lemma extends_by_trans a1 a2 s1 s2 s3 :
  extends_by a1 s1 s2 -> extends_by a2 s2 s3 -> extends_by (a1 ++ a2) s1 s3.
Proof.
  intros (L1 & C1) (L2 & C2). split.
  - rewrite L2, L1, app_assoc. reflexivity.
  - rewrite C2. destruct a2 as [|x a2].
    + rewrite app_nil_r. exact C1.
    + rewrite last_app_cons.
      destruct (a1 ++ x :: a2) eqn:E; [destruct a1; discriminate|reflexivity].
Qed.

Lemma run_callbacks_extends cbs : forall s,
  exists added, extends_by added s (snd (run_callbacks cbs s))
                /\ (cbs = [] -> added = []).
Proof.
  induction cbs as [|cb rest IH]; intros s; cbn [run_callbacks].
  - exists []. repeat split. cbn. rewrite app_nil_r. reflexivity.
  - unfold bind, wasm_isaac_generate.
    destruct ((0 <=? ptr cb) && (0 <=? size cb) && (ptr cb + size cb <=? buf_length (heap cb))).
    + set (copy := buf_range (heap cb) (ptr cb) (ptr cb + size cb)).
      set (s1 := mkService (module s) (Some copy) (captured_log s ++ [copy])).
      destruct (IH s1) as (added & Hext & _).
      exists ([copy] ++ added). split; [|discriminate].
      apply (extends_by_trans [copy] added s s1); [|exact Hext].
      split; reflexivity.
    + exists []. split; [|discriminate]. cbn. split; [rewrite app_nil_r|]; reflexivity.
Qed.

Lemma foreign_extends call s :
  exists added, extends_by added s (snd (foreign call s))
                /\ (callbacks call = [] -> added = []).
Proof.
  unfold foreign, bind.
  destruct (run_callbacks_extends (callbacks call) s) as (added & Hext & Hnil).
  exists added. split; [|exact Hnil].
  destruct (run_callbacks (callbacks call) s) as [[[]|e] s1]; cbn [snd] in *.
  - destruct (throws call); exact Hext.
  - exact Hext.
Qed.

Lemma foreign_quiet call s :
  callbacks call = [] -> throws call = false -> foreign call s = (Ok tt, s).
Proof. unfold foreign. intros -> ->. reflexivity. Qed.

Lemma getKeystream_unfold key size s :
  getKeystream true key size s =
  match module s with
  | None => (Throw ModuleIsNull, s)
  | Some m =>
    match entry_point m with
    | None => (Throw EntryPointNotFound, s)
    | Some c =>
      generate_block c key size
        (mkService (Some (mkWasmModule (Some c) (asm m))) (capturedKeystream s) (captured_log s))
    end
  end.
Proof.
  unfold getKeystream, resolve_entry_point, generate_block, bind, get_module, set_module, ret, throw.
  cbn [negb]. destruct (module s) as [m|]; [|reflexivity].
  destruct (entry_point m); reflexivity.
Qed.

(** What a completed [try] block returns. *)
Lemma generate_block_ok ctor key size s out s' :
  generate_block ctor key size s = (Ok out, s') ->
  exists earlier captured,
    captured_log s' = captured_log s ++ earlier ++ [captured]
    /\ capturedKeystream s' = Some captured
    /\ out = rev captured.
Proof.
  unfold generate_block. unfold bind at 1. unfold reset_captured at 1.
  set (s0 := mkService (module s) None (captured_log s)).
  unfold bind at 1.
  destruct (foreign_extends (ctor_call (ctor key)) s0) as (a1 & E1 & _).
  destruct (foreign (ctor_call (ctor key)) s0) as [[[]|e] s1]; [|discriminate].
  unfold bind at 1.
  destruct (foreign_extends (generate (instance (ctor key)) size) s1) as (a2 & E2 & _).
  destruct (foreign (generate (instance (ctor key)) size) s1) as [[[]|e] s2]; [|discriminate].
  cbn [snd] in *.
  assert (exists a3 s3,
             (match delete (instance (ctor key)) with
              | Some d => foreign d
              | None => ret tt
              end) s2 = (fst ((match delete (instance (ctor key)) with
              | Some d => foreign d
              | None => ret tt
              end) s2), s3) /\ extends_by a3 s2 s3) as (a3 & s3 & Eq3 & E3).
  { destruct (delete (instance (ctor key))) as [d|].
    - destruct (foreign_extends d s2) as (a3 & E3 & _).
      exists a3, (snd (foreign d s2)). split; [destruct (foreign d s2); reflexivity|exact E3].
    - exists [], s2. split; [reflexivity|]. split; [rewrite app_nil_r|]; reflexivity. }
  unfold bind at 1. rewrite Eq3.
  destruct (fst _) as [[]|e]; [|discriminate].
  unfold bind, get_captured.
  pose proof (extends_by_trans _ _ _ _ _ (extends_by_trans _ _ _ _ _ E1 E2) E3) as (L & C).
  cbn [captured_log capturedKeystream s0] in L, C.
  destruct (capturedKeystream s3) as [keystream|] eqn:K; [|discriminate].
  unfold ret. intros [= <- <-].
  destruct ((a1 ++ a2) ++ a3) as [|x l] eqn:A; [discriminate|].
  assert (x :: l <> []) as Hne by discriminate.
  destruct (exists_last Hne) as (earlier & captured & Hl).
  rewrite Hl, last_last in C. injection C as ->.
  exists earlier, captured. rewrite L, Hl. split; [reflexivity|].
  split; [exact K|reflexivity].
Qed.

Lemma captured_during_app s s' added :
  captured_log s' = captured_log s ++ added -> captured_during s s' = added.
Proof.
  intros E. unfold captured_during. rewrite E, skipn_app, skipn_all, Nat.sub_diag.
  reflexivity.
Qed.

(** A buffer comes back only out of a completed [try] block. *)
Lemma getKeystream_ok init_ok key size s s' out :
  getKeystream init_ok key size s = (Ok out, s') ->
  exists earlier captured,
    captured_during s s' = earlier ++ [captured]
    /\ capturedKeystream s' = Some captured
    /\ out = rev captured.
Proof.
  destruct init_ok; [|discriminate].
  rewrite getKeystream_unfold.
  destruct (module s) as [m|]; [|discriminate].
  destruct (entry_point m) as [c|]; [|discriminate].
  intros H. apply generate_block_ok in H.
  destruct H as (earlier & captured & L & C & ->).
  exists earlier, captured. cbn [captured_log] in L.
  split; [apply captured_during_app; exact L|]. split; [exact C|reflexivity].
Qed.

(** C7.  [getKeystream] fails with an error when the entry point
    [WxIsaac64] is absent from the module after initialization, on
    [Module] and on [Module.asm] (and when there is no module at all); it
    fails with an error when the constructor, [generate] and [delete] run
    to completion without a call to the output callback; and it returns a
    buffer only when the callback captured one during the call. *)
Theorem getKeystream_failures (key : jsstring) (size : Z) (s : Service) :
  (forall m, module s = Some m -> entry_point m = None ->
             fst (getKeystream true key size s) = Throw EntryPointNotFound)
  /\ (module s = None -> fst (getKeystream true key size s) = Throw ModuleIsNull)
  /\ (forall m c, module s = Some m -> entry_point m = Some c ->
                  Forall (fun call => callbacks call = [] /\ throws call = false)
                         (calls_of c key size) ->
                  fst (getKeystream true key size s) = Throw CallbackNotCalled)
  /\ (forall init_ok out s',
         getKeystream init_ok key size s = (Ok out, s') ->
         captured_during s s' <> []).
Proof.
  split; [|split; [|split]].
  - intros m Hm He. rewrite getKeystream_unfold, Hm, He. reflexivity.
  - intros Hm. rewrite getKeystream_unfold, Hm. reflexivity.
  - intros m c Hm He Hq. rewrite getKeystream_unfold, Hm, He.
    unfold calls_of in Hq. apply Forall_app in Hq. destruct Hq as (Hq & Hd).
    inversion Hq as [|? ? (C1 & T1) Hq']; subst.
    inversion Hq' as [|? ? (C2 & T2) _]; subst.
    unfold generate_block, bind, reset_captured.
    rewrite (foreign_quiet _ _ C1 T1), (foreign_quiet _ _ C2 T2).
    destruct (delete (instance (c key))) as [d|].
    + inversion Hd as [|? ? (C3 & T3) _]; subst.
      rewrite (foreign_quiet _ _ C3 T3). reflexivity.
    + reflexivity.
  - intros init_ok out s' H. apply getKeystream_ok in H.
    destruct H as (earlier & captured & E & _). rewrite E.
    destruct earlier; discriminate.
Qed.

End KeystreamFacts.

(** ** detectImageExt *)

Example detect_jpeg : detectImageExt [0xff; 0xd8; 0xff; 0xe0; 0x00] = str ".jpg".
Proof. reflexivity. Qed.

Example detect_png : detectImageExt (png_signature ++ [0; 0; 0; 13]) = str ".png".
Proof. reflexivity. Qed.

Example detect_webp :
  detectImageExt (str "RIFF" ++ [0x24; 0; 0; 0] ++ str "WEBP" ++ str "VP8 ") = str ".webp".
Proof. reflexivity. Qed.

Example detect_default : detectImageExt [0x00; 0x01; 0x02] = str ".jpg".
Proof. reflexivity. Qed.

Lemma buf_range_inside b s e :
  0 <= s <= e -> e <= buf_length b ->
  buf_range b s e = firstn (Z.to_nat (e - s)) (skipn (Z.to_nat s) b).
Proof.
  intros Hs He. unfold buf_range.
  replace (Z.max 0 s) with s by lia. replace (Z.min (buf_length b) e) with e by lia.
  destruct (Z.leb_spec e s); [|reflexivity].
  replace (Z.to_nat (e - s)) with 0%nat by lia. reflexivity.
Qed.

Lemma geb_true n k : k <= n -> (n >=? k) = true.
Proof. intros. rewrite Z.geb_leb. apply Z.leb_le. assumption. Qed.

Lemma has_prefix_length b sig : has_prefix b sig -> Z.of_nat (length sig) <= buf_length b.
Proof.
  unfold has_prefix, buf_length. intros H.
  assert (length (firstn (length sig) b) = length sig) as L by (rewrite H; reflexivity).
  rewrite length_firstn in L. lia.
Qed.

(** A range read through [firstn] and [skipn], whatever its end. *)
Lemma buf_range_firstn_skipn b s e :
  0 <= s -> buf_range b s e = firstn (Z.to_nat (e - s)) (skipn (Z.to_nat s) b).
Proof.
  intros Hs. unfold buf_range, buf_length.
  replace (Z.max 0 s) with s by lia.
  destruct (Z.leb_spec (Z.min (Z.of_nat (length b)) e) s) as [H|H].
  - destruct (Z.le_gt_cases e s).
    + replace (Z.to_nat (e - s)) with 0%nat by lia. reflexivity.
    + rewrite skipn_all2 by lia. rewrite firstn_nil. reflexivity.
  - destruct (Z.le_gt_cases e (Z.of_nat (length b))).
    + replace (Z.min (Z.of_nat (length b)) e) with e by lia. reflexivity.
    + replace (Z.min (Z.of_nat (length b)) e) with (Z.of_nat (length b)) by lia.
      rewrite !firstn_all2; try reflexivity; rewrite length_skipn; lia.
Qed.

Lemma has_prefix_split b sig :
  has_prefix b sig -> exists rest, b = sig ++ rest.
Proof.
  unfold has_prefix. intros H. exists (skipn (length sig) b).
  rewrite <- H at 1. symmetry. apply firstn_skipn.
Qed.

Lemma buf_length_cons x b : buf_length (x :: b) = 1 + buf_length b.
Proof. unfold buf_length. cbn [length]. lia. Qed.

(** Settle the length tests that the known prefix decides, split on the
    others. *)
Ltac length_tests :=
  repeat match goal with
         | |- context [?n >=? ?k] =>
           first [ rewrite (geb_true n k) by (rewrite ?buf_length_cons; unfold buf_length; lia)
                 | let E := fresh "E" in destruct (n >=? k) eqn:E ]
         end.

(** The five signatures are recognized, byte for byte. *)
Lemma detectImageExt_signatures (b : Buffer) :
  (is_jpeg b -> detectImageExt b = str ".jpg")
  /\ (is_png b -> detectImageExt b = str ".png")
  /\ (is_gif b -> detectImageExt b = str ".gif")
  /\ (is_webp b -> detectImageExt b = str ".webp")
  /\ (is_bmp b -> detectImageExt b = str ".bmp").
Proof.
  unfold is_jpeg, is_png, is_gif, is_webp, is_bmp, detectImageExt.
  rewrite !buf_range_firstn_skipn by lia.
  change (Z.to_nat (8 - 0)) with 8%nat. change (Z.to_nat (6 - 0)) with 6%nat.
  change (Z.to_nat (4 - 0)) with 4%nat. change (Z.to_nat (12 - 8)) with 4%nat.
  change (Z.to_nat 0) with 0%nat. change (Z.to_nat 8) with 8%nat.
  split; [|split; [|split; [|split]]].
  - intros H. destruct (has_prefix_split _ _ H) as (rest & ->).
    cbn [app]. length_tests; reflexivity.
  - intros H. destruct (has_prefix_split _ _ H) as (rest & ->).
    unfold png_signature. cbn [app]. length_tests; reflexivity.
  - intros [H|H]; destruct (has_prefix_split _ _ H) as (rest & ->);
      cbn [app str map list_ascii_of_string]; length_tests; reflexivity.
  - intros (H & L & W). rewrite W.
    destruct (has_prefix_split _ _ H) as (rest & ->).
    rewrite (geb_true _ 12) by (unfold buf_length; lia).
    cbn [app str map list_ascii_of_string]. length_tests; reflexivity.
  - intros H. destruct (has_prefix_split _ _ H) as (rest & ->).
    cbn [app str map list_ascii_of_string]. length_tests; reflexivity.
Qed.

(** C8.  The buffer C7 49 46 38 39 61 starts with none of the five
    signatures, yet [detectImageExt] answers [.gif] and not [.jpg]: the
    GIF and WEBP tests compare [toString('ascii')], which drops the high
    bit of every byte, so C7 reads as 'G'.  The JPEG, PNG and BMP tests of
    the same function compare the bytes themselves. *)
Theorem detectImageExt_high_bit_gif :
  let buffer := [0xc7; 0x49; 0x46; 0x38; 0x39; 0x61] in
  bytes_ok buffer
  /\ ~ is_jpeg buffer /\ ~ is_png buffer /\ ~ is_gif buffer
  /\ ~ is_webp buffer /\ ~ is_bmp buffer
  /\ detectImageExt buffer = str ".gif"
  /\ ~ sniffs_by_signature buffer.
Proof.
  cbv zeta.
  assert (N : ~ is_jpeg [0xc7; 0x49; 0x46; 0x38; 0x39; 0x61]
              /\ ~ is_png [0xc7; 0x49; 0x46; 0x38; 0x39; 0x61]
              /\ ~ is_gif [0xc7; 0x49; 0x46; 0x38; 0x39; 0x61]
              /\ ~ is_webp [0xc7; 0x49; 0x46; 0x38; 0x39; 0x61]
              /\ ~ is_bmp [0xc7; 0x49; 0x46; 0x38; 0x39; 0x61]).
  { unfold is_jpeg, is_png, is_gif, is_webp, is_bmp, has_prefix.
    repeat split; intro H; vm_compute in H;
      repeat match type of H with
             | _ \/ _ => destruct H as [H|H]
             | _ /\ _ => destruct H as (H & _)
             end; discriminate H. }
  destruct N as (N1 & N2 & N3 & N4 & N5).
  split; [repeat constructor; lia|].
  repeat (split; [assumption|]).
  split; [reflexivity|].
  intros (_ & _ & _ & _ & _ & D).
  specialize (D N1 N2 N3 N4 N5). vm_compute in D. discriminate D.
Qed.

(** ** fetchMessagesBatch *)

Section FetchFacts.

Variable Row : Type.
Variable Message : Type.
Variable mapRowsToMessagesForApi : list Row -> list Message.

Lemma js_slice_from_skipn {A} (l : list A) k :
  0 <= k -> js_slice_from l k = skipn (Z.to_nat k) l.
Proof.
  intros Hk. unfold js_slice_from, js_slice, rel_index.
  destruct (Z.ltb_spec k 0); [lia|].
  destruct (Z.ltb_spec (Z.of_nat (length l)) 0); [lia|].
  rewrite Z.min_id.
  destruct (Z.le_gt_cases k (Z.of_nat (length l))).
  - replace (Z.min k (Z.of_nat (length l))) with k by lia.
    apply firstn_all2. rewrite length_skipn. lia.
  - replace (Z.min k (Z.of_nat (length l))) with (Z.of_nat (length l)) by lia.
    rewrite Z.sub_diag. cbn [Z.to_nat firstn]. symmetry. apply skipn_all2. lia.
Qed.

Lemma js_slice_firstn {A} (l : list A) k :
  0 <= k -> js_slice l 0 k = firstn (Z.to_nat k) l.
Proof.
  intros Hk. unfold js_slice, rel_index. cbn [Z.ltb Z.compare].
  destruct (Z.ltb_spec k 0); [lia|].
  replace (Z.min 0 (Z.of_nat (length l))) with 0 by lia.
  cbn [Z.to_nat skipn]. rewrite Z.sub_0_r.
  destruct (Z.le_gt_cases k (Z.of_nat (length l))).
  - replace (Z.min k (Z.of_nat (length l))) with k by lia. reflexivity.
  - replace (Z.min k (Z.of_nat (length l))) with (Z.of_nat (length l)) by lia.
    rewrite Nat2Z.id. rewrite !firstn_all2 by lia. reflexivity.
Qed.

Lemma usable_rows_nonempty (batch : Batch Row) rows :
  usable_rows Row batch = Some rows -> (1 <= length rows)%nat.
Proof.
  unfold usable_rows. destruct (batch_success Row batch); [|discriminate].
  destruct (batch_rows Row batch) as [[|r l]|]; try discriminate.
  intros [= <-]. cbn. lia.
Qed.

Lemma fetched_rows_succ (cursor : Cursor Row) n batch rows :
  fetchMessageBatch Row cursor n = FetchReturns batch ->
  usable_rows Row batch = Some rows ->
  fetched_rows Row cursor (S n) = fetched_rows Row cursor n ++ rows.
Proof. intros F U. cbn [fetched_rows]. rewrite F, U. reflexivity. Qed.

Lemma fetched_rows_succ_none (cursor : Cursor Row) n batch :
  fetchMessageBatch Row cursor n = FetchReturns batch ->
  usable_rows Row batch = None ->
  fetched_rows Row cursor (S n) = fetched_rows Row cursor n.
Proof. intros F U. cbn [fetched_rows]. rewrite F, U. apply app_nil_r. Qed.

(** The loop, from any state that satisfies the invariant. *)
Lemma fetch_loop_spec (cursor : Cursor Row) (offset limit : Z) (Hoff : 0 <= offset) fuel :
  forall allRows hm skipped n allRows' hm' n',
    loop_inv Row cursor offset allRows hm skipped n ->
    fetch_loop Row fuel cursor offset limit allRows hm skipped n = LoopEnds Row allRows' hm' n' ->
    (n <= n')%nat
    /\ allRows' = skipn (Z.to_nat offset) (fetched_rows Row cursor n')
    /\ ((1 <= n')%nat ->
        (hm' = true <-> brings_more Row (fetchMessageBatch Row cursor (n' - 1))))
    /\ (n' = n -> (Z.of_nat (length allRows) <? limit) && hm = false).
Proof.
  induction fuel as [|fuel IH]; intros allRows hm skipped n allRows' hm' n' Inv E;
    cbn [fetch_loop] in E; [discriminate|].
  destruct Inv as (Hrows & Hflag).
  destruct ((Z.of_nat (length allRows) <? limit) && hm) eqn:Cond.
  2:{ injection E as <- <- <-. split; [lia|]. split.
      - destruct Hrows as [(Hlt & -> & Hs)|(_ & -> & _)]; [|reflexivity].
        symmetry. apply skipn_all2. lia.
      - split; [exact Hflag|reflexivity]. }
  destruct (fetchMessageBatch Row cursor n) as [|batch] eqn:F; [discriminate|].
  destruct (usable_rows Row batch) as [rows|] eqn:U.
  2:{ injection E as <- <- <-. split; [lia|]. split.
      - rewrite (fetched_rows_succ_none _ _ _ F U).
        destruct Hrows as [(Hlt & -> & Hs)|(_ & -> & _)]; [|reflexivity].
        symmetry. apply skipn_all2. lia.
      - split; [|lia]. intros _. replace (S n - 1)%nat with n by lia.
        rewrite F. cbn. rewrite U. split; [discriminate|]. intros (C & _). congruence. }
  pose proof (usable_rows_nonempty _ _ U) as Hne.
  pose proof (fetched_rows_succ _ _ _ _ F U) as Hf.
  assert (Hflag' : (1 <= S n)%nat ->
            ((match batch_hasMore Row batch with Some true => true | _ => false end) = true
             <-> brings_more Row (fetchMessageBatch Row cursor (S n - 1)))).
  { intros _. replace (S n - 1)%nat with n by lia. rewrite F. cbn. rewrite U.
    destruct (batch_hasMore Row batch) as [[]|]; split; try discriminate; try tauto;
      try (intros (_ & C); discriminate C).
    intros _. split; [discriminate|reflexivity]. }
  assert (Hnext : forall allRows1 skipped1,
             loop_inv Row cursor offset allRows1
               (match batch_hasMore Row batch with Some true => true | _ => false end)
               skipped1 (S n) ->
             fetch_loop Row fuel cursor offset limit allRows1
               (match batch_hasMore Row batch with Some true => true | _ => false end)
               skipped1 (S n) = LoopEnds Row allRows' hm' n' ->
             (S n <= n')%nat
             /\ allRows' = skipn (Z.to_nat offset) (fetched_rows Row cursor n')
             /\ ((1 <= n')%nat ->
                 (hm' = true <-> brings_more Row (fetchMessageBatch Row cursor (n' - 1))))).
  { intros allRows1 skipped1 Inv1 E1.
    destruct (IH _ _ _ _ _ _ _ Inv1 E1) as (Hle & Hr & Hm & _). auto. }
  assert (Hdone : (S n <= n')%nat
             /\ allRows' = skipn (Z.to_nat offset) (fetched_rows Row cursor n')
             /\ ((1 <= n')%nat ->
                 (hm' = true <-> brings_more Row (fetchMessageBatch Row cursor (n' - 1)))) ->
             (n <= n')%nat
             /\ allRows' = skipn (Z.to_nat offset) (fetched_rows Row cursor n')
             /\ ((1 <= n')%nat ->
                 (hm' = true <-> brings_more Row (fetchMessageBatch Row cursor (n' - 1))))
             /\ (n' = n -> true = false)).
  { intros (Hle & Hr & Hm). split; [lia|]. split; [exact Hr|]. split; [exact Hm|lia]. }
  apply Hdone. clear Hdone.
  destruct (Z.ltb_spec skipped offset) as [Hsk|Hsk].
  - destruct Hrows as [(_ & -> & Hs)|(Heq & _)]; [|lia].
    destruct (Z.geb_spec (offset - skipped) (Z.of_nat (length rows))) as [Hrem|Hrem].
    + refine (Hnext _ _ _ E). split; [|exact Hflag'].
      rewrite Hf, length_app.
      destruct (Z.eq_dec (offset - skipped) (Z.of_nat (length rows))) as [Heq|Hneq].
      * right. split; [lia|]. split; [|lia].
        symmetry. apply skipn_all2. rewrite length_app. lia.
      * left. split; [lia|]. split; [reflexivity|lia].
    + refine (Hnext _ _ _ E). split; [|exact Hflag'].
      right. split; [reflexivity|]. rewrite Hf, length_app. split; [|lia].
      cbn [app]. rewrite js_slice_from_skipn by lia.
      rewrite skipn_app.
      rewrite (skipn_all2 (fetched_rows Row cursor n)) by lia. cbn [app].
      f_equal. lia.
  - destruct Hrows as [(Hlt & _)|(Heq & -> & Hlen)]; [lia|].
    refine (Hnext _ _ _ E). split; [|exact Hflag'].
    right. split; [exact Heq|]. rewrite Hf, length_app. split; [|lia].
    rewrite skipn_app.
    replace (Z.to_nat offset - length (fetched_rows Row cursor n))%nat with 0%nat by lia.
    reflexivity.
Qed.



(** More fuel does not change how the loop ends. *)
Lemma fetch_loop_more_fuel (cursor : Cursor Row) (offset limit : Z) fuel :
  forall fuel' allRows hm skipped n,
    (fuel <= fuel')%nat ->
    fetch_loop Row fuel cursor offset limit allRows hm skipped n <> LoopOutOfFuel Row ->
    fetch_loop Row fuel' cursor offset limit allRows hm skipped n =
    fetch_loop Row fuel cursor offset limit allRows hm skipped n.
Proof.
  induction fuel as [|fuel IH]; intros fuel' allRows hm skipped n Hle Hne;
    [cbn in Hne; congruence|].
  destruct fuel' as [|fuel']; [lia|]. cbn [fetch_loop] in *.
  destruct ((Z.of_nat (length allRows) <? limit) && hm); [|reflexivity].
  destruct (fetchMessageBatch Row cursor n) as [|batch]; [reflexivity|].
  destruct (usable_rows Row batch) as [rows|]; [|reflexivity].
  destruct (skipped <? offset); [destruct (offset - skipped >=? _)|];
    apply IH; try lia; exact Hne.
Qed.

(** What a successful fetch returns. *)
Lemma fetchMessagesBatch_success (store : Store Row) talker offset limit
      startTime endTime ascending page :
  0 <= offset -> 1 <= limit ->
  fetchMessagesBatch Row Message mapRowsToMessagesForApi store talker offset limit
                     startTime endTime ascending = Success page ->
  page_contract Row Message mapRowsToMessagesForApi (brings_more Row)
                store talker offset limit startTime endTime ascending page.
Proof.
  intros Hoff Hlim. unfold fetchMessagesBatch, page_contract.
  destruct (store talker (batchSize_of limit) ascending (to_seconds startTime)
                  (to_seconds endTime)) as [|[] [cursor|]]; try discriminate.
  destruct (run_loop Row cursor offset limit) as [|allRows hm n|] eqn:L; try discriminate.
  destruct (closeThrows Row cursor); [discriminate|].
  intros [= <-]. cbn [messages hasMore].
  assert (Inv0 : loop_inv Row cursor offset [] true 0 0).
  { split; [|lia]. cbn [fetched_rows length].
    destruct (Z.eq_dec offset 0) as [->|]; [right|left]; repeat split; lia. }
  destruct (fetch_loop_spec cursor offset limit Hoff _ _ _ _ _ _ _ _ Inv0 L)
    as (_ & Hrows & Hflag & Hfirst).
  destruct n as [|fetches].
  { specialize (Hfirst eq_refl). change (Z.of_nat (length (@nil Row))) with 0 in Hfirst.
    destruct (Z.ltb_spec 0 limit); [cbn in Hfirst; discriminate Hfirst|lia]. }
  specialize (Hflag ltac:(lia)). replace (S fetches - 1)%nat with fetches in Hflag by lia.
  exists cursor, allRows, hm, fetches.
  rewrite js_slice_firstn by lia.
  split; [reflexivity|]. split; [exact L|]. split; [exact Hrows|].
  split; [reflexivity|].
  assert (Z.of_nat (length (firstn (Z.to_nat limit) allRows)) <= limit)
    by (rewrite length_firstn; lia).
  split; [assumption|]. split; [intros Hmap; rewrite Hmap; assumption|].
  rewrite orb_true_iff, <- Hflag, Z.gtb_gt. reflexivity.
Qed.

End FetchFacts.

(** C2, as amended.  For every conversation, offset >= 0, limit >= 1,
    time range and direction, a page returned by [fetchMessagesBatch]
    holds at most [limit] rows, the first [limit] of the rows fetched
    beyond the first [offset], and its [hasMore] flag is true if and only
    if the last batch fetched brought rows and carried [hasMore: true], or
    more than [limit] rows were accumulated after offset-skipping.  A
    last batch that is empty or unsuccessful ends the data, whatever
    flag it carries. *)
Theorem fetchMessagesBatch_page (Row Message : Type)
        (mapRowsToMessagesForApi : list Row -> list Message)
        (store : Store Row) (talker : jsstring) (offset limit : Z)
        (startTime endTime : Z) (ascending : bool) (page : Page Message) :
  0 <= offset -> 1 <= limit ->
  fetchMessagesBatch Row Message mapRowsToMessagesForApi store talker offset limit
                     startTime endTime ascending = Success page ->
  page_contract Row Message mapRowsToMessagesForApi (brings_more Row)
                store talker offset limit startTime endTime ascending page.
Proof. apply fetchMessagesBatch_success. Qed.

Lemma fetchMessagesBatch_page_witness :
  page_contract Z Z (fun rows => rows) (brings_more Z)
                (dataset_store Z RowsRemain [1; 2; 3; 4; 5]) (str "room") 1 3 0 0 true
                (mkPage [2; 3; 4] true).
Proof.
  apply (fetchMessagesBatch_page Z Z (fun rows => rows)
           (dataset_store Z RowsRemain [1; 2; 3; 4; 5]) (str "room") 1 3 0 0 true
           (mkPage [2; 3; 4] true)); [lia|lia|reflexivity].
Defined.

(** C2, as stated, fails on the code.  The loop treats an empty batch as
    the end of the data before it looks at the flag: on a cursor whose
    batch is empty and flagged [hasMore: true] the page has no rows and
    [hasMore] false, although the last batch fetched signalled more. *)
Lemma fetchMessagesBatch_ignores_flag_of_empty_batch :
  fetchMessagesBatch Z Z (fun rows => rows) (empty_flagged_store Z) (str "room") 0 1 0 0 true
  = Success (mkPage [] false)
  /\ ~ page_contract Z Z (fun rows => rows) (flags_more Z)
         (empty_flagged_store Z) (str "room") 0 1 0 0 true (mkPage [] false).
Proof.
  split; [reflexivity|].
  intros (cursor & allRows & hm & fetches & Hopen & _ & _ & _ & _ & _ & Hmore).
  injection Hopen as <-. cbn in Hmore.
  assert (false = true) as C by (apply Hmore; left; reflexivity).
  discriminate C.
Qed.

(** The two fetches over 35 rows, evaluated. *)
Lemma fetch_35_rows_pages (Row Message : Type)
      (mapRowsToMessagesForApi : list Row -> list Message)
      (policy : FlagPolicy) (rows : list Row) (talker : jsstring)
      (startTime endTime : Z) (ascending : bool) :
  length rows = 35%nat ->
  fetchMessagesBatch Row Message mapRowsToMessagesForApi (dataset_store Row policy rows)
    talker 0 20 startTime endTime ascending
  = Success (mkPage (mapRowsToMessagesForApi (firstn 20 rows)) true)
  /\ fetchMessagesBatch Row Message mapRowsToMessagesForApi (dataset_store Row policy rows)
       talker 20 20 startTime endTime ascending
     = Success (mkPage (mapRowsToMessagesForApi (skipn 20 rows)) false).
Proof.
  intros Hlen.
  do 35 (destruct rows as [|? rows]; [discriminate Hlen|]).
  destruct rows; [|discriminate Hlen].
  destruct policy; split; reflexivity.
Qed.

(** C3.  Over a stable dataset of 35 rows, a fetch with offset 0 and
    limit 20 returns the first 20 rows, and a fetch with offset 20 and
    limit 20 returns the 15 rows that remain, with [hasMore] false; both
    open their cursor with the batch size [min(limit, 500)], here 20, and
    read their rows from that cursor.  It holds however the cursor sets
    its flag: by the rows that remain, by the fullness of the batch, or
    on every batch that has rows. *)
Theorem fetch_35_rows_in_two_pages (Row Message : Type)
        (mapRowsToMessagesForApi : list Row -> list Message)
        (policy : FlagPolicy) (rows : list Row) (talker : jsstring)
        (startTime endTime : Z) (ascending : bool) :
  length rows = 35%nat ->
  let store := dataset_store Row policy rows in
  let first_page := mkPage (mapRowsToMessagesForApi (firstn 20 rows)) true in
  let second_page := mkPage (mapRowsToMessagesForApi (skipn 20 rows)) false in
  batchSize_of 20 = Z.min 20 500
  /\ batchSize_of 20 = 20
  /\ fetchMessagesBatch Row Message mapRowsToMessagesForApi store
       talker 0 20 startTime endTime ascending = Success first_page
  /\ length (firstn 20 rows) = 20%nat
  /\ fetchMessagesBatch Row Message mapRowsToMessagesForApi store
       talker 20 20 startTime endTime ascending = Success second_page
  /\ length (skipn 20 rows) = 15%nat
  /\ firstn 20 rows ++ skipn 20 rows = rows
  /\ store talker (Z.min 20 500) ascending (to_seconds startTime) (to_seconds endTime)
     = OpenReturns true (Some (dataset_cursor Row policy rows 20))
  /\ page_contract Row Message mapRowsToMessagesForApi (brings_more Row)
       store talker 0 20 startTime endTime ascending first_page
  /\ page_contract Row Message mapRowsToMessagesForApi (brings_more Row)
       store talker 20 20 startTime endTime ascending second_page.
Proof.
  intros Hlen. cbv zeta.
  destruct (fetch_35_rows_pages Row Message mapRowsToMessagesForApi policy rows talker
              startTime endTime ascending Hlen) as (P1 & P2).
  split; [reflexivity|]. split; [reflexivity|].
  split; [exact P1|]. split; [rewrite length_firstn; lia|].
  split; [exact P2|]. split; [rewrite length_skipn; lia|].
  split; [apply firstn_skipn|]. split; [reflexivity|].
  split; apply fetchMessagesBatch_success; try lia; assumption.
Qed.

Lemma fetch_35_rows_in_two_pages_witness :
  let rows := indices 1 35 in
  let store := dataset_store Z RowsRemain rows in
  let first_page := mkPage (firstn 20 rows) true in
  let second_page := mkPage (skipn 20 rows) false in
  batchSize_of 20 = Z.min 20 500
  /\ batchSize_of 20 = 20
  /\ fetchMessagesBatch Z Z (fun rows => rows) store (str "room") 0 20 0 0 true
     = Success first_page
  /\ length (firstn 20 rows) = 20%nat
  /\ fetchMessagesBatch Z Z (fun rows => rows) store (str "room") 20 20 0 0 true
     = Success second_page
  /\ length (skipn 20 rows) = 15%nat
  /\ firstn 20 rows ++ skipn 20 rows = rows
  /\ store (str "room") (Z.min 20 500) true (to_seconds 0) (to_seconds 0)
     = OpenReturns true (Some (dataset_cursor Z RowsRemain rows 20))
  /\ page_contract Z Z (fun rows => rows) (brings_more Z)
       store (str "room") 0 20 0 0 true first_page
  /\ page_contract Z Z (fun rows => rows) (brings_more Z)
       store (str "room") 20 20 0 0 true second_page.
Proof.
  apply (fetch_35_rows_in_two_pages Z Z (fun rows => rows) RowsRemain (indices 1 35)
           (str "room") 0 0 true).
  reflexivity.
Defined.

(** ** handleMessages *)

Lemma round53_large z : 2 ^ 53 <= z -> 2 ^ 53 <= round53 z.
Proof.
  intros Hz. unfold round53, round53_magnitude.
  destruct (Z.ltb_spec z 0); [lia|].
  destruct (Z.ltb_spec z (2 ^ 53)); [lia|].
  assert (Hlog : 53 <= Z.log2 z) by (apply Z.log2_le_pow2; lia).
  set (e := Z.log2 z - 52).
  assert (He : 1 <= e) by (unfold e; lia).
  assert (Hq : 2 ^ 52 <= Z.shiftr z e).
  { rewrite Z.shiftr_div_pow2 by lia.
    pose proof (Z.log2_spec z ltac:(lia)) as (Hlo & _).
    replace (Z.log2 z) with (52 + e) in Hlo by (unfold e; lia).
    rewrite Z.pow_add_r in Hlo by lia.
    apply Z.div_le_lower_bound; [apply Z.pow_pos_nonneg; lia|lia]. }
  set (q := Z.shiftr z e) in *.
  assert (Hq' : q <= (if z - Z.shiftl q e <? Z.shiftl 1 (e - 1) then q
                      else if Z.shiftl 1 (e - 1) <? z - Z.shiftl q e then q + 1
                           else if Z.even q then q else q + 1)).
  { destruct (_ <? _); [lia|]. destruct (_ <? _); [lia|]. destruct (Z.even q); lia. }
  rewrite Z.shiftl_mul_pow2 by lia.
  assert (2 <= 2 ^ e) by (change 2 with (2 ^ 1) at 1; apply Z.pow_le_mono_r; lia).
  change (2 ^ 53) with (2 ^ 52 * 2). nia.
Qed.

Lemma js_slice_window {A} (l : list A) a b :
  0 <= a <= b -> js_slice l a b = firstn (Z.to_nat (b - a)) (skipn (Z.to_nat a) l).
Proof.
  intros H. unfold js_slice, rel_index.
  destruct (Z.ltb_spec a 0); [lia|]. destruct (Z.ltb_spec b 0); [lia|].
  set (len := Z.of_nat (length l)).
  destruct (Z.le_gt_cases a len) as [Ha|Ha].
  - replace (Z.min a len) with a by lia.
    destruct (Z.le_gt_cases b len) as [Hb|Hb].
    + replace (Z.min b len) with b by lia. reflexivity.
    + replace (Z.min b len) with len by lia.
      rewrite !firstn_all2; try reflexivity; rewrite length_skipn; unfold len in *; lia.
  - replace (Z.min a len) with len by lia. replace (Z.min b len) with len by lia.
    rewrite Z.sub_diag. cbn [Z.to_nat firstn].
    rewrite skipn_all2 by (unfold len in *; lia). rewrite firstn_nil. reflexivity.
Qed.

(** With fewer than 2^53 elements in the list, the rounding of
    [offset + limit] changes neither the slice nor the comparison. *)
Lemma slice_to_js_add {A} (l : list A) offset limit :
  0 <= offset <= MAX_SAFE_INTEGER -> 0 <= limit ->
  Z.of_nat (length l) < 2 ^ 53 ->
  js_slice l offset (js_add offset limit)
    = firstn (Z.to_nat limit) (skipn (Z.to_nat offset) l)
  /\ (Z.of_nat (length l) >? js_add offset limit)
     = (Z.of_nat (length l) >? offset + limit).
Proof.
  intros Ho Hl Hlen. unfold MAX_SAFE_INTEGER in Ho. unfold js_add.
  destruct (Z.lt_ge_cases (offset + limit) (2 ^ 53)) as [Hs|Hs].
  - rewrite round53_small by lia. split; [|reflexivity].
    rewrite js_slice_window by lia. do 2 f_equal. lia.
  - pose proof (round53_large _ Hs) as Hr. split.
    + rewrite js_slice_window by lia.
      rewrite !firstn_all2; try reflexivity; rewrite length_skipn; lia.
    + destruct (Z.gtb_spec (Z.of_nat (length l)) (round53 (offset + limit))); [lia|].
      destruct (Z.gtb_spec (Z.of_nat (length l)) (offset + limit)); [lia|reflexivity].
Qed.

Section HandleFacts.

Variable Row : Type.
Variable Message : Type.
Variable mapRowsToMessagesForApi : list Row -> list Message.
Variable toLowerCase : jsstring -> jsstring.
Variable parsedContent : Message -> option jsstring.
Variable rawContent : Message -> option jsstring.

Lemma effective_offset_range req :
  0 <= effective_offset req <= MAX_SAFE_INTEGER.
Proof.
  unfold effective_offset, parseIntParam, MAX_SAFE_INTEGER.
  destruct (q_offset req); lia.
Qed.

Lemma effective_limit_range req : 1 <= effective_limit req <= 10000.
Proof. unfold effective_limit, parseIntParam. destruct (q_limit req); lia. Qed.

(** C4, as amended.  For every messages request with a talker, a
    supported format and a keyword that is not empty once trimmed, the
    handler queries the store with effective offset 0 and effective limit
    10000; when the query succeeds it keeps exactly the messages whose
    resolved content ([parsedContent], else [rawContent]), lowercased,
    includes the lowercased keyword, and the response carries the slice
    [offset, offset + limit) of the filtered sequence; in the json format
    it reports [hasMore] true if and only if the filtered sequence has more
    than [offset + limit] elements, and in the chatlab format it reports
    no [hasMore].  (A JavaScript array has fewer than 2^32 elements.) *)
Theorem handleMessages_keyword_search (store : Store Row) (req : Request) :
  truthy (trim (or_empty (q_talker req))) = true ->
  effective_format toLowerCase req = str "json"
  \/ effective_format toLowerCase req = str "chatlab" ->
  truthy (effective_keyword toLowerCase req) = true ->
  let talker := trim (or_empty (q_talker req)) in
  let keyword := effective_keyword toLowerCase req in
  queried Message (handleMessages Row Message mapRowsToMessagesForApi toLowerCase
                            parsedContent rawContent store req)
    = Some (mkQuery talker 0 10000 (q_start req) (q_end req) true)
  /\ (forall fetched msg,
         In msg (keyword_filter Message toLowerCase parsedContent rawContent keyword fetched)
         <-> In msg fetched
             /\ includes (toLowerCase (resolved_content Message parsedContent rawContent msg))
                         keyword = true)
  /\ forall page,
      fetchMessagesBatch Row Message mapRowsToMessagesForApi store talker 0 10000 (q_start req) (q_end req) true = Success page ->
      Z.of_nat (length (messages page)) < 2 ^ 32 ->
      let selected := keyword_page Message toLowerCase parsedContent rawContent req
                                   (messages page) in
      reported_messages Message (response Message (handleMessages Row Message mapRowsToMessagesForApi toLowerCase
                            parsedContent rawContent store req)) = Some (fst selected)
      /\ (effective_format toLowerCase req = str "json" ->
          response Message (handleMessages Row Message mapRowsToMessagesForApi toLowerCase
                            parsedContent rawContent store req)
          = JsonResponse Message (Z.of_nat (length (fst selected))) (snd selected) (fst selected))
      /\ (effective_format toLowerCase req = str "chatlab" ->
          response Message (handleMessages Row Message mapRowsToMessagesForApi toLowerCase
                            parsedContent rawContent store req) = ChatLabResponse Message (fst selected)).
Proof.
  intros Htalker Hformat Hkw. cbv zeta.
  unfold handleMessages.
  fold (effective_format toLowerCase req). fold (effective_keyword toLowerCase req).
  fold (effective_offset req). fold (effective_limit req).
  rewrite Htalker, Hkw. cbn [negb].
  assert (Hvalid : negb (str_eqb (effective_format toLowerCase req) (str "json"))
                   && negb (str_eqb (effective_format toLowerCase req) (str "chatlab"))
                   = false).
  { destruct Hformat as [-> | ->]; reflexivity. }
  rewrite Hvalid.
  split.
  { destruct (fetchMessagesBatch Row Message mapRowsToMessagesForApi store _ 0 10000 _ _ true); reflexivity. }
  split.
  { intros fetched msg. unfold keyword_filter. apply filter_In. }
  intros page Hfetch Hlen. rewrite Hfetch.
  cbn [response fst snd].
  pose proof (effective_offset_range req) as Ho.
  pose proof (effective_limit_range req) as Hl.
  assert (Hflen : Z.of_nat (length (keyword_filter Message toLowerCase parsedContent rawContent
                                      (effective_keyword toLowerCase req) (messages page)))
                  < 2 ^ 53).
  { unfold keyword_filter.
    pose proof (filter_length_le
                  (fun msg => includes (toLowerCase (resolved_content Message parsedContent
                                                       rawContent msg))
                                       (effective_keyword toLowerCase req))
                  (messages page)).
    assert (2 ^ 32 < 2 ^ 53) by (apply Z.pow_lt_mono_r; lia). lia. }
  destruct (slice_to_js_add _ (effective_offset req) (effective_limit req) Ho
              ltac:(lia) Hflen) as (Hslice & Hmore).
  rewrite Hslice, Hmore. unfold keyword_page. cbn [fst snd].
  split; [destruct (str_eqb _ (str "chatlab")); reflexivity|].
  split; intros Hf; rewrite Hf; reflexivity.
Qed.

End HandleFacts.

Lemma handleMessages_keyword_search_witness :
  let talker := trim (or_empty (q_talker search_json)) in
  let keyword := effective_keyword asciiLower search_json in
  queried jsstring (chat_handler search_json)
    = Some (mkQuery talker 0 10000 (q_start search_json) (q_end search_json) true)
  /\ (forall fetched msg,
         In msg (keyword_filter jsstring asciiLower (fun msg => Some msg) (fun _ => None)
                                keyword fetched)
         <-> In msg fetched
             /\ includes (asciiLower (resolved_content jsstring (fun msg => Some msg)
                                                       (fun _ => None) msg))
                         keyword = true)
  /\ forall page,
      fetchMessagesBatch jsstring jsstring (fun rows => rows) chat_store talker 0 10000
                         (q_start search_json) (q_end search_json) true = Success page ->
      Z.of_nat (length (messages page)) < 2 ^ 32 ->
      let selected := keyword_page jsstring asciiLower (fun msg => Some msg) (fun _ => None)
                                   search_json (messages page) in
      reported_messages jsstring (response jsstring (chat_handler search_json))
        = Some (fst selected)
      /\ (effective_format asciiLower search_json = str "json" ->
          response jsstring (chat_handler search_json)
          = JsonResponse jsstring (Z.of_nat (length (fst selected))) (snd selected)
                         (fst selected))
      /\ (effective_format asciiLower search_json = str "chatlab" ->
          response jsstring (chat_handler search_json)
          = ChatLabResponse jsstring (fst selected)).
Proof.
  apply (handleMessages_keyword_search jsstring jsstring (fun rows => rows) asciiLower
           (fun msg => Some msg) (fun _ => None) chat_store search_json);
    [reflexivity|left; reflexivity|reflexivity].
Defined.

Example search_json_response :
  response jsstring (chat_handler search_json)
  = JsonResponse jsstring 1 true [str "HELLO again"].
Proof. reflexivity. Qed.

(** C4, as stated, fails on the code.  A keyword of blanks is trimmed to
    the empty string and the handler pages through the store with the
    caller's offset and limit; and a response in the chatlab format
    carries the selected messages but no [hasMore]. *)
Lemma keyword_search_not_always :
  (queried jsstring (chat_handler search_blank)
     = Some (mkQuery (str "room") 1 1 0 0 true)
   /\ ~ keyword_search_always jsstring jsstring (fun rows => rows) asciiLower
          (fun msg => Some msg) (fun _ => None) chat_store search_blank)
  /\ (response jsstring (chat_handler search_chatlab)
        = ChatLabResponse jsstring [str "HELLO again"]
      /\ ~ keyword_search_always jsstring jsstring (fun rows => rows) asciiLower
             (fun msg => Some msg) (fun _ => None) chat_store search_chatlab).
Proof.
  split; (split; [reflexivity|]); intros C.
  - destruct (C (str " ") eq_refl ltac:(discriminate)) as (talker & Hq & _).
    vm_compute in Hq. discriminate Hq.
  - destruct (C (str "hello") eq_refl ltac:(discriminate)) as (talker & Hq & Hp).
    vm_compute in Hq. injection Hq as <-.
    destruct (Hp (mkPage chat_rows false) eq_refl ltac:(vm_compute; reflexivity))
      as (_ & Hmore).
    vm_compute in Hmore. discriminate Hmore.
Qed.

(* ===================================================================== *)
(** * Part II, continued: properties of the functions around              *)
(* ===================================================================== *)

(** ** Trimming and normalization *)

Lemma trimStart_head s : head_not_ws (trimStart s).
Proof.
  induction s as [|c s IH]; cbn; [exact I|].
  destruct (is_whitespace c) eqn:E; [exact IH|exact E].
Qed.

Lemma trimStart_fixed s : head_not_ws s -> trimStart s = s.
Proof. destruct s as [|c s]; cbn; [reflexivity|]. intros ->. reflexivity. Qed.

Lemma trimStart_suffix s : exists p, s = p ++ trimStart s.
Proof.
  induction s as [|c s (p & IH)]; [exists []; reflexivity|]. cbn.
  destruct (is_whitespace c).
  - exists (c :: p). cbn. f_equal. exact IH.
  - exists []. reflexivity.
Qed.

Lemma head_not_ws_app s t : s <> [] -> head_not_ws (s ++ t) -> head_not_ws s.
Proof. destruct s; [congruence|]. cbn. auto. Qed.

(** [trim] leaves no blank at either end. *)
Lemma trim_edges s : head_not_ws (trim s) /\ head_not_ws (rev (trim s)).
Proof.
  unfold trim. rewrite rev_involutive.
  set (t := trimStart s). set (u := trimStart (rev t)).
  split; [|apply trimStart_head].
  destruct (trimStart_suffix (rev t)) as (p & Hp). fold u in Hp.
  destruct u as [|c u'] eqn:Eu; [exact I|].
  assert (Ht : t = rev (c :: u') ++ rev p).
  { rewrite <- rev_app_distr, <- Hp, rev_involutive. reflexivity. }
  apply (head_not_ws_app _ (rev p)).
  - intros E. apply (f_equal (@rev Z)) in E. rewrite rev_involutive in E. discriminate E.
  - rewrite <- Ht. apply trimStart_head.
Qed.

Lemma trim_fixed s : head_not_ws s -> head_not_ws (rev s) -> trim s = s.
Proof.
  intros H1 H2. unfold trim.
  rewrite (trimStart_fixed s H1), (trimStart_fixed _ H2). apply rev_involutive.
Qed.

Lemma trim_idempotent s : trim (trim s) = trim s.
Proof. destruct (trim_edges s). apply trim_fixed; assumption. Qed.

Lemma normalizeGroupNickname_cases v :
  normalizeGroupNickname v = []
  \/ (normalizeGroupNickname v = trim v /\ truthy (trim v) = true
      /\ forallb (fun c => (c =? 34) || (c =? 39) || (c =? 64)) (trim v) = false).
Proof.
  unfold normalizeGroupNickname.
  destruct (truthy (trim v)) eqn:T; cbn [negb]; [|left; reflexivity].
  destruct (forallb _ (trim v)) eqn:Q; [left; reflexivity|right; auto].
Qed.

Lemma normalizeGroupNickname_idempotent v :
  normalizeGroupNickname (normalizeGroupNickname v) = normalizeGroupNickname v.
Proof.
  destruct (normalizeGroupNickname_cases v) as [E|(E & T & Q)]; rewrite E.
  - reflexivity.
  - unfold normalizeGroupNickname. rewrite trim_idempotent, T, Q. reflexivity.
Qed.

(** X1.  A normalized nickname is in normal form: normalizing it again
    changes nothing, it has no blank at either end, and it is either the
    empty string or the trimmed value, which then holds a character other
    than the two quotes and the at sign. *)
Theorem normalizeGroupNickname_normal (value : jsstring) :
  let result := normalizeGroupNickname value in
  normalizeGroupNickname result = result
  /\ trim result = result
  /\ (result = []
      \/ (result = trim value
          /\ exists c, In c result /\ c <> 34 /\ c <> 39 /\ c <> 64)).
Proof.
  cbv zeta. split; [apply normalizeGroupNickname_idempotent|].
  destruct (normalizeGroupNickname_cases value) as [E|(E & T & Q)]; rewrite E.
  - split; [reflexivity|left; reflexivity].
  - split; [apply trim_idempotent|]. right. split; [reflexivity|].
    assert (Hex : existsb (fun c => negb ((c =? 34) || (c =? 39) || (c =? 64))) (trim value)
                  = true).
    { clear E T. induction (trim value) as [|c t IH]; [discriminate Q|].
      cbn [forallb existsb] in *. apply andb_false_iff in Q.
      destruct Q as [Q|Q]; [rewrite Q; reflexivity|].
      rewrite (IH Q). apply orb_true_r. }
    apply existsb_exists in Hex. destruct Hex as (c & Hc & Hn).
    exists c. split; [exact Hc|].
    apply negb_true_iff in Hn. apply orb_false_iff in Hn. destruct Hn as (Hn & H64).
    apply orb_false_iff in Hn. destruct Hn as (H34 & H39).
    apply Z.eqb_neq in H34, H39, H64. auto.
Qed.

(** ** Sets of strings *)

Lemma set_has_In s x : set_has s x = true <-> In x s.
Proof.
  unfold set_has. rewrite existsb_exists. split.
  - intros (y & Hy & E). apply str_eqb_eq in E. subst. exact Hy.
  - intros H. exists x. split; [exact H|apply str_eqb_refl].
Qed.

Lemma set_add_In s x y : In y (set_add s x) <-> In y s \/ y = x.
Proof.
  unfold set_add. destruct (set_has s x) eqn:E.
  - apply set_has_In in E. split; [auto|]. intros [H| ->]; assumption.
  - rewrite in_app_iff. cbn. intuition congruence.
Qed.

Lemma set_add_NoDup s x : NoDup s -> NoDup (set_add s x).
Proof.
  intros H. unfold set_add. destruct (set_has s x) eqn:E; [exact H|].
  apply NoDup_app; [exact H|repeat constructor; intros []|].
  intros a Ha [<- | []]. apply set_has_In in Ha. congruence.
Qed.

Lemma fold_set_add_In values : forall s y,
  In y (fold_left set_add values s) <-> In y s \/ In y values.
Proof.
  induction values as [|v values IH]; intros s y; cbn [fold_left].
  - cbn. tauto.
  - rewrite IH, set_add_In. cbn. intuition congruence.
Qed.

Lemma set_of_list_In values y : In y (set_of_list values) <-> In y values.
Proof. unfold set_of_list. rewrite fold_set_add_In. cbn. tauto. Qed.

Lemma truthy_set_of_list values :
  truthy_set (set_of_list values) = true <-> values <> [].
Proof.
  split.
  - intros H ->. discriminate H.
  - intros H. destruct values as [|v values]; [congruence|].
    destruct (set_of_list (v :: values)) as [|x s] eqn:E; [|reflexivity].
    assert (In v (set_of_list (v :: values))) as Hin
        by (apply set_of_list_In; left; reflexivity).
    rewrite E in Hin. destruct Hin.
Qed.

Section MoreHost.

Variable toLowerCase : jsstring -> jsstring.

(** ** cleanAccountDirName and buildIdCandidates *)

Lemma takeWhile_prefix p s : exists rest, s = takeWhile p s ++ rest.
Proof.
  induction s as [|c s (rest & IH)]; [exists []; reflexivity|]. cbn.
  destruct (p c).
  - exists rest. cbn. f_equal. exact IH.
  - exists (c :: s). reflexivity.
Qed.

Lemma truthy_true s : truthy s = true <-> s <> [].
Proof. destruct s; cbn; split; congruence. Qed.

(** X2.  The cleaned name of an account directory is a prefix of the
    trimmed name: cleaning only cuts a suffix off, and it leaves at least
    one character of a name that is not blank. *)
Theorem cleanAccountDirName_prefix (name : jsstring) :
  (exists rest, trim name = cleanAccountDirName toLowerCase name ++ rest)
  /\ (trim name = [] -> cleanAccountDirName toLowerCase name = [])
  /\ (trim name <> [] -> cleanAccountDirName toLowerCase name <> []).
Proof.
  unfold cleanAccountDirName. cbv zeta.
  set (t := trim name).
  destruct (truthy t) eqn:T; cbn [negb].
  2:{ destruct t; [|discriminate T]. repeat split; try congruence. exists []. reflexivity. }
  apply truthy_true in T.
  assert (Hself : (exists rest, t = t ++ rest) /\ (t = [] -> t = []) /\ (t <> [] -> t <> []))
    by (repeat split; auto; exists []; symmetry; apply app_nil_r).
  destruct (startsWith (toLowerCase t) s_wxid_).
  - destruct (startsWith_ci t s_wxid_ && truthy (takeWhile (fun c => negb (c =? 95)) (skipn 5 t)))
      eqn:M; [|exact Hself].
    apply andb_true_iff in M. destruct M as (_ & M). apply truthy_true in M.
    split; [|split; [congruence|]].
    + destruct (takeWhile_prefix (fun c => negb (c =? 95)) (skipn 5 t)) as (rest & Hr).
      exists rest. rewrite <- app_assoc, <- Hr. symmetry. apply firstn_skipn.
    + intros _ E. apply app_eq_nil in E. tauto.
  - destruct (skipn (length t - 5) t) as [|u [|a [|b [|c [|d [|? ?]]]]]]; try exact Hself.
    destruct (truthy (firstn (length t - 5) t) && _ && _ && _) eqn:M; [|exact Hself].
    repeat (apply andb_true_iff in M; destruct M as (M & ?)).
    apply truthy_true in M.
    split; [|split; [congruence|auto]].
    exists (skipn (length t - 5) t). symmetry. apply firstn_skipn.
Qed.

Lemma buildIdCandidates_loop_spec values : forall set,
  NoDup set -> Forall (fun x => x <> []) set ->
  let result := buildIdCandidates_loop toLowerCase values set in
  NoDup result
  /\ Forall (fun x => x <> []) result
  /\ (forall x, In x set -> In x result)
  /\ (forall v, In (Some v) values -> trim v <> [] -> In (trim v) result)
  /\ (forall x, In x result ->
        In x set \/ exists v, In (Some v) values /\ trim v <> []
                              /\ (x = trim v \/ x = cleanAccountDirName toLowerCase (trim v))).
Proof.
  induction values as [|rawValue values IH]; intros set Hnd Hne; cbn [buildIdCandidates_loop].
  - cbv zeta. repeat split; auto. intros v [].
  - cbv zeta.
    set (raw := trim match rawValue with Some v => v | None => [] end).
    destruct (truthy raw) eqn:T; cbn [negb].
    + apply truthy_true in T.
      set (cleaned := cleanAccountDirName toLowerCase raw).
      set (set2 := if truthy cleaned && negb (str_eqb cleaned raw)
                   then set_add (set_add set raw) cleaned else set_add set raw).
      assert (Hnd2 : NoDup set2).
      { unfold set2. destruct (_ && _); repeat apply set_add_NoDup; exact Hnd. }
      assert (Hin2 : forall x, In x set2 <-> In x set \/ x = raw
                     \/ (x = cleaned /\ truthy cleaned = true)).
      { intros x. unfold set2. destruct (truthy cleaned && negb (str_eqb cleaned raw)) eqn:C.
        - apply andb_true_iff in C. destruct C as (C & _).
          rewrite !set_add_In. intuition.
        - rewrite set_add_In. split; [intuition|]. intros [H|[H|(H & Ht)]]; auto.
          rewrite Ht in C. cbn in C. apply negb_false_iff, str_eqb_eq in C.
          right. congruence. }
      assert (Hne2 : Forall (fun x => x <> []) set2).
      { apply Forall_forall. intros x Hx. apply Hin2 in Hx.
        destruct Hx as [Hx|[->|(-> & Hc)]].
        - rewrite Forall_forall in Hne. auto.
        - exact T.
        - apply truthy_true. exact Hc. }
      destruct (IH set2 Hnd2 Hne2) as (R1 & R2 & R3 & R4 & R5). cbv zeta in *.
      split; [exact R1|]. split; [exact R2|]. split; [|split].
      * intros x Hx. apply R3, Hin2. auto.
      * intros v [E|Hv] Hv'.
        -- subst rawValue. apply R3, Hin2. right. left. reflexivity.
        -- apply R4; assumption.
      * intros x Hx. destruct (R5 x Hx) as [Hs|(v & Hv & Hv' & Hx')].
        -- apply Hin2 in Hs. destruct Hs as [Hs|[->|(-> & _)]]; [left; exact Hs| |];
             right; destruct rawValue as [v|];
             try (exists v; split; [left; reflexivity|];
                  split; [exact T|]; unfold cleaned, raw;
                  rewrite ?trim_idempotent; auto);
             exfalso; apply T; reflexivity.
        -- right. exists v. split; [right; exact Hv|]. auto.
    + destruct (IH set Hnd Hne) as (R1 & R2 & R3 & R4 & R5). cbv zeta in *.
      split; [exact R1|]. split; [exact R2|]. split; [exact R3|]. split.
      * intros v [E|Hv] Hv'; [|apply R4; assumption].
        subst rawValue. fold raw in T. unfold raw in T.
        apply truthy_true in Hv'. congruence.
      * intros x Hx. destruct (R5 x Hx) as [Hs|(v & Hv & Hx')]; [left; exact Hs|].
        right. exists v. split; [right; exact Hv|exact Hx'].
Qed.

(** X3.  The candidates hold no duplicate and no empty string; they
    hold the trimmed form of every value that is not blank; and each of
    them is the trimmed form of such a value, or the cleaned form of
    one.  Values that are missing or blank give nothing. *)
Theorem buildIdCandidates_spec (values : list (option jsstring)) :
  let result := buildIdCandidates toLowerCase values in
  NoDup result
  /\ Forall (fun x => x <> []) result
  /\ (forall v, In (Some v) values -> trim v <> [] -> In (trim v) result)
  /\ (forall x, In x result ->
        exists v, In (Some v) values /\ trim v <> []
                  /\ (x = trim v \/ x = cleanAccountDirName toLowerCase (trim v))).
Proof.
  cbv zeta. unfold buildIdCandidates.
  destruct (buildIdCandidates_loop_spec values [] (NoDup_nil _) (Forall_nil _))
    as (R1 & R2 & _ & R4 & R5). cbv zeta in *.
  repeat split; auto.
  intros x Hx. destruct (R5 x Hx) as [[]|H]. exact H.
Qed.

End MoreHost.

(** ** The parsed table and the lookup *)

Section ParseFacts.

Variable toLowerCase : jsstring -> jsstring.

Lemma isLikelyNickname_truthy v :
  isLikelyNickname v = true -> truthy (normalizeGroupNickname v) = true.
Proof.
  unfold isLikelyNickname. destruct (truthy (normalizeGroupNickname v)); [reflexivity|].
  cbn. discriminate.
Qed.

(** What a round of the scan has checked when it accepts a record. *)
Lemma scan_at_accepted buffer candidateSet i id nick :
  accepted (scan_at toLowerCase buffer candidateSet i) = Some (id, nick) ->
  buf_get buffer i = Some 0x0a
  /\ isLikelyMemberId id = true
  /\ trim id = id
  /\ isLikelyNickname nick = true
  /\ normalizeGroupNickname nick = nick
  /\ (truthy_set candidateSet = true -> set_has candidateSet (toLowerCase id) = true)
  /\ i < last_i (scan_at toLowerCase buffer candidateSet i) < buf_length buffer.
Proof.
  unfold scan_at.
  repeat match goal with
         | |- context [match ?x with _ => _ end] =>
           match type of x with
           | option _ => destruct x as [?|] eqn:?
           | prod _ _ => destruct x as [? ?]
           | bool => destruct x eqn:?
           | Z => destruct x
           | positive => destruct x
           end
         end; cbn [accepted last_i]; try discriminate.
  intros [= <- <-].
  repeat match goal with
         | H : readVarint_default _ _ = Some _ |- _ =>
           apply readVarint_default_next in H
         | H : (_ || _) = false |- _ => apply orb_false_iff in H; destruct H
         | H : (_ && _) = false |- _ => apply andb_false_iff in H
         | H : negb _ = false |- _ => apply negb_false_iff in H
         | H : (_ <=? _) = false |- _ => apply Z.leb_gt in H
         | H : (_ >? _) = false |- _ => rewrite Z.gtb_ltb in H; apply Z.ltb_ge in H
         end.
  split; [reflexivity|]. split; [assumption|]. split; [apply trim_idempotent|].
  split; [assumption|]. split; [apply normalizeGroupNickname_idempotent|].
  split; [|lia].
  intros Hs.
  match goal with
  | H : _ \/ _ |- _ => destruct H as [H|H]; [congruence|apply negb_false_iff in H; exact H]
  end.
Qed.

Lemma scan_records_In fuel : forall buffer candidateSet i r,
  In r (scan_records toLowerCase fuel buffer candidateSet i) ->
  exists j, i <= j /\ accepted (scan_at toLowerCase buffer candidateSet j) = Some r.
Proof.
  induction fuel as [|fuel IH]; intros buffer cs i r H; cbn [scan_records] in H; [destruct H|].
  destruct (i <? buf_length buffer - 2); [|destruct H].
  pose proof (scan_at_advances toLowerCase buffer cs i) as Hadv.
  destruct (accepted (scan_at toLowerCase buffer cs i)) as [r0|] eqn:A.
  - destruct H as [<-|H]; [exists i; split; [lia|exact A]|].
    destruct (IH _ _ _ _ H) as (j & Hj & Hr). exists j. split; [lia|exact Hr].
  - destruct (IH _ _ _ _ H) as (j & Hj & Hr). exists j. split; [lia|exact Hr].
Qed.

Lemma first_writer_Some records key v :
  first_writer toLowerCase records key = Some v ->
  exists id, In (id, v) records /\ (id = key \/ toLowerCase id = key).
Proof.
  unfold first_writer. destruct (find _ records) as [[id w]|] eqn:F; [|discriminate].
  intros [= <-]. apply find_some in F. destruct F as (Hin & Hk). cbn [fst snd] in *.
  exists id. split; [exact Hin|].
  apply orb_true_iff in Hk. destruct Hk as [Hk|Hk]; apply str_eqb_eq in Hk; auto.
Qed.

Lemma parse_get buffer candidates key :
  map_get (parseGroupNicknamesFromExtBuffer toLowerCase buffer candidates) key =
  first_writer toLowerCase (accepted_records toLowerCase buffer candidates) key.
Proof.
  unfold parseGroupNicknamesFromExtBuffer, accepted_records.
  destruct (buf_length buffer =? 0); [reflexivity|].
  rewrite scan_loop_get. reflexivity.
Qed.

(** X4.  Every entry of the table comes from an accepted record: its key is
    the identifier of the record or its lowercase form, the identifier
    passed [isLikelyMemberId] and, when candidates were given, is one of
    them up to case; its value passed [isLikelyNickname], is not empty and
    is left as it is by [normalizeGroupNickname]. *)
Theorem parse_table_entries (buffer : Buffer) (candidates : list jsstring)
        (key v : jsstring) :
  map_get (parseGroupNicknamesFromExtBuffer toLowerCase buffer candidates) key = Some v ->
  exists id,
    (key = id \/ key = toLowerCase id)
    /\ In (id, v) (accepted_records toLowerCase buffer candidates)
    /\ isLikelyMemberId id = true
    /\ trim id = id
    /\ isLikelyNickname v = true
    /\ normalizeGroupNickname v = v
    /\ v <> []
    /\ (buildIdCandidates toLowerCase (map Some candidates) <> [] ->
        In (toLowerCase id)
           (map toLowerCase (buildIdCandidates toLowerCase (map Some candidates)))).
Proof.
  rewrite parse_get. intros H.
  destruct (first_writer_Some _ _ _ H) as (id & Hin & Hk).
  exists id. split; [destruct Hk; auto|]. split; [exact Hin|].
  unfold accepted_records in Hin.
  destruct (buf_length buffer =? 0); [destruct Hin|].
  destruct (scan_records_In _ _ _ _ _ Hin) as (j & _ & Hacc).
  destruct (scan_at_accepted _ _ _ _ _ Hacc) as (_ & Hid & Htrim & Hnick & Hnorm & Hcand & _).
  split; [exact Hid|]. split; [exact Htrim|]. split; [exact Hnick|]. split; [exact Hnorm|].
  split.
  - apply isLikelyNickname_truthy in Hnick. rewrite Hnorm in Hnick.
    intros ->. discriminate Hnick.
  - intros Hne. apply set_of_list_In, set_has_In, Hcand, truthy_set_of_list.
    destruct (buildIdCandidates toLowerCase (map Some candidates)); [congruence|discriminate].
Qed.

Lemma set_add_head k t x : exists t', set_add (k :: t) x = k :: t'.
Proof. unfold set_add. destruct (set_has (k :: t) x); eexists; cbn; reflexivity. Qed.

Lemma buildIdCandidates_loop_head values : forall k t,
  exists t', buildIdCandidates_loop toLowerCase values (k :: t) = k :: t'.
Proof.
  induction values as [|rv values IH]; intros k t; cbn [buildIdCandidates_loop].
  - eexists; reflexivity.
  - cbv zeta. destruct (negb (truthy _)); [apply IH|].
    destruct (set_add_head k t (trim match rv with Some v => v | None => [] end)) as (t1 & ->).
    destruct (_ && _); [|apply IH].
    destruct (set_add_head k t1 (cleanAccountDirName toLowerCase
                (trim match rv with Some v => v | None => [] end))) as (t2 & ->).
    apply IH.
Qed.

(** The first value that is not blank leads the candidates, trimmed. *)
Lemma buildIdCandidates_first v rest :
  trim v <> [] ->
  exists t, buildIdCandidates toLowerCase (Some v :: rest) = trim v :: t.
Proof.
  intros Hne. unfold buildIdCandidates. cbn [buildIdCandidates_loop]. cbv zeta.
  rewrite (proj2 (truthy_true _) Hne). cbn [negb].
  change (set_add [] (trim v)) with [trim v].
  destruct (_ && _); [|apply buildIdCandidates_loop_head].
  destruct (set_add_head (trim v) [] (cleanAccountDirName toLowerCase (trim v))) as (t1 & ->).
  apply buildIdCandidates_loop_head.
Qed.

Lemma exact_lookup_normalized table ids r :
  exact_lookup table ids = Some r -> normalizeGroupNickname r = r /\ r <> [].
Proof.
  induction ids as [|id ids IH]; cbn [exact_lookup]; [discriminate|]. cbv zeta.
  destruct (truthy _) eqn:T; [|exact IH].
  intros [= <-]. split; [apply normalizeGroupNickname_idempotent|].
  intros E. rewrite E in T. discriminate T.
Qed.

Lemma exact_lookup_nil ids : exact_lookup [] ids = None.
Proof. induction ids as [|id ids IH]; [reflexivity|exact IH]. Qed.

Lemma fallback_lookup_nil ids : fallback_lookup toLowerCase [] ids = [].
Proof. induction ids as [|id ids IH]; [reflexivity|exact IH]. Qed.

Lemma fallback_lookup_normalized table ids :
  normalizeGroupNickname (fallback_lookup toLowerCase table ids) =
  fallback_lookup toLowerCase table ids.
Proof.
  rewrite fallback_lookup_decided. unfold fallback_result.
  destruct (deciding_candidate _ _ _) as [id|]; [|reflexivity].
  destruct (nickname_matches _ _ _) as [|e [|e' more]]; try reflexivity.
  apply normalizeGroupNickname_idempotent.
Qed.

(** X5.  The edges of the lookup: the result is the empty string when the
    table is empty and when every candidate is blank, and whatever is
    returned is a normalized nickname: [normalizeGroupNickname] leaves it
    as it is. *)
Theorem resolve_edges (table : JsMap) (candidates : list jsstring) :
  resolveGroupNicknameByCandidates toLowerCase [] candidates = []
  /\ (Forall (fun c => trim c = []) candidates ->
      resolveGroupNicknameByCandidates toLowerCase table candidates = [])
  /\ normalizeGroupNickname (resolveGroupNicknameByCandidates toLowerCase table candidates)
     = resolveGroupNicknameByCandidates toLowerCase table candidates.
Proof.
  unfold resolveGroupNicknameByCandidates. cbv zeta.
  split; [|split].
  - destruct (buildIdCandidates _ _); [reflexivity|].
    rewrite exact_lookup_nil. apply fallback_lookup_nil.
  - intros Hblank.
    destruct (buildIdCandidates toLowerCase (map Some candidates)) as [|x ids] eqn:B;
      [reflexivity|].
    destruct (buildIdCandidates_loop_spec toLowerCase (map Some candidates) []
                (NoDup_nil _) (Forall_nil _)) as (_ & _ & _ & _ & Hfrom).
    unfold buildIdCandidates in B.
    cbv zeta in Hfrom.
    assert (Hx : In x (x :: ids)) by (left; reflexivity). rewrite <- B in Hx.
    destruct (Hfrom x Hx) as [[]|(v & Hin & Hne & _)].
    apply in_map_iff in Hin. destruct Hin as (c & [= ->] & Hc).
    rewrite Forall_forall in Hblank. destruct (Hne (Hblank _ Hc)).
  - destruct (buildIdCandidates _ _) as [|x ids]; [reflexivity|].
    destruct (exact_lookup _ _) as [r|] eqn:E.
    + apply (exact_lookup_normalized _ _ _ E).
    + apply fallback_lookup_normalized.
Qed.

(** X6.  An exact entry of the first candidate wins: when the table holds,
    under the trimmed first candidate, a nickname that normalization does
    not empty, that normalized nickname is the result, whatever the other
    candidates and entries are. *)
Theorem resolve_exact_first (table : JsMap) (c : jsstring) (others : list jsstring)
        (v : jsstring) :
  trim c <> [] ->
  map_get table (trim c) = Some v ->
  normalizeGroupNickname v <> [] ->
  resolveGroupNicknameByCandidates toLowerCase table (c :: others) = normalizeGroupNickname v.
Proof.
  intros Hne Hget Hv.
  unfold resolveGroupNicknameByCandidates. cbv zeta. cbn [map].
  destruct (buildIdCandidates_first c (map Some others) Hne) as (t & ->).
  cbn [exact_lookup]. cbv zeta. unfold get_or_empty. rewrite Hget.
  rewrite (proj2 (truthy_true _) Hv). reflexivity.
Qed.

(** X7.  What the parser stored under a key is what the lookup returns for
    it: a trimmed, non-empty key of the parsed table, given as the first
    candidate, resolves to the nickname stored under it. *)
Theorem resolve_parsed_key (buffer : Buffer) (candidates others : list jsstring)
        (key v : jsstring) :
  map_get (parseGroupNicknamesFromExtBuffer toLowerCase buffer candidates) key = Some v ->
  trim key = key -> key <> [] ->
  resolveGroupNicknameByCandidates toLowerCase
    (parseGroupNicknamesFromExtBuffer toLowerCase buffer candidates) (key :: others) = v.
Proof.
  intros Hget Htrim Hne.
  rewrite parse_get in Hget.
  destruct (first_writer_Some _ _ _ Hget) as (id & Hin & _).
  unfold accepted_records in Hin.
  destruct (buf_length buffer =? 0) eqn:L; [destruct Hin|].
  destruct (scan_records_In _ _ _ _ _ Hin) as (j & _ & Hacc).
  destruct (scan_at_accepted _ _ _ _ _ Hacc) as (_ & _ & _ & Hnick & Hnorm & _).
  apply isLikelyNickname_truthy in Hnick. rewrite Hnorm in Hnick.
  rewrite <- parse_get in Hget.
  unfold resolveGroupNicknameByCandidates. cbv zeta. cbn [map].
  destruct (buildIdCandidates_first key (map Some others)) as (t & ->);
    [rewrite Htrim; exact Hne|].
  cbn [exact_lookup]. cbv zeta. unfold get_or_empty. rewrite Htrim, Hget, Hnorm, Hnick.
  reflexivity.
Qed.

End ParseFacts.

Lemma parse_table_entries_witness :
  exists id,
    (str "wxid_abcd" = id \/ str "wxid_abcd" = asciiLower id)
    /\ In (id, str "Alice1") (accepted_records asciiLower sample_blob [])
    /\ isLikelyMemberId id = true
    /\ trim id = id
    /\ isLikelyNickname (str "Alice1") = true
    /\ normalizeGroupNickname (str "Alice1") = str "Alice1"
    /\ str "Alice1" <> []
    /\ (buildIdCandidates asciiLower (map Some []) <> [] ->
        In (asciiLower id) (map asciiLower (buildIdCandidates asciiLower (map Some [])))).
Proof.
  apply (parse_table_entries asciiLower sample_blob [] (str "wxid_abcd") (str "Alice1")).
  vm_compute. reflexivity.
Defined.

Lemma resolve_exact_first_witness :
  resolveGroupNicknameByCandidates asciiLower
    [(str "wxid_abcd", str " Alice "); (str "WXID_ABCD", str "Bob")]
    [str " wxid_abcd "; str "other"] = normalizeGroupNickname (str " Alice ").
Proof.
  apply (resolve_exact_first asciiLower
           [(str "wxid_abcd", str " Alice "); (str "WXID_ABCD", str "Bob")]
           (str " wxid_abcd ") [str "other"] (str " Alice ")).
  - vm_compute. discriminate.
  - vm_compute. reflexivity.
  - vm_compute. discriminate.
Defined.

Lemma resolve_parsed_key_witness :
  resolveGroupNicknameByCandidates asciiLower
    (parseGroupNicknamesFromExtBuffer asciiLower sample_blob [])
    [str "wxid_abcd"; str "other"] = str "Alice1".
Proof.
  apply (resolve_parsed_key asciiLower sample_blob [] [str "other"]
           (str "wxid_abcd") (str "Alice1")).
  - vm_compute. reflexivity.
  - vm_compute. reflexivity.
  - vm_compute. discriminate.
Defined.

(** ** Paging over a stable dataset *)




Section DatasetFacts.

Variable Row : Type.
Variable policy : FlagPolicy.
Variable rows : list Row.
Variable batchSize : Z.
Hypothesis batch_pos : 1 <= batchSize.






End DatasetFacts.




(** ** The messages handler *)

Section HandlerFacts.

Variable Row : Type.
Variable Message : Type.
Variable mapRowsToMessagesForApi : list Row -> list Message.
Variable toLowerCase : jsstring -> jsstring.
Variable parsedContent : Message -> option jsstring.
Variable rawContent : Message -> option jsstring.


Lemma handleMessages_checked store req :
  well_formed toLowerCase req ->
  handleMessages Row Message mapRowsToMessagesForApi toLowerCase
      parsedContent rawContent store req =
  let talker := trim (or_empty (q_talker req)) in
  let keyword := effective_keyword toLowerCase req in
  let queryOffset := if truthy keyword then 0 else effective_offset req in
  let queryLimit := if truthy keyword then 10000 else effective_limit req in
  let query := mkQuery talker queryOffset queryLimit (q_start req) (q_end req) true in
  match fetchMessagesBatch Row Message mapRowsToMessagesForApi store
          talker queryOffset queryLimit (q_start req) (q_end req) true with
  | Failure => mkHandled Message (Some query) (ErrorResponse Message 500)
  | Success page =>
    let selection :=
      if truthy keyword then
        (js_slice (keyword_filter Message toLowerCase parsedContent rawContent
                                  keyword (messages page))
                  (effective_offset req) (js_add (effective_offset req) (effective_limit req)),
         Z.of_nat (length (keyword_filter Message toLowerCase parsedContent rawContent
                                          keyword (messages page)))
         >? js_add (effective_offset req) (effective_limit req))
      else (messages page, hasMore page) in
    mkHandled Message (Some query)
      (if str_eqb (effective_format toLowerCase req) (str "chatlab")
       then ChatLabResponse Message (fst selection)
       else JsonResponse Message (Z.of_nat (length (fst selection))) (snd selection)
                         (fst selection))
  end.
Proof.
  intros (Htalker & Hformat).
  unfold handleMessages. cbv zeta.
  fold (effective_format toLowerCase req).
  rewrite (proj2 (truthy_true _) Htalker). cbn [negb].
  assert (Hf : negb (str_eqb (effective_format toLowerCase req) (str "json"))
               && negb (str_eqb (effective_format toLowerCase req) (str "chatlab")) = false).
  { destruct Hformat as [-> | ->]; reflexivity. }
  rewrite Hf. reflexivity.
Qed.

Lemma handleMessages_unchecked store req :
  ~ well_formed toLowerCase req ->
  handleMessages Row Message mapRowsToMessagesForApi toLowerCase
      parsedContent rawContent store req = mkHandled Message None (ErrorResponse Message 400).
Proof.
  intros Hbad. unfold handleMessages. cbv zeta.
  fold (effective_format toLowerCase req).
  destruct (truthy (trim (or_empty (q_talker req)))) eqn:T; cbn [negb]; [|reflexivity].
  destruct (str_eqb (effective_format toLowerCase req) (str "json")) eqn:J;
    [exfalso; apply Hbad; split;
     [apply truthy_true; exact T|left; apply str_eqb_eq; exact J]|].
  destruct (str_eqb (effective_format toLowerCase req) (str "chatlab")) eqn:C;
    [exfalso; apply Hbad; split;
     [apply truthy_true; exact T|right; apply str_eqb_eq; exact C]|].
  reflexivity.
Qed.

Lemma well_formed_dec req :
  well_formed toLowerCase req \/ ~ well_formed toLowerCase req.
Proof.
  unfold well_formed.
  destruct (trim (or_empty (q_talker req))) as [|c s];
    [right; intros (H & _); apply H; reflexivity|].
  destruct (str_eqb (effective_format toLowerCase req) (str "json")) eqn:J;
    [left; split; [discriminate|left; apply str_eqb_eq; exact J]|].
  destruct (str_eqb (effective_format toLowerCase req) (str "chatlab")) eqn:C;
    [left; split; [discriminate|right; apply str_eqb_eq; exact C]|].
  right. intros (_ & [E|E]); rewrite E in *; discriminate.
Qed.

(** X9.  The handler answers 400 exactly to the requests that fail its
    checks (a talker that is blank once trimmed, or a format other than
    json and chatlab), and these are exactly the requests for which it
    does not query the store. *)
Theorem handleMessages_rejects (store : Store Row) (req : Request) :
  (response Message (handleMessages Row Message mapRowsToMessagesForApi toLowerCase
      parsedContent rawContent store req) = ErrorResponse Message 400
   <-> ~ well_formed toLowerCase req)
  /\ (queried Message (handleMessages Row Message mapRowsToMessagesForApi toLowerCase
      parsedContent rawContent store req) = None <-> ~ well_formed toLowerCase req).
Proof.
  destruct (well_formed_dec req) as [Hok|Hbad].
  - rewrite (handleMessages_checked store req Hok). cbv zeta.
    destruct (fetchMessagesBatch _ _ _ _ _ _ _ _ _ _) as [|page]; cbn [response queried].
    + split; split; try discriminate; intros H; destruct (H Hok).
    + split; (split; [|intros H; destruct (H Hok)]);
        [destruct (str_eqb _ _); discriminate|discriminate].
  - rewrite (handleMessages_unchecked store req Hbad). cbn [response queried].
    split; split; auto.
Qed.

(** X10.  Whatever the request, a query that the handler makes is for the
    trimmed talker, which is not empty, in ascending order, with the time
    range of the request, an offset in [0, 2^53 - 1] and a limit in
    [1, 10000]. *)
Theorem handleMessages_query_bounds (store : Store Row) (req : Request) (q : Query) :
  queried Message (handleMessages Row Message mapRowsToMessagesForApi toLowerCase
      parsedContent rawContent store req) = Some q ->
  query_talker q = trim (or_empty (q_talker req))
  /\ query_talker q <> []
  /\ 0 <= query_offset q <= MAX_SAFE_INTEGER
  /\ 1 <= query_limit q <= 10000
  /\ query_start q = q_start req
  /\ query_end q = q_end req
  /\ query_ascending q = true.
Proof.
  destruct (well_formed_dec req) as [Hok|Hbad].
  2:{ rewrite (handleMessages_unchecked store req Hbad). discriminate. }
  rewrite (handleMessages_checked store req Hok). cbv zeta.
  pose proof (effective_offset_range req) as Ho.
  pose proof (effective_limit_range req) as Hl.
  assert (Hm : 0 <= MAX_SAFE_INTEGER) by (unfold MAX_SAFE_INTEGER; lia).
  destruct Hok as (Htalker & _).
  destruct (fetchMessagesBatch _ _ _ _ _ _ _ _ _ _); cbn [queried]; intros [= <-];
    cbn [query_talker query_offset query_limit query_start query_end query_ascending];
    (destruct (truthy (effective_keyword toLowerCase req));
     repeat split; try assumption; try lia).
Qed.

(** X11.  Without a keyword the handler pages in the store: a request
    that passes the checks and whose keyword is empty once trimmed and
    lowercased is answered with the page that [fetchMessagesBatch] returns
    for the offset and the limit of the request, messages and [hasMore]
    unchanged, and with 500 when the fetch fails. *)
Theorem handleMessages_plain (store : Store Row) (req : Request) :
  well_formed toLowerCase req ->
  effective_keyword toLowerCase req = [] ->
  let answer := response Message (handleMessages Row Message mapRowsToMessagesForApi toLowerCase
      parsedContent rawContent store req) in
  match fetchMessagesBatch Row Message mapRowsToMessagesForApi store
          (trim (or_empty (q_talker req)))
              (effective_offset req) (effective_limit req) (q_start req) (q_end req) true with
  | Failure => answer = ErrorResponse Message 500
  | Success page =>
    reported_messages Message answer = Some (messages page)
    /\ (effective_format toLowerCase req = str "json" ->
        answer = JsonResponse Message (Z.of_nat (length (messages page))) (hasMore page)
                              (messages page))
  end.
Proof.
  intros Hok Hkw. cbv zeta.
  rewrite (handleMessages_checked store req Hok). cbv zeta. rewrite Hkw. cbn [truthy].
  destruct (fetchMessagesBatch _ _ _ _ _ _ _ _ _ _) as [|page]; cbn [response]; [reflexivity|].
  cbn [fst snd]. split.
  - destruct (str_eqb _ _); reflexivity.
  - intros ->. reflexivity.
Qed.


End HandlerFacts.

Lemma handleMessages_query_bounds_witness :
  query_talker (mkQuery (str "room") 0 10000 0 0 true)
    = trim (or_empty (q_talker search_json))
  /\ query_talker (mkQuery (str "room") 0 10000 0 0 true) <> []
  /\ 0 <= query_offset (mkQuery (str "room") 0 10000 0 0 true) <= MAX_SAFE_INTEGER
  /\ 1 <= query_limit (mkQuery (str "room") 0 10000 0 0 true) <= 10000
  /\ query_start (mkQuery (str "room") 0 10000 0 0 true) = q_start search_json
  /\ query_end (mkQuery (str "room") 0 10000 0 0 true) = q_end search_json
  /\ query_ascending (mkQuery (str "room") 0 10000 0 0 true) = true.
Proof.
  apply (handleMessages_query_bounds jsstring jsstring (fun rows => rows) asciiLower
           (fun msg => Some msg) (fun _ => None) chat_store search_json).
  vm_compute. reflexivity.
Defined.

Lemma handleMessages_plain_witness :
  let answer := response jsstring (chat_handler search_blank) in
  match fetchMessagesBatch jsstring jsstring (fun rows => rows) chat_store
          (trim (or_empty (q_talker search_blank)))
          (effective_offset search_blank) (effective_limit search_blank)
          (q_start search_blank) (q_end search_blank) true with
  | Failure => answer = ErrorResponse jsstring 500
  | Success page =>
    reported_messages jsstring answer = Some (messages page)
    /\ (effective_format asciiLower search_blank = str "json" ->
        answer = JsonResponse jsstring (Z.of_nat (length (messages page))) (hasMore page)
                              (messages page))
  end.
Proof.
  apply (handleMessages_plain jsstring jsstring (fun rows => rows) asciiLower
           (fun msg => Some msg) (fun _ => None) chat_store search_blank).
  - split; [vm_compute; discriminate|left; vm_compute; reflexivity].
  - vm_compute. reflexivity.
Defined.


(** ** Message content and the ChatLab conversion *)

Lemma entries_has_keys {V : Type} (m : list (jsstring * V)) k :
  entries_has m k = set_has (map fst m) k.
Proof.
  unfold entries_has, set_has. induction m as [|(k', v) m IH]; [reflexivity|].
  cbn [existsb map fst]. rewrite IH. f_equal.
  destruct (str_eqb_spec k' k) as [->|N]; [symmetry; apply str_eqb_refl|].
  symmetry. destruct (str_eqb_spec k k'); congruence.
Qed.

Lemma entries_set_fresh {V : Type} (m : list (jsstring * V)) k v :
  entries_has m k = false -> entries_set m k v = m ++ [(k, v)].
Proof.
  unfold entries_has. induction m as [|(k', v') m IH]; [reflexivity|].
  cbn [existsb fst entries_set app]. intros H. apply orb_false_iff in H.
  destruct H as (-> & H). rewrite (IH H). reflexivity.
Qed.

Lemma or_null_Some a v : or_null a = Some v -> v <> [] /\ a = Some v.
Proof.
  unfold or_null. destruct a as [[|c s]|]; cbn; try discriminate.
  intros [= <-]. split; [discriminate|reflexivity].
Qed.

Lemma or_else_nonempty a b : b <> [] -> or_else a b <> [].
Proof.
  intros Hb. unfold or_else. destruct (truthy (or_empty a)) eqn:T; [|exact Hb].
  apply truthy_true. exact T.
Qed.

Section ConvertFacts.

Variable Message : Type.
Variable toLowerCase : jsstring -> jsstring.
Variable localId : Message -> Z.
Variable serverId : Message -> option jsstring.
Variable localType : Message -> Z.
Variable createTime : Message -> Z.
Variable isSend : Message -> option Z.
Variable senderUsername : Message -> option jsstring.
Variable parsedContent : Message -> option jsstring.
Variable rawContent : Message -> option jsstring.
Variable cardNickname : Message -> option jsstring.
Variable linkTitle : Message -> option jsstring.
Variable fileName : Message -> option jsstring.
Variable xmlType : Message -> option jsstring.
Variable getDisplayNames : list jsstring -> jsstring -> option jsstring.
Variable getGroupNicknames : jsstring -> option JsMap.
Variable myWxidConfig : option jsstring.

(** X13.  The content of a message is never the empty string: it is null
    or a string with at least one code unit.  It is null only for a
    message with nothing to search, of a type other than 3, 34, 43, 47, 42,
    48 and 49; and outside these types it is, when not null, the very
    content that the keyword search of the handler looks into. *)
Theorem getMessageContent_shown (msg : Message) :
  let shown := getMessageContent Message localType parsedContent rawContent
                                 cardNickname linkTitle fileName msg in
  let searched := resolved_content Message parsedContent rawContent msg in
  let placeholder_type :=
      existsb (Z.eqb (localType msg)) [3; 34; 43; 47; 42; 48; 49] in
  shown <> Some []
  /\ (shown = None -> placeholder_type = false /\ searched = [])
  /\ (placeholder_type = false -> or_empty shown = searched)
  /\ (or_empty (parsedContent msg) <> [] -> shown = Some searched).
Proof.
  cbv zeta. unfold getMessageContent, resolved_content, or_null.
  assert (Hcard : or_else (cardNickname msg) s_card <> [])
    by (apply or_else_nonempty; discriminate).
  assert (Hlink : or_else (linkTitle msg) (or_else (fileName msg) s_message) <> [])
    by (apply or_else_nonempty, or_else_nonempty; discriminate).
  cbn [existsb].
  destruct (parsedContent msg) as [[|c p]|]; cbn [or_empty truthy];
    [|repeat split; try congruence; discriminate|];
    (destruct (localType msg =? 1) eqn:T1;
     [apply Z.eqb_eq in T1; rewrite T1; cbn;
      destruct (rawContent msg) as [[|c r]|]; cbn;
      repeat split; try congruence; discriminate|]);
    (destruct (localType msg =? 3);
     [cbn; repeat split; try congruence; discriminate|]);
    (destruct (localType msg =? 34);
     [cbn; repeat split; try congruence; discriminate|]);
    (destruct (localType msg =? 43);
     [cbn; repeat split; try congruence; discriminate|]);
    (destruct (localType msg =? 47);
     [cbn; repeat split; try congruence; discriminate|]);
    (destruct (localType msg =? 42);
     [cbn; repeat split; try congruence; discriminate|]);
    (destruct (localType msg =? 48);
     [cbn; repeat split; try congruence; discriminate|]);
    (destruct (localType msg =? 49);
     [cbn; repeat split; try congruence; discriminate|]);
    cbn; destruct (rawContent msg) as [[|c r]|]; cbn;
    repeat split; try congruence; discriminate.
Qed.

(** The keys of the member map are the sender set, and each member is
    the one built for its key. *)
Lemma memberMap_loop_spec isGroup gm senderNames myWxid messages :
  forall memberMap,
    Forall (fun e => snd e = member_of toLowerCase isGroup gm senderNames myWxid (fst e))
           memberMap ->
    let result := memberMap_loop Message toLowerCase senderUsername
                                 isGroup gm senderNames myWxid messages memberMap in
    map fst result
    = fold_left (fun set msg =>
                   if truthy (or_empty (senderUsername msg))
                   then set_add set (or_empty (senderUsername msg)) else set)
                messages (map fst memberMap)
    /\ Forall (fun e => snd e = member_of toLowerCase isGroup gm senderNames myWxid (fst e))
              result.
Proof.
  induction messages as [|msg rest IH]; intros memberMap Hinv; cbn [memberMap_loop fold_left].
  - split; [reflexivity|exact Hinv].
  - cbv zeta. rewrite entries_has_keys.
    destruct (truthy (or_empty (senderUsername msg))); cbn [andb]; [|apply IH; exact Hinv].
    unfold set_add.
    destruct (set_has (map fst memberMap) (or_empty (senderUsername msg))) eqn:H;
      cbn [negb]; [apply IH; exact Hinv|].
    rewrite <- entries_has_keys in H. rewrite (entries_set_fresh _ _ _ H).
    specialize (IH (memberMap ++
                      [(or_empty (senderUsername msg),
                        member_of toLowerCase isGroup gm senderNames myWxid
                                  (or_empty (senderUsername msg)))])).
    cbv zeta in IH. rewrite map_app in IH. cbn [map fst] in IH. apply IH.
    apply Forall_app. split; [exact Hinv|]. constructor; [reflexivity|constructor].
Qed.

Lemma senderSet_spec messages :
  NoDup (senderSet Message senderUsername messages)
  /\ forall s, In s (senderSet Message senderUsername messages)
               <-> s <> [] /\ exists msg, In msg messages /\ senderUsername msg = Some s.
Proof.
  unfold senderSet.
  assert (H : forall set,
             NoDup set ->
             NoDup (fold_left (fun set msg =>
                                 if truthy (or_empty (senderUsername msg))
                                 then set_add set (or_empty (senderUsername msg)) else set)
                              messages set)
             /\ forall s,
                 In s (fold_left (fun set msg =>
                                    if truthy (or_empty (senderUsername msg))
                                    then set_add set (or_empty (senderUsername msg)) else set)
                                 messages set)
                 <-> In s set
                     \/ (s <> [] /\ exists msg, In msg messages /\ senderUsername msg = Some s)).
  { induction messages as [|msg rest IH]; intros set Hset; cbn [fold_left].
    - split; [exact Hset|]. intros s. split; [auto|].
      intros [H|(_ & m & [] & _)]. exact H.
    - destruct (truthy (or_empty (senderUsername msg))) eqn:T.
      + destruct (IH (set_add set (or_empty (senderUsername msg)))
                     (set_add_NoDup _ _ Hset)) as (Hnd & Hin).
        split; [exact Hnd|]. intros s. rewrite Hin, set_add_In.
        assert (Hsome : senderUsername msg = Some (or_empty (senderUsername msg))).
        { destruct (senderUsername msg); [reflexivity|discriminate T]. }
        split.
        * intros [[H| ->]|(Hs & m & Hm & E)]; [auto| |].
          -- right. split; [apply truthy_true; exact T|].
             exists msg. split; [left; reflexivity|exact Hsome].
          -- right. split; [exact Hs|]. exists m. split; [right; exact Hm|exact E].
        * intros [H|(Hs & m & [<-|Hm] & E)]; [auto| |].
          -- left. right. rewrite E. reflexivity.
          -- right. split; [exact Hs|]. exists m. split; [exact Hm|exact E].
      + destruct (IH set Hset) as (Hnd & Hin).
        split; [exact Hnd|]. intros s. rewrite Hin.
        split.
        * intros [H|(Hs & m & Hm & E)]; [auto|].
          right. split; [exact Hs|]. exists m. split; [right; exact Hm|exact E].
        * intros [H|(Hs & m & [<-|Hm] & E)]; [auto| |].
          -- rewrite E in T. cbn in T. apply truthy_true in Hs. congruence.
          -- right. split; [exact Hs|]. exists m. split; [exact Hm|exact E]. }
  destruct (H [] (NoDup_nil _)) as (Hnd & Hin).
  split; [exact Hnd|]. intros s. rewrite Hin. split; [intros [[]|G]; exact G|auto].
Qed.

(** X14.  The members of a converted conversation are its senders: their
    identifiers are the senders of the messages that name one, each once,
    in the order of first appearance (the very list for which display
    names were asked). *)
Theorem convertToChatLab_members (messages : list Message) (talkerId talkerName : jsstring)
        (mediaMap : Z -> option jsstring) (nowMs : Z) :
  let data := convertToChatLab Message toLowerCase localId serverId localType createTime
                isSend senderUsername parsedContent rawContent cardNickname linkTitle
                fileName xmlType getDisplayNames getGroupNicknames myWxidConfig
                messages talkerId talkerName mediaMap nowMs in
  map platformId (members data) = senderSet Message senderUsername messages
  /\ NoDup (map platformId (members data))
  /\ forall s, In s (map platformId (members data))
               <-> s <> [] /\ exists msg, In msg messages /\ senderUsername msg = Some s.
Proof.
  cbv zeta. unfold convertToChatLab. cbv zeta. cbn [members].
  set (isGroup := endsWith talkerId s_chatroom).
  set (gm := if isGroup then _ else _).
  set (names := getDisplayNames _).
  set (me := or_else myWxidConfig []).
  destruct (memberMap_loop_spec isGroup gm names me messages [] (Forall_nil _))
    as (Hkeys & Hinv).
  assert (Hids : map platformId
                   (map snd (memberMap_loop Message toLowerCase senderUsername
                                            isGroup gm names me messages []))
                 = senderSet Message senderUsername messages).
  { transitivity (map fst (memberMap_loop Message toLowerCase senderUsername
                                          isGroup gm names me messages []));
      [|exact Hkeys].
    rewrite map_map. apply map_ext_in.
    intros e He. rewrite Forall_forall in Hinv. rewrite (Hinv e He). reflexivity. }
  rewrite Hids. split; [reflexivity|]. apply senderSet_spec.
Qed.

(** X15.  The messages of a converted conversation are those given, one
    for one and in order, and every one that names a sender has that
    sender among the members, with the same group nickname; outside a
    group chat no message and no member carries a group nickname. *)
Theorem convertToChatLab_messages (messages : list Message) (talkerId talkerName : jsstring)
        (mediaMap : Z -> option jsstring) (nowMs : Z) :
  let data := convertToChatLab Message toLowerCase localId serverId localType createTime
                isSend senderUsername parsedContent rawContent cardNickname linkTitle
                fileName xmlType getDisplayNames getGroupNicknames myWxidConfig
                messages talkerId talkerName mediaMap nowMs in
  map sender (chatlab_messages data)
  = map (fun msg => or_empty (senderUsername msg)) messages
  /\ map timestamp (chatlab_messages data) = map createTime messages
  /\ (forall m, In m (chatlab_messages data) -> sender m <> [] ->
        exists member, In member (members data)
                       /\ platformId member = sender m
                       /\ groupNickname member = msg_groupNickname m)
  /\ (endsWith talkerId s_chatroom = false ->
      Forall (fun m => msg_groupNickname m = None) (chatlab_messages data)
      /\ Forall (fun member => groupNickname member = None) (members data)).
Proof.
  cbv zeta. unfold convertToChatLab. cbv zeta. cbn [members chatlab_messages].
  set (isGroup := endsWith talkerId s_chatroom).
  set (gm := if isGroup then _ else _).
  set (names := getDisplayNames _).
  set (me := or_else myWxidConfig []).
  destruct (memberMap_loop_spec isGroup gm names me messages [] (Forall_nil _))
    as (Hkeys & Hinv).
  change (map fst (memberMap_loop Message toLowerCase senderUsername
                                  isGroup gm names me messages [])
          = senderSet Message senderUsername messages) in Hkeys.
  rewrite Forall_forall in Hinv.
  split; [rewrite map_map; reflexivity|].
  split; [rewrite map_map; reflexivity|].
  split.
  - intros m Hm Hs. apply in_map_iff in Hm. destruct Hm as (msg & <- & Hmsg).
    cbn [sender msg_groupNickname message_of] in *.
    assert (Hin : In (or_empty (senderUsername msg))
                     (senderSet Message senderUsername messages)).
    { apply senderSet_spec. split; [exact Hs|]. exists msg. split; [exact Hmsg|].
      destruct (senderUsername msg); [reflexivity|destruct (Hs eq_refl)]. }
    rewrite <- Hkeys in Hin. apply in_map_iff in Hin. destruct Hin as (e & Hk & He).
    exists (snd e). split; [apply in_map; exact He|].
    rewrite (Hinv e He), Hk. split; reflexivity.
  - intros Hprivate. split; apply Forall_forall.
    + intros m Hm. apply in_map_iff in Hm. destruct Hm as (msg & <- & _).
      cbn [msg_groupNickname message_of]. unfold groupNickname_of. rewrite Hprivate.
      reflexivity.
    + intros member Hm. apply in_map_iff in Hm. destruct Hm as (e & <- & He).
      rewrite (Hinv e He). cbn [groupNickname member_of]. unfold groupNickname_of.
      rewrite Hprivate. reflexivity.
Qed.

End ConvertFacts.

(** ** Names and fields written to files *)

(** ** Names and fields written to files *)

Lemma dropWhile_head p s c rest : dropWhile p s = c :: rest -> p c = false.
Proof.
  induction s as [|x s IH]; cbn; [discriminate|].
  destruct (p x) eqn:E; [exact IH|]. intros [= <- _]. exact E.
Qed.

Lemma strip_trailing_dots_last s : last (strip_trailing_dots s) 0 <> 46.
Proof.
  unfold strip_trailing_dots.
  destruct (dropWhile (fun c => c =? 46) (rev s)) as [|c u] eqn:E; [cbn; lia|].
  apply dropWhile_head in E. cbn [rev]. rewrite last_last.
  apply Z.eqb_neq. exact E.
Qed.

Lemma trim_length s : (length (trim s) <= length s)%nat.
Proof.
  unfold trim.
  destruct (trimStart_suffix s) as (p & Hp).
  destruct (trimStart_suffix (rev (trimStart s))) as (q & Hq).
  rewrite length_rev.
  apply (f_equal (@length Z)) in Hp, Hq. rewrite length_app in Hp, Hq.
  rewrite length_rev in Hq. lia.
Qed.

Lemma dropWhile_split p s :
  exists q, s = q ++ dropWhile p s /\ forallb p q = true.
Proof.
  induction s as [|c s (q & IH & Hq)]; [exists []; split; reflexivity|]. cbn.
  destruct (p c) eqn:E.
  - exists (c :: q). cbn. rewrite E, Hq. split; [f_equal; exact IH|reflexivity].
  - exists []. split; reflexivity.
Qed.

Lemma strip_trailing_dots_split s :
  exists dots, s = strip_trailing_dots s ++ dots
               /\ forallb (fun c => c =? 46) dots = true.
Proof.
  unfold strip_trailing_dots.
  destruct (dropWhile_split (fun c => c =? 46) (rev s)) as (q & Hq & Hdots).
  exists (rev q). split.
  - rewrite <- rev_app_distr, <- Hq. symmetry. apply rev_involutive.
  - rewrite forallb_forall in *. intros c Hc. apply Hdots, in_rev. exact Hc.
Qed.

(** X16.  [sanitizeFileName] returns the trimmed value with every
    character of its class replaced by an underscore and the dots at its
    end removed, or the fallback, as it is, exactly when nothing is left.
    The class is [file_special]: < > : / \ | ? and asterisk, the double
    quote and the code units U+0000 to U+001F; every other code unit is
    kept as it is.  A name that is built from the value is not empty,
    holds no character of the class, does not end with a dot, does not
    start with a blank and is no longer than the value.  Nothing else is
    removed: what the result lacks of the replaced value is a run of dots
    at its end. *)
Theorem sanitizeFileName_spec (value : option jsstring) (fallback : jsstring) :
  let replaced := map (fun c => if file_special c then 95 else c)
                      (trim (or_empty value)) in
  let result := sanitizeFileName value fallback in
  exists cleaned dots,
    replaced = cleaned ++ dots
    /\ forallb (fun c => c =? 46) dots = true
    /\ last cleaned 0 <> 46
    /\ (cleaned = [] -> result = fallback)
    /\ (cleaned <> [] ->
        result = cleaned
        /\ forallb (fun c => negb (file_special c)) result = true
        /\ head_not_ws result
        /\ (length result <= length (or_empty value))%nat).
Proof.
  cbv zeta. unfold sanitizeFileName. cbv zeta.
  set (replaced := map (fun c => if file_special c then 95 else c) (trim (or_empty value))).
  destruct (strip_trailing_dots_split replaced) as (dots & Hdots & Hall_dots).
  exists (strip_trailing_dots replaced), dots.
  split; [exact Hdots|]. split; [exact Hall_dots|].
  split; [apply strip_trailing_dots_last|].
  split; [intros ->; reflexivity|].
  intros Hne. rewrite (proj2 (truthy_true _) Hne).
  split; [reflexivity|].
  assert (Hall : forallb (fun c => negb (file_special c)) replaced = true).
  { unfold replaced. rewrite forallb_forall. intros c Hc.
    apply in_map_iff in Hc. destruct Hc as (x & <- & _).
    destruct (file_special x) eqn:E; [reflexivity|]. rewrite E. reflexivity. }
  split.
  { rewrite Hdots, forallb_app in Hall. apply andb_true_iff in Hall. tauto. }
  split.
  - apply (head_not_ws_app _ dots Hne). rewrite <- Hdots. unfold replaced.
    pose proof (proj1 (trim_edges (or_empty value))) as Hhead.
    destruct (trim (or_empty value)) as [|c t]; [exact I|]. cbn in *.
    destruct (file_special c); [reflexivity|exact Hhead].
  - apply (f_equal (@length Z)) in Hdots. rewrite length_app in Hdots.
    unfold replaced in Hdots at 1. rewrite length_map in Hdots.
    pose proof (trim_length (or_empty value)). lia.
Qed.

(** What the class leaves alone: U+007F and U+0085 are kept, and a blank
    that stood before the last dots ends the name. *)
Example sanitizeFileName_kept :
  sanitizeFileName (Some [97; 0x7f; 0x85; 0x1f]) (str "file") = [97; 0x7f; 0x85; 95].
Proof. vm_compute. reflexivity. Qed.

Example sanitizeFileName_blank_end :
  sanitizeFileName (Some (str "a. .")) (str "file") = str "a. ".
Proof. vm_compute. reflexivity. Qed.

Lemma replace_sheet_special_plain s :
  forallb (fun c => negb (c =? 93)) s = true -> replace_sheet_special s = s.
Proof.
  induction s as [|c s IH]; [reflexivity|].
  intros H. cbn [forallb] in H. apply andb_true_iff in H. destruct H as (_ & H).
  specialize (IH H). cbn [replace_sheet_special].
  destruct s as [|d rest]; [reflexivity|].
  cbn [forallb] in H. apply andb_true_iff in H. destruct H as (Hd & _).
  apply negb_true_iff in Hd. rewrite Hd, andb_false_r. rewrite IH. reflexivity.
Qed.

(** X17.  A worksheet name is never empty and never longer than 31 code
    units.  The pattern of the replacement needs a closing bracket after
    the special character, so in a name without a closing bracket nothing
    is replaced: the name is trimmed, cut to 31 code units, and replaced by
    Sheet1 when nothing is left. *)
Theorem sanitizeWorksheetName_spec (name : option jsstring) :
  let result := sanitizeWorksheetName name in
  result <> []
  /\ (length result <= 31)%nat
  /\ (forallb (fun c => negb (c =? 93)) (or_empty name) = true ->
      result = if truthy (firstn 31 (trim (or_empty name)))
               then firstn 31 (trim (or_empty name)) else str "Sheet1").
Proof.
  cbv zeta. unfold sanitizeWorksheetName. cbv zeta.
  rewrite js_slice_firstn by lia. change (Z.to_nat 31) with 31%nat.
  split; [|split].
  - destruct (truthy _) eqn:T; [apply truthy_true; exact T|discriminate].
  - destruct (truthy _); [rewrite length_firstn; lia|cbn; lia].
  - intros H. rewrite (replace_sheet_special_plain _ H). reflexivity.
Qed.

(** The text after a field of a line: nothing, or a comma and the rest. *)
Lemma join_cons sep p rest :
  join sep (p :: rest) = p ++ match rest with [] => [] | _ :: _ => sep ++ join sep rest end.
Proof. destruct rest; cbn [join]; [symmetry; apply app_nil_r|reflexivity]. Qed.

Lemma double_quotes_cancel a : forall b ra rb,
  (ra = [] \/ exists r, ra = 44 :: r) -> (rb = [] \/ exists r, rb = 44 :: r) ->
  double_quotes a ++ 34 :: ra = double_quotes b ++ 34 :: rb ->
  a = b /\ ra = rb.
Proof.
  induction a as [|x a IH]; intros b ra rb Ha Hb E.
  - destruct b as [|y b]; cbn in E; [injection E as <-; auto|].
    exfalso. destruct (Z.eqb_spec y 34) as [->|N]; cbn in E.
    + injection E as E. destruct Ha as [->|(r & ->)]; discriminate.
    + injection E as E. congruence.
  - destruct b as [|y b]; cbn [double_quotes app] in E.
    + exfalso. destruct (Z.eqb_spec x 34) as [->|N]; cbn in E.
      * injection E as E. destruct Hb as [->|(r & ->)]; discriminate.
      * injection E as E. congruence.
    + destruct (Z.eqb_spec x 34) as [->|Nx]; destruct (Z.eqb_spec y 34) as [->|Ny];
        cbn [app] in E.
      * injection E as E. destruct (IH _ _ _ Ha Hb E) as (-> & ->). auto.
      * injection E as E1 E2. congruence.
      * injection E as E1 E2. congruence.
      * injection E as -> E. destruct (IH _ _ _ Ha Hb E) as (-> & ->). auto.
Qed.

Lemma plain_field_cancel a : forall b ra rb,
  existsb csv_special a = false -> existsb csv_special b = false ->
  (ra = [] \/ exists r, ra = 44 :: r) -> (rb = [] \/ exists r, rb = 44 :: r) ->
  a ++ ra = b ++ rb ->
  a = b /\ ra = rb.
Proof.
  induction a as [|x a IH]; intros b ra rb Sa Sb Ha Hb E.
  - destruct b as [|y b]; cbn in E; [auto|]. exfalso.
    cbn in Sb. apply orb_false_iff in Sb. destruct Sb as (Sy & _).
    destruct Ha as [->|(r & ->)]; [discriminate|].
    injection E as <- _. discriminate Sy.
  - cbn in Sa. apply orb_false_iff in Sa. destruct Sa as (Sx & Sa).
    destruct b as [|y b]; cbn in E.
    + exfalso. destruct Hb as [->|(r & ->)]; [discriminate|].
      injection E as -> _. discriminate Sx.
    + cbn in Sb. apply orb_false_iff in Sb. destruct Sb as (_ & Sb).
      injection E as -> E. destruct (IH _ _ _ Sa Sb Ha Hb E) as (-> & ->). auto.
Qed.

(** A field is read off the text that it starts: no escaped field
    followed by a comma or by the end is the start of another. *)
Lemma escapeCsvValue_cancel a b ra rb :
  (ra = [] \/ exists r, ra = 44 :: r) -> (rb = [] \/ exists r, rb = 44 :: r) ->
  escapeCsvValue (Some a) ++ ra = escapeCsvValue (Some b) ++ rb ->
  a = b /\ ra = rb.
Proof.
  intros Ha Hb. unfold escapeCsvValue.
  destruct (existsb csv_special a) eqn:Sa; destruct (existsb csv_special b) eqn:Sb.
  - cbn [app]. rewrite <- !app_assoc. cbn [app]. intros [= E].
    exact (double_quotes_cancel _ _ _ _ Ha Hb E).
  - cbn [app]. intros E. exfalso.
    destruct b as [|y b]; cbn in E.
    + destruct Hb as [->|(r & ->)]; discriminate.
    + injection E as <- _. cbn in Sb. discriminate Sb.
  - cbn [app]. intros E. exfalso.
    destruct a as [|x a]; cbn in E.
    + destruct Ha as [->|(r & ->)]; discriminate.
    + injection E as -> _. cbn in Sa. discriminate Sa.
  - apply plain_field_cancel; assumption.
Qed.

(** X18.  Escaping loses nothing: two rows of at least one cell each that
    give the same line of the exported file are the same row, cell for
    cell, whatever commas, quotes and line breaks the cells hold. *)
Theorem csv_line_injective (a b : list jsstring) :
  a <> [] -> b <> [] -> csv_line a = csv_line b -> a = b.
Proof.
  unfold csv_line. revert b.
  induction a as [|x a IH]; intros b Ha Hb E; [congruence|].
  destruct b as [|y b]; [congruence|].
  cbn [map] in E. rewrite !join_cons in E.
  apply escapeCsvValue_cancel in E.
  - destruct E as (-> & E). f_equal.
    destruct a as [|x' a]; destruct b as [|y' b]; try reflexivity; try discriminate E.
    cbn [map] in E. injection E as E.
    apply IH; [discriminate|discriminate|exact E].
  - destruct (map _ a); [left; reflexivity|right; eexists; reflexivity].
  - destruct (map _ b); [left; reflexivity|right; eexists; reflexivity].
Qed.

Lemma csv_line_injective_witness :
  [str "a,b"; str "c"] = [str "a,b"; str "c"].
Proof.
  apply (csv_line_injective [str "a,b"; str "c"] [str "a,b"; str "c"]).
  - discriminate.
  - discriminate.
  - reflexivity.
Defined.

(** ** Group statistics *)

Section SortFacts.

Variable A : Type.
Variable count : A -> Z.

Lemma insert_by_count_perm x l : Permutation (insert_by_count count x l) (x :: l).
Proof.
  induction l as [|y l IH]; cbn [insert_by_count]; [reflexivity|].
  destruct (count x <? count y); [|reflexivity].
  rewrite IH. apply perm_swap.
Qed.

Lemma sort_by_count_perm l : Permutation (sort_by_count count l) l.
Proof.
  induction l as [|x l IH]; cbn [sort_by_count fold_right]; [reflexivity|].
  fold (sort_by_count count l). rewrite insert_by_count_perm. constructor. exact IH.
Qed.

Lemma insert_by_count_sorted x l :
  StronglySorted (fun a b => count b <= count a) l ->
  StronglySorted (fun a b => count b <= count a) (insert_by_count count x l).
Proof.
  induction l as [|y l IH]; intros Hs; cbn [insert_by_count].
  - constructor; constructor.
  - destruct (Z.ltb_spec (count x) (count y)) as [Hlt|Hge].
    + inversion Hs as [|? ? Hs' Hall]; subst. constructor; [apply IH; exact Hs'|].
      rewrite Forall_forall. intros z Hz.
      apply (Permutation_in _ (insert_by_count_perm x l)) in Hz.
      destruct Hz as [<-|Hz]; [lia|]. rewrite Forall_forall in Hall. apply Hall. exact Hz.
    + constructor; [exact Hs|].
      inversion Hs as [|? ? Hs' Hall]; subst.
      constructor; [lia|]. rewrite Forall_forall in *. intros z Hz.
      specialize (Hall z Hz). lia.
Qed.

Lemma sort_by_count_sorted l :
  StronglySorted (fun a b => count b <= count a) (sort_by_count count l).
Proof.
  induction l as [|x l IH]; cbn [sort_by_count fold_right]; [constructor|].
  apply insert_by_count_sorted. exact IH.
Qed.

End SortFacts.

Lemma counts_get_set m k v k' :
  counts_get (counts_set m k v) k' = if k =? k' then Some v else counts_get m k'.
Proof.
  induction m as [|(k0, v0) m IH]; cbn [counts_set counts_get].
  - destruct (k =? k'); reflexivity.
  - destruct (Z.eqb_spec k0 k) as [->|N]; cbn [counts_get].
    + destruct (k =? k'); reflexivity.
    + rewrite IH. destruct (Z.eqb_spec k0 k') as [->|N'];
        [destruct (Z.eqb_spec k k'); [congruence|reflexivity]|reflexivity].
Qed.

Lemma total_of_nonneg l : Forall (fun c => 0 <= c) l -> 0 <= total_of l.
Proof. induction 1; unfold total_of in *; cbn [fold_right]; lia. Qed.

Lemma total_of_app l1 l2 : total_of (l1 ++ l2) = total_of l1 + total_of l2.
Proof.
  induction l1 as [|x l1 IH]; unfold total_of in *; cbn [app fold_right]; lia.
Qed.

Lemma total_of_perm l1 l2 : Permutation l1 l2 -> total_of l1 = total_of l2.
Proof. induction 1; unfold total_of in *; cbn [fold_right]; lia. Qed.

Lemma counts_under_cons b t c entries :
  total_of (counts_under b ((t, c) :: entries))
  = (if bucket_of t =? b then c else 0) + total_of (counts_under b entries).
Proof.
  unfold counts_under. cbn [filter fst].
  destruct (bucket_of t =? b); cbn; reflexivity.
Qed.

Lemma bucket_of_main t : existsb (Z.eqb t) mainTypes = true -> bucket_of (Some t) = t.
Proof. intros H. cbn [bucket_of]. rewrite H. reflexivity. Qed.

Lemma bucket_of_cases t : In (bucket_of t) (-1 :: mainTypes).
Proof.
  destruct t as [t|]; cbn [bucket_of]; [|left; reflexivity].
  destruct (existsb (Z.eqb t) mainTypes) eqn:E; [|left; reflexivity].
  right. apply existsb_exists in E. destruct E as (x & Hx & E).
  apply Z.eqb_eq in E. subst. exact Hx.
Qed.

(** The loop: each main type holds the sum of its counts and the others
    are summed apart, as long as no sum reaches 2^53. *)
Lemma count_types_spec entries : forall countsMap othersCount,
  Forall (fun e => 0 <= snd e) entries ->
  (forall t, 0 <= or_zero (counts_get countsMap t)) ->
  0 <= othersCount ->
  (forall t, or_zero (counts_get countsMap t) + total_of (map snd entries) < 2 ^ 53) ->
  othersCount + total_of (map snd entries) < 2 ^ 53 ->
  (forall t, In t mainTypes ->
     or_zero (counts_get (fst (count_types entries countsMap othersCount)) t)
     = or_zero (counts_get countsMap t) + total_of (counts_under t entries))
  /\ snd (count_types entries countsMap othersCount)
     = othersCount + total_of (counts_under (-1) entries).
Proof.
  induction entries as [|(t, c) entries IH]; intros cm oc Hpos Hcm Hoc Bcm Boc.
  - cbn. split; [intros; lia|lia].
  - inversion Hpos as [|? ? Hc Hpos']; subst. cbn [snd] in Hc.
    pose proof (total_of_nonneg (map snd entries)) as Hrest.
    assert (0 <= total_of (map snd entries)).
    { apply Hrest. rewrite Forall_map. exact Hpos'. }
    cbn [map snd] in Bcm, Boc. change (total_of (c :: map snd entries))
      with (c + total_of (map snd entries)) in Bcm, Boc.
    assert (Hothers :
              (forall u, In u mainTypes ->
                 or_zero (counts_get (fst (count_types entries cm (js_add oc c))) u)
                 = or_zero (counts_get cm u) + total_of (counts_under u ((t, c) :: entries)))
              /\ snd (count_types entries cm (js_add oc c))
                 = oc + total_of (counts_under (-1) ((t, c) :: entries))
              \/ bucket_of t <> -1).
    { destruct (Z.eq_dec (bucket_of t) (-1)) as [Hb|Hb]; [left|right; exact Hb].
      unfold js_add. rewrite round53_small by lia.
      destruct (IH cm (oc + c) Hpos' Hcm ltac:(lia)) as (IH1 & IH2).
      { intros u. specialize (Bcm u). lia. }
      { lia. }
      split.
      - intros u Hu. rewrite (IH1 u Hu), counts_under_cons, Hb.
        destruct (Z.eqb_spec (-1) u) as [<-|_]; [|lia].
        exfalso. cbn in Hu. intuition lia.
      - rewrite IH2, counts_under_cons, Hb. cbn. lia. }
    destruct t as [t|]; cbn [count_types].
    2:{ destruct Hothers as [H0|H0]; [exact H0|]. cbn [bucket_of] in H0. congruence. }
    destruct (existsb (Z.eqb t) mainTypes) eqn:Main.
    2:{ destruct Hothers as [H0|H0]; [exact H0|]. cbn [bucket_of] in H0.
        rewrite Main in H0. congruence. }
    clear Hothers.
    pose proof (bucket_of_main t Main) as Hb.
    unfold js_add. rewrite round53_small by (specialize (Bcm t); specialize (Hcm t); lia).
    destruct (IH (counts_set cm t (or_zero (counts_get cm t) + c)) oc Hpos') as (IH1 & IH2).
    { intros u. rewrite counts_get_set. destruct (t =? u); [cbn; specialize (Hcm t); lia|].
      apply Hcm. }
    { exact Hoc. }
    { intros u. rewrite counts_get_set. destruct (Z.eqb_spec t u) as [->|N].
      - cbn. specialize (Bcm u). lia.
      - specialize (Bcm u). specialize (Hcm u). lia. }
    { lia. }
    split.
    + intros u Hu. rewrite (IH1 u Hu), counts_under_cons, Hb, counts_get_set.
      destruct (Z.eqb_spec t u) as [->|N]; cbn [or_zero]; lia.
    + rewrite IH2, counts_under_cons, Hb.
      destruct (Z.eqb_spec t (-1)) as [->|N]; [discriminate Main|lia].
Qed.

(** Every entry is counted once: under a main type or with the others. *)
Lemma buckets_cover entries :
  total_of (map (fun t => total_of (counts_under t entries)) mainTypes)
  + total_of (counts_under (-1) entries)
  = total_of (map snd entries).
Proof.
  induction entries as [|(t, c) entries IH]; [reflexivity|].
  cbn [map snd mainTypes] in *. rewrite !counts_under_cons.
  change (total_of (c :: map snd entries)) with (c + total_of (map snd entries)).
  rewrite <- IH. unfold total_of at 1 8. cbn [fold_right].
  pose proof (bucket_of_cases t) as Hb. cbn [In mainTypes] in Hb.
  destruct Hb as [<-|[<-|[<-|[<-|[<-|[<-|[<-|[]]]]]]]]; unfold total_of; cbn; lia.
Qed.

Lemma fold_left_js_add_exact {A : Type} (count : A -> Z) (l : list A) : forall acc,
  Forall (fun x => 0 <= count x) l -> 0 <= acc ->
  acc + total_of (map count l) < 2 ^ 53 ->
  fold_left (fun sum item => js_add sum (count item)) l acc = acc + total_of (map count l).
Proof.
  induction l as [|x l IH]; intros acc Hpos Hacc B; cbn [fold_left map].
  - cbn. lia.
  - inversion Hpos as [|? ? Hx Hpos']; subst. cbn [map] in B.
    change (total_of (count x :: map count l)) with (count x + total_of (map count l)) in *.
    assert (0 <= total_of (map count l))
      by (apply total_of_nonneg; rewrite Forall_map; exact Hpos').
    unfold js_add. rewrite round53_small by lia.
    rewrite IH by (try assumption; lia). lia.
Qed.

Lemma NoDup_map_filter {A B : Type} (g : A -> B) (p : A -> bool) (l : list A) :
  NoDup (map g l) -> NoDup (map g (filter p l)).
Proof.
  induction l as [|x l IH]; cbn [map filter]; [auto|].
  intros H. inversion H as [|? ? Hx Hl]; subst.
  destruct (p x); [|apply IH; exact Hl].
  cbn [map]. constructor; [|apply IH; exact Hl].
  intros Hin. apply Hx. apply in_map_iff in Hin. destruct Hin as (y & E & Hy).
  apply filter_In in Hy. apply in_map_iff. exists y. tauto.
Qed.

Lemma total_of_filter_pos {A : Type} (count : A -> Z) (l : list A) :
  Forall (fun x => 0 <= count x) l ->
  total_of (map count (filter (fun x => count x >? 0) l)) = total_of (map count l).
Proof.
  induction 1 as [|x l Hx Hl IH]; [reflexivity|]. cbn [filter map].
  destruct (Z.gtb_spec (count x) 0); cbn [map]; unfold total_of in *; cbn [fold_right]; lia.
Qed.

(** X19.  The media statistics lose no message: when the counts are not
    negative and their sum is below 2^53, the total is the sum of all the
    counts of the statistics, whatever their types; the items hold each
    main type that has messages, once, with the sum of its counts, and the
    item of type -1 holds the sum of all the other counts; no item has a
    count of zero, and the items come by decreasing count. *)
Theorem getGroupMediaStats_total (entries : list (option Z * Z)) :
  Forall (fun e => 0 <= snd e) entries ->
  total_of (map snd entries) < 2 ^ 53 ->
  exists items,
    getGroupMediaStats true (Some entries) = Some (items, total_of (map snd entries))
    /\ total_of (map media_count items) = total_of (map snd entries)
    /\ StronglySorted (fun a b => media_count b <= media_count a) items
    /\ NoDup (map media_type items)
    /\ Forall (fun item =>
                 In (media_type item) (-1 :: mainTypes)
                 /\ 0 < media_count item
                 /\ media_count item = total_of (counts_under (media_type item) entries))
              items
    /\ (forall t, In t (-1 :: mainTypes) ->
          0 < total_of (counts_under t entries) -> In t (map media_type items)).
Proof.
  intros Hpos Hbound.
  unfold getGroupMediaStats. cbn [negb]. cbv zeta.
  destruct (count_types_spec entries [] 0 Hpos) as (Hmain & Hoth).
  { intros t. cbn. lia. }
  { lia. }
  { intros t. cbn. lia. }
  { lia. }
  rewrite Z.add_0_l in Hoth.
  set (cm := fst (count_types entries [] 0)) in *.
  set (oc := snd (count_types entries [] 0)) in *.
  set (mains := filter (fun item => media_count item >? 0)
                  (map (fun type => mkMediaTypeCount type (typeNames type)
                                      (or_zero (counts_get cm type))) mainTypes)).
  set (unsorted := if oc >? 0 then mains ++ [mkMediaTypeCount (-1) s_others oc] else mains).
  assert (Hunder : forall t, 0 <= total_of (counts_under t entries)).
  { intros t. apply total_of_nonneg. unfold counts_under. rewrite Forall_map.
    rewrite Forall_forall in *. intros e He. apply filter_In in He. apply Hpos. tauto. }
  assert (Hitems : Forall (fun item =>
                      In (media_type item) (-1 :: mainTypes)
                      /\ 0 < media_count item
                      /\ media_count item
                         = total_of (counts_under (media_type item) entries)) unsorted).
  { assert (Hm : Forall (fun item =>
                      In (media_type item) (-1 :: mainTypes)
                      /\ 0 < media_count item
                      /\ media_count item
                         = total_of (counts_under (media_type item) entries)) mains).
    { unfold mains. rewrite Forall_forall. intros item Hi.
      apply filter_In in Hi. destruct Hi as (Hi & Hc).
      apply in_map_iff in Hi. destruct Hi as (t & <- & Ht).
      cbn [media_type media_count] in *.
      split; [right; exact Ht|]. split; [lia|].
      rewrite (Hmain t Ht). cbn. lia. }
    unfold unsorted. destruct (Z.gtb_spec oc 0) as [Hoc|Hoc]; [|exact Hm].
    apply Forall_app. split; [exact Hm|]. constructor; [|constructor].
    cbn [media_type media_count]. split; [left; reflexivity|]. split; [lia|exact Hoth]. }
  assert (Hsum : total_of (map media_count unsorted) = total_of (map snd entries)).
  { rewrite <- buckets_cover.
    assert (Hm : total_of (map media_count mains)
                 = total_of (map (fun t => total_of (counts_under t entries)) mainTypes)).
    { unfold mains. rewrite total_of_filter_pos.
      - rewrite map_map. cbn [media_count]. f_equal. apply map_ext_in.
        intros t Ht. rewrite (Hmain t Ht). cbn. lia.
      - rewrite Forall_map. rewrite Forall_forall. intros t Ht. cbn [media_count].
        rewrite (Hmain t Ht). cbn. apply Hunder. }
    unfold unsorted. destruct (Z.gtb_spec oc 0) as [Hoc|Hoc].
    - rewrite map_app, total_of_app, Hm. cbn [map media_count].
      replace (total_of [oc]) with oc by (unfold total_of; cbn; lia).
      rewrite <- Hoth. reflexivity.
    - rewrite Hm, <- Hoth. specialize (Hunder (-1)). lia. }
  pose proof (sort_by_count_perm _ media_count unsorted) as Hperm.
  exists (sort_by_count media_count unsorted).
  assert (Hsorted_items : Forall (fun item =>
                      In (media_type item) (-1 :: mainTypes)
                      /\ 0 < media_count item
                      /\ media_count item
                         = total_of (counts_under (media_type item) entries))
                    (sort_by_count media_count unsorted)).
  { rewrite Forall_forall in *. intros item Hi. apply Hitems.
    apply (Permutation_in _ Hperm). exact Hi. }
  assert (Htotal : total_of (map media_count (sort_by_count media_count unsorted))
                   = total_of (map snd entries)).
  { rewrite <- Hsum. apply total_of_perm, Permutation_map. exact Hperm. }
  split.
  { f_equal. f_equal. rewrite fold_left_js_add_exact.
    - rewrite Htotal. lia.
    - rewrite Forall_forall in *. intros item Hi. specialize (Hsorted_items item Hi). lia.
    - lia.
    - rewrite Htotal. lia. }
  split; [exact Htotal|].
  split; [apply sort_by_count_sorted|].
  assert (Hnd : NoDup (map media_type unsorted)).
  { assert (Hm : NoDup (map media_type mains)).
    { unfold mains. apply NoDup_map_filter. rewrite map_map. cbn [media_type].
      rewrite map_id. unfold mainTypes.
      repeat (constructor; [cbn; intuition lia|]). constructor. }
    unfold unsorted. destruct (oc >? 0); [|exact Hm].
    rewrite map_app. cbn [map media_type]. apply NoDup_app; [exact Hm| |].
    - constructor; [intros []|constructor].
    - intros t Ht [<-|[]]. unfold mains in Ht. apply in_map_iff in Ht.
      destruct Ht as (item & E & Hi). apply filter_In in Hi. destruct Hi as (Hi & _).
      apply in_map_iff in Hi. destruct Hi as (u & <- & Hu). cbn [media_type] in E.
      subst u. cbn in Hu. intuition lia. }
  split; [apply (Permutation_NoDup (Permutation_sym (Permutation_map _ Hperm))); exact Hnd|].
  split; [exact Hsorted_items|].
  intros t Ht Hcount.
  apply (Permutation_in _ (Permutation_sym (Permutation_map media_type Hperm))).
  unfold unsorted. destruct Ht as [<-|Ht].
  - rewrite <- Hoth in Hcount. destruct (Z.gtb_spec oc 0) as [Hoc|Hoc]; [|lia].
    rewrite map_app. apply in_or_app. right. left. reflexivity.
  - assert (In t (map media_type mains)).
    { unfold mains. apply in_map_iff.
      exists (mkMediaTypeCount t (typeNames t) (or_zero (counts_get cm t))).
      split; [reflexivity|]. apply filter_In. split.
      - apply in_map_iff. exists t. split; [reflexivity|exact Ht].
      - cbn [media_count]. rewrite (Hmain t Ht). cbn. apply Z.gtb_lt. lia. }
    destruct (oc >? 0); [rewrite map_app; apply in_or_app; left|]; assumption.
Qed.

Lemma getGroupMediaStats_total_witness :
  exists items,
    getGroupMediaStats true (Some [(Some 1, 5); (Some 10000, 2); (Some 3, 7); (None, 1)])
    = Some (items, total_of (map snd [(Some 1, 5); (Some 10000, 2); (Some 3, 7); (None, 1)]))
    /\ total_of (map media_count items)
       = total_of (map snd [(Some 1, 5); (Some 10000, 2); (Some 3, 7); (None, 1)])
    /\ StronglySorted (fun a b => media_count b <= media_count a) items
    /\ NoDup (map media_type items)
    /\ Forall (fun item =>
                 In (media_type item) (-1 :: mainTypes)
                 /\ 0 < media_count item
                 /\ media_count item
                    = total_of (counts_under (media_type item)
                                  [(Some 1, 5); (Some 10000, 2); (Some 3, 7); (None, 1)]))
              items
    /\ (forall t, In t (-1 :: mainTypes) ->
          0 < total_of (counts_under t [(Some 1, 5); (Some 10000, 2); (Some 3, 7); (None, 1)]) ->
          In t (map media_type items)).
Proof.
  apply (getGroupMediaStats_total [(Some 1, 5); (Some 10000, 2); (Some 3, 7); (None, 1)]).
  - repeat constructor; cbn; lia.
  - vm_compute. reflexivity.
Defined.

Lemma StronglySorted_app_le {A : Type} (R : A -> A -> Prop) (l1 l2 : list A) :
  StronglySorted R (l1 ++ l2) ->
  StronglySorted R l1 /\ forall a b, In a l1 -> In b l2 -> R a b.
Proof.
  induction l1 as [|x l1 IH]; cbn [app]; intros H.
  - split; [constructor|intros a b []].
  - inversion H as [|? ? Hs Hall]; subst. destruct (IH Hs) as (H1 & H2).
    split.
    + constructor; [exact H1|]. rewrite Forall_forall in *. intros y Hy.
      apply Hall. apply in_or_app. left. exact Hy.
    + intros a b [<-|Ha] Hb; [|apply H2; assumption].
      rewrite Forall_forall in Hall. apply Hall. apply in_or_app. right. exact Hb.
Qed.

Lemma StronglySorted_map {A B : Type} (R : A -> A -> Prop) (S : B -> B -> Prop)
      (g : A -> B) (l : list A) :
  (forall a b, R a b -> S (g a) (g b)) ->
  StronglySorted R l -> StronglySorted S (map g l).
Proof.
  intros Hg. induction 1 as [|x l Hs IH Hall]; cbn [map]; constructor; [exact IH|].
  rewrite Forall_forall in *. intros y Hy. apply in_map_iff in Hy.
  destruct Hy as (a & <- & Ha). apply Hg, Hall, Ha.
Qed.

(** X20.  The ranking is the head of the senders by decreasing count:
    for a limit that is not negative it holds [limit] senders, or all of
    them when they are fewer, in order of decreasing count, each under the
    name that [idMap] gives to its identifier (the identifier itself when
    it gives none) and with its own count, and no sender that is left out
    has a count above that of a sender that is ranked. *)
Theorem getGroupMessageRanking_top (senderEntries : list (jsstring * Z))
        (idMap : jsstring -> option jsstring) (limit : Z)
        (names avatars : list jsstring -> jsstring -> option jsstring) :
  0 <= limit ->
  exists ranks rest,
    getGroupMessageRanking true (Some (Some senderEntries)) idMap limit names avatars
    = Some ranks
    /\ length ranks = Nat.min (Z.to_nat limit) (length senderEntries)
    /\ StronglySorted (fun a b => messageCount b <= messageCount a) ranks
    /\ Permutation (map (fun r => (rank_username r, messageCount r)) ranks ++ rest)
                   (map (fun e => (or_else (idMap (fst e)) (fst e), snd e)) senderEntries)
    /\ (forall r x, In r ranks -> In x rest -> snd x <= messageCount r).
Proof.
  intros Hlimit. unfold getGroupMessageRanking. cbn [negb]. cbv zeta.
  rewrite js_slice_firstn by exact Hlimit.
  set (mapped := map (fun e => mkGroupMessageRank (or_else (idMap (fst e)) (fst e))
                                 (or_else (idMap (fst e)) (fst e)) None (snd e))
                     senderEntries).
  set (sorted := sort_by_count messageCount mapped).
  set (n := Z.to_nat limit).
  set (resolve := fun rank : GroupMessageRank => mkGroupMessageRank _ _ _ _).
  pose proof (sort_by_count_perm _ messageCount mapped) as Hperm.
  pose proof (sort_by_count_sorted _ messageCount mapped) as Hsorted.
  fold sorted in Hperm, Hsorted.
  rewrite <- (firstn_skipn n sorted) in Hsorted.
  apply StronglySorted_app_le in Hsorted. destruct Hsorted as (Hhead & Htop).
  exists (map resolve (firstn n sorted)),
         (map (fun r => (rank_username r, messageCount r)) (skipn n sorted)).
  split; [reflexivity|].
  split.
  { rewrite length_map, length_firstn. f_equal.
    rewrite (Permutation_length Hperm). unfold mapped. apply length_map. }
  split.
  { apply (StronglySorted_map _ _ resolve _ (fun a b H => H) Hhead). }
  split.
  { rewrite map_map. cbn [rank_username messageCount resolve].
    rewrite <- map_app, firstn_skipn.
    rewrite (Permutation_map _ Hperm). unfold mapped. rewrite map_map. reflexivity. }
  intros r x Hr Hx. apply in_map_iff in Hr. destruct Hr as (r0 & <- & Hr0).
  apply in_map_iff in Hx. destruct Hx as (x0 & <- & Hx0).
  cbn [snd messageCount resolve]. exact (Htop _ _ Hr0 Hx0).
Qed.

Lemma getGroupMessageRanking_top_witness :
  exists ranks rest,
    getGroupMessageRanking true
      (Some (Some [(str "a", 3); (str "b", 9); (str "c", 3); (str "d", 1)]))
      (fun _ => None) 2 (fun _ _ => None) (fun _ _ => None)
    = Some ranks
    /\ length ranks
       = Nat.min (Z.to_nat 2) (length [(str "a", 3); (str "b", 9); (str "c", 3); (str "d", 1)])
    /\ StronglySorted (fun a b => messageCount b <= messageCount a) ranks
    /\ Permutation (map (fun r => (rank_username r, messageCount r)) ranks ++ rest)
                   (map (fun e => (or_else ((fun _ => None) (fst e)) (fst e), snd e))
                        [(str "a", 3); (str "b", 9); (str "c", 3); (str "d", 1)])
    /\ (forall r x, In r ranks -> In x rest -> snd x <= messageCount r).
Proof.
  apply (getGroupMessageRanking_top [(str "a", 3); (str "b", 9); (str "c", 3); (str "d", 1)]
           (fun _ => None) 2 (fun _ _ => None) (fun _ _ => None)).
  lia.
Defined.

(** ** Reading the nicknames of a room *)

Lemma hex_value_digit v :
  0 <= v < 16 -> hex_value (Z.land (hex_digit_of v) 0xff) = Some v.
Proof.
  intros H.
  assert (Hv : In v [0; 1; 2; 3; 4; 5; 6; 7; 8; 9; 10; 11; 12; 13; 14; 15]) by (cbn; lia).
  cbn in Hv.
  repeat (destruct Hv as [<-|Hv]; [reflexivity|]). destruct Hv.
Qed.

Lemma hex_digit_of_class v :
  0 <= v < 16 -> is_hex_digit (hex_digit_of v) = true /\ is_whitespace (hex_digit_of v) = false.
Proof.
  intros H.
  assert (Hv : In v [0; 1; 2; 3; 4; 5; 6; 7; 8; 9; 10; 11; 12; 13; 14; 15]) by (cbn; lia).
  cbn in Hv.
  repeat (destruct Hv as [<-|Hv]; [split; reflexivity|]). destruct Hv.
Qed.

Lemma from_hex_toString_hex b :
  Forall (fun x => 0 <= x < 256) b -> from_hex (toString_hex b) = b.
Proof.
  induction 1 as [|x b Hx Hb IH]; [reflexivity|].
  cbn [toString_hex flat_map app from_hex].
  rewrite !hex_value_digit.
  - fold (toString_hex b). rewrite IH. f_equal.
    pose proof (Z.div_mod x 16 ltac:(lia)). lia.
  - apply Z.mod_pos_bound. lia.
  - split; [apply Z.div_pos; lia|apply Z.div_lt_upper_bound; lia].
Qed.

Lemma toString_hex_digits b :
  Forall (fun x => 0 <= x < 256) b ->
  forallb is_hex_digit (toString_hex b) = true
  /\ forallb (fun c => negb (is_whitespace c)) (toString_hex b) = true
  /\ length (toString_hex b) = (2 * length b)%nat.
Proof.
  induction 1 as [|x b Hx Hb (IH1 & IH2 & IH3)]; [repeat split|].
  cbn [toString_hex flat_map app forallb length]. fold (toString_hex b).
  assert (H1 : 0 <= x / 16 < 16)
    by (split; [apply Z.div_pos; lia|apply Z.div_lt_upper_bound; lia]).
  assert (H2 : 0 <= x mod 16 < 16) by (apply Z.mod_pos_bound; lia).
  destruct (hex_digit_of_class _ H1) as (A1 & B1).
  destruct (hex_digit_of_class _ H2) as (A2 & B2).
  rewrite A1, A2, B1, B2, IH1, IH2, IH3. repeat split. lia.
Qed.

Lemma trim_no_blank s :
  forallb (fun c => negb (is_whitespace c)) s = true -> trim s = s.
Proof.
  intros H. apply trim_fixed.
  - destruct s as [|c s]; [exact I|]. cbn in *. apply andb_true_iff in H.
    destruct H as (H & _). apply negb_true_iff. exact H.
  - assert (Hr : forallb (fun c => negb (is_whitespace c)) (rev s) = true).
    { rewrite forallb_forall in *. intros c Hc. apply H. apply in_rev. exact Hc. }
    destruct (rev s) as [|c r]; [exact I|]. cbn in *. apply andb_true_iff in Hr.
    destruct Hr as (Hr & _). apply negb_true_iff. exact Hr.
Qed.

(** The decoding of the hexadecimal text of a buffer. *)
Lemma decodeExtBuffer_hex from_base64 b :
  b <> [] -> Forall (fun x => 0 <= x < 256) b ->
  decodeExtBuffer from_base64 (ExtString (toString_hex b)) = Some b.
Proof.
  intros Hne Hb. destruct (toString_hex_digits b Hb) as (Hhex & Hws & Hlen).
  unfold decodeExtBuffer. cbv zeta.
  assert (Ht : truthy (toString_hex b) = true).
  { apply truthy_true. intros E. rewrite E in Hlen. destruct b; [congruence|discriminate]. }
  rewrite Ht. cbn [negb]. rewrite (trim_no_blank _ Hws), Ht. cbn [negb].
  unfold looksLikeHex. rewrite Hlen, Ht, Hhex.
  replace (Z.of_nat (2 * length b) mod 2) with 0.
  - cbn. rewrite (from_hex_toString_hex b Hb). reflexivity.
  - rewrite Nat2Z.inj_mul, Z.mul_comm. symmetry. apply Z.mod_mul. lia.
Qed.

(** X21.  A buffer that is stored as hexadecimal text is read back as it
    was: for every byte sequence that is not empty, the text that
    [toString('hex')] gives for it decodes to the same bytes. *)
Theorem decodeExtBuffer_hex_round_trip (from_base64 : jsstring -> Buffer) (b : Buffer) :
  b <> [] -> Forall (fun x => 0 <= x < 256) b ->
  decodeExtBuffer from_base64 (ExtString (toString_hex b)) = Some b.
Proof. apply decodeExtBuffer_hex. Qed.

Lemma decodeExtBuffer_hex_round_trip_witness :
  decodeExtBuffer (fun _ => []) (ExtString (toString_hex sample_blob)) = Some sample_blob.
Proof.
  apply (decodeExtBuffer_hex_round_trip (fun _ => []) sample_blob).
  - discriminate.
  - repeat constructor; cbn; lia.
Defined.

Lemma read_literal_escaped chatroomId : forall after,
  match after with 39 :: _ => False | _ => True end ->
  read_literal (escape_quotes chatroomId ++ 39 :: after) = Some (chatroomId, after).
Proof.
  induction chatroomId as [|c s IH]; intros after Hafter.
  - cbn [escape_quotes app read_literal]. rewrite Z.eqb_refl.
    destruct after as [|d rest]; [reflexivity|].
    destruct (Z.eqb_spec d 39) as [->|N]; [destruct Hafter|reflexivity].
  - cbn [escape_quotes]. destruct (Z.eqb_spec c 39) as [->|N].
    + cbn [app read_literal]. rewrite !Z.eqb_refl. rewrite (IH after Hafter). reflexivity.
    + cbn [app read_literal]. destruct (Z.eqb_spec c 39); [congruence|].
      rewrite (IH after Hafter). reflexivity.
Qed.

(** X22.  The query cannot be bent by the name of the room: whatever
    characters [chatroomId] holds, quotes included, the string literal of
    the query ends at the quote that the code writes after it, it denotes
    [chatroomId] itself, and what follows it is the rest of the query as
    written. *)
Theorem nickname_query_literal (chatroomId : jsstring) :
  exists body,
    nickname_query chatroomId = sql_head ++ body
    /\ read_literal body = Some (chatroomId, str " LIMIT 1").
Proof.
  exists (escape_quotes chatroomId ++ sql_tail). split; [reflexivity|].
  apply (read_literal_escaped chatroomId (str " LIMIT 1")). exact I.
Qed.

Section RoomFacts.

Variable toLowerCase : jsstring -> jsstring.
Variable from_base64 : jsstring -> Buffer.
Variable execQuery : jsstring -> QueryResult.

(** X23.  The nicknames of a room are those of the buffer of the first
    row: when the query succeeds and its first row holds the hexadecimal
    text of a buffer that is not empty, the result is the table parsed
    from that buffer; and when the query throws, fails or brings no row,
    the result is the empty table. *)
Theorem getGroupNicknamesForRoom_spec (chatroomId : jsstring) (candidates : list jsstring) :
  let result := getGroupNicknamesForRoom toLowerCase from_base64 execQuery
                                         chatroomId candidates in
  (forall b more,
      execQuery (nickname_query chatroomId)
      = QueryReturns true (Some (ExtString (toString_hex b) :: more)) ->
      b <> [] -> Forall (fun x => 0 <= x < 256) b ->
      result = parseGroupNicknamesFromExtBuffer toLowerCase b candidates)
  /\ (execQuery (nickname_query chatroomId) = QueryThrows -> result = [])
  /\ (forall rows, execQuery (nickname_query chatroomId) = QueryReturns false rows ->
                   result = [])
  /\ (forall success, execQuery (nickname_query chatroomId) = QueryReturns success None ->
                      result = [])
  /\ (forall success, execQuery (nickname_query chatroomId) = QueryReturns success (Some []) ->
                      result = []).
Proof.
  cbv zeta. unfold getGroupNicknamesForRoom.
  split; [|split; [|split; [|split]]].
  - intros b more -> Hne Hb. cbn [negb]. rewrite (decodeExtBuffer_hex _ b Hne Hb).
    reflexivity.
  - intros ->. reflexivity.
  - intros rows ->. reflexivity.
  - intros success ->. destruct success; reflexivity.
  - intros success ->. destruct success; reflexivity.
Qed.

End RoomFacts.

(** ** The keystream service, continued *)

Module KeystreamRunFacts.
Import Keystream KeystreamRuns.

Lemma run_callbacks_valid cbs : forall s,
  forallb valid_region cbs = true ->
  exists s',
    run_callbacks cbs s = (Ok tt, s')
    /\ module s' = module s
    /\ capturedKeystream s' =
       match cbs with
       | [] => capturedKeystream s
       | _ :: _ => Some (region (last cbs (mkCallbackArgs [] 0 0)))
       end.
Proof.
  induction cbs as [|cb cbs IH]; intros s Hv.
  - exists s. repeat split.
  - cbn [forallb] in Hv. apply andb_true_iff in Hv. destruct Hv as (Hcb & Hv).
    cbn [run_callbacks]. unfold bind, wasm_isaac_generate.
    unfold valid_region in Hcb. rewrite Hcb.
    set (s1 := mkService (module s) _ _).
    destruct (IH s1 Hv) as (s' & E & Hm & Hc).
    exists s'. split; [exact E|]. split; [rewrite Hm; reflexivity|].
    rewrite Hc. destruct cbs as [|cb' cbs']; reflexivity.
Qed.

Lemma foreign_returns call s :
  returns call = true ->
  exists s',
    foreign call s = (Ok tt, s')
    /\ module s' = module s
    /\ capturedKeystream s' =
       match callbacks call with
       | [] => capturedKeystream s
       | _ :: _ => Some (region (last (callbacks call) (mkCallbackArgs [] 0 0)))
       end.
Proof.
  unfold returns. intros H. apply andb_true_iff in H. destruct H as (Ht & Hv).
  apply negb_true_iff in Ht.
  destruct (run_callbacks_valid _ s Hv) as (s' & E & Hm & Hc).
  exists s'. unfold foreign, bind. rewrite E, Ht. repeat split; assumption.
Qed.

(** A run of calls that all return. *)
Lemma foreign_run calls : forall s,
  forallb returns calls = true ->
  exists s',
    fold_left (fun (st : Result unit * Service) call =>
                 match fst st with
                 | Ok _ => foreign call (snd st)
                 | Throw e => st
                 end) calls (Ok tt, s)
    = (Ok tt, s')
    /\ module s' = module s
    /\ capturedKeystream s' =
       match callbacks_of calls with
       | [] => capturedKeystream s
       | _ :: _ => Some (region (last (callbacks_of calls) (mkCallbackArgs [] 0 0)))
       end.
Proof.
  induction calls as [|call calls IH]; intros s Hr.
  - exists s. repeat split.
  - cbn [forallb] in Hr. apply andb_true_iff in Hr. destruct Hr as (Hc & Hr).
    destruct (foreign_returns call s Hc) as (s1 & E1 & M1 & C1).
    destruct (IH s1 Hr) as (s' & E & Hm & Hcap).
    exists s'. cbn [fold_left fst snd]. rewrite E1. split; [exact E|].
    split; [congruence|].
    rewrite Hcap, C1. unfold callbacks_of. cbn [flat_map].
    fold (callbacks_of calls).
    destruct (callbacks_of calls) as [|cb cbs] eqn:Rest.
    + rewrite app_nil_r. reflexivity.
    + destruct (callbacks call ++ cb :: cbs) eqn:A;
        [destruct (callbacks call); discriminate|].
      rewrite <- A. rewrite KeystreamFacts.last_app_cons. reflexivity.
Qed.

Lemma generate_block_run ctor key size s :
  generate_block ctor key size s =
  match fold_left (fun (st : Result unit * Service) call =>
                     match fst st with
                     | Ok _ => foreign call (snd st)
                     | Throw e => st
                     end) (calls_of ctor key size)
                  (Ok tt, mkService (module s) None (captured_log s)) with
  | (Ok _, s') =>
    match capturedKeystream s' with
    | Some keystream => (Ok (rev keystream), s')
    | None => (Throw CallbackNotCalled, s')
    end
  | (Throw e, s') => (Throw e, s')
  end.
Proof.
  unfold generate_block, calls_of, bind, reset_captured, get_captured, ret, throw.
  cbn [fold_left app fst snd].
  destruct (foreign (ctor_call (ctor key)) _) as [[[]|e1] s1]; cbn [fst snd].
  2:{ destruct (delete (instance (ctor key))); reflexivity. }
  destruct (foreign (generate (instance (ctor key)) size) s1) as [[[]|e2] s2]; cbn [fst snd].
  2:{ destruct (delete (instance (ctor key))); reflexivity. }
  destruct (delete (instance (ctor key))) as [d|]; cbn [fold_left fst snd].
  - destruct (foreign d s2) as [[[]|e3] s3]; [|reflexivity].
    destruct (capturedKeystream s3); reflexivity.
  - destruct (capturedKeystream s2); reflexivity.
Qed.

(** X24.  With a module that behaves, the keystream comes back: when the
    entry point is there, on [Module] or on [Module.asm], and the
    constructor, [generate] and [delete] return, their callbacks being
    given regions inside the heap, one callback at least, the result is
    the region of the last callback, reversed, whatever the service had
    captured before. *)
Theorem getKeystream_success (key : jsstring) (size : Z) (s : Service)
        (m : WasmModule) (c : Ctor) (cb : CallbackArgs) (cbs : list CallbackArgs) :
  module s = Some m ->
  entry_point m = Some c ->
  forallb returns (calls_of c key size) = true ->
  callbacks_of (calls_of c key size) = cbs ++ [cb] ->
  fst (getKeystream true key size s) = Ok (rev (region cb)).
Proof.
  intros Hm He Hr Hcb.
  rewrite KeystreamFacts.getKeystream_unfold, Hm, He, generate_block_run. cbn [module captured_log].
  destruct (foreign_run _ (mkService (Some (mkWasmModule (Some c) (asm m))) None (captured_log s))
                        Hr) as (s' & E & _ & Hcap).
  rewrite E, Hcap, Hcb.
  destruct (cbs ++ [cb]) eqn:A; [destruct cbs; discriminate|].
  rewrite <- A, last_last. reflexivity.
Qed.

Lemma getKeystream_success_witness :
  fst (getKeystream true (str "k") 4 sample_service)
  = Ok (rev (region (mkCallbackArgs [9; 9; 1; 2; 3; 4; 9] 2 4))).
Proof.
  apply (getKeystream_success (str "k") 4 sample_service sample_module
           (fun _ =>
              mkConstruction (mkForeignCall [] false)
                (mkIsaac (fun n => mkForeignCall [mkCallbackArgs [9; 9; 1; 2; 3; 4; 9] 2 n] false)
                         (Some (mkForeignCall [] false))))
           (mkCallbackArgs [9; 9; 1; 2; 3; 4; 9] 2 4) []).
  - reflexivity.
  - reflexivity.
  - reflexivity.
  - reflexivity.
Defined.

(** What a run of callbacks that returns has done: every region was
    inside the heap, and each was copied, in order. *)
Lemma run_callbacks_returned cbs : forall s u s',
  run_callbacks cbs s = (Ok u, s') ->
  forallb valid_region cbs = true
  /\ module s' = module s
  /\ captured_log s' = captured_log s ++ map region cbs
  /\ capturedKeystream s' =
     match cbs with
     | [] => capturedKeystream s
     | _ :: _ => Some (region (last cbs (mkCallbackArgs [] 0 0)))
     end.
Proof.
  induction cbs as [|cb cbs IH]; intros s u s' H.
  - cbn in H. injection H as _ <-. cbn. rewrite app_nil_r. repeat split.
  - cbn [run_callbacks] in H. unfold bind, wasm_isaac_generate in H.
    fold (valid_region cb) in H. fold (region cb) in H.
    destruct (valid_region cb) eqn:V; [|discriminate H].
    apply IH in H. destruct H as (Hv & Hm & Hl & Hc). cbn [module captured_log] in *.
    cbn [forallb map]. rewrite V, Hv.
    split; [reflexivity|]. split; [exact Hm|].
    split; [rewrite Hl, <- app_assoc; reflexivity|].
    rewrite Hc. destruct cbs; reflexivity.
Qed.

Lemma foreign_returned call s u s' :
  foreign call s = (Ok u, s') ->
  returns call = true
  /\ module s' = module s
  /\ captured_log s' = captured_log s ++ map region (callbacks call)
  /\ capturedKeystream s' =
     match callbacks call with
     | [] => capturedKeystream s
     | _ :: _ => Some (region (last (callbacks call) (mkCallbackArgs [] 0 0)))
     end.
Proof.
  unfold foreign, bind. intros H.
  destruct (run_callbacks (callbacks call) s) as [[[]|e] s1] eqn:R; [|discriminate H].
  destruct (throws call) eqn:T; [discriminate H|].
  cbn in H. injection H as _ <-.
  destruct (run_callbacks_returned _ _ _ _ R) as (Hv & Hm & Hl & Hc).
  unfold returns. rewrite T, Hv. repeat split; assumption.
Qed.

Lemma foreign_run_thrown calls e s :
  fold_left (fun (st : Result unit * Service) call =>
               match fst st with
               | Ok _ => foreign call (snd st)
               | Throw e => st
               end) calls (Throw e, s)
  = (Throw e, s).
Proof. induction calls as [|call calls IH]; [reflexivity|exact IH]. Qed.

(** A run of calls that returns: all of them returned, and the log grew
    by the regions of their callbacks, in order. *)
Lemma foreign_run_returned calls : forall s u s',
  fold_left (fun (st : Result unit * Service) call =>
               match fst st with
               | Ok _ => foreign call (snd st)
               | Throw e => st
               end) calls (Ok tt, s)
  = (Ok u, s') ->
  forallb returns calls = true
  /\ module s' = module s
  /\ captured_log s' = captured_log s ++ map region (callbacks_of calls)
  /\ capturedKeystream s' =
     match callbacks_of calls with
     | [] => capturedKeystream s
     | _ :: _ => Some (region (last (callbacks_of calls) (mkCallbackArgs [] 0 0)))
     end.
Proof.
  induction calls as [|call calls IH]; intros s u s' H.
  - cbn in H. injection H as _ <-. cbn. rewrite app_nil_r. repeat split.
  - cbn [fold_left fst snd] in H.
    destruct (foreign call s) as [[[]|e] s1] eqn:F.
    2:{ rewrite foreign_run_thrown in H. discriminate H. }
    destruct (foreign_returned _ _ _ _ F) as (Hr & Hm & Hl & Hc).
    destruct (IH _ _ _ H) as (Hrs & Hms & Hls & Hcs).
    cbn [forallb]. rewrite Hr, Hrs. split; [reflexivity|].
    split; [congruence|].
    unfold callbacks_of in *. cbn [flat_map]. rewrite map_app.
    split; [rewrite Hls, Hl, <- app_assoc; reflexivity|].
    rewrite Hcs, Hc.
    destruct (flat_map callbacks calls) as [|cb cbs] eqn:Rest.
    + rewrite app_nil_r. reflexivity.
    + destruct (callbacks call ++ cb :: cbs) eqn:A;
        [destruct (callbacks call); discriminate|].
      rewrite <- A. rewrite KeystreamFacts.last_app_cons. reflexivity.
Qed.

Lemma region_length cb :
  valid_region cb = true -> Z.of_nat (length (region cb)) = size cb.
Proof.
  unfold valid_region, region. intros V.
  apply andb_true_iff in V. destruct V as (V & V3).
  apply andb_true_iff in V. destruct V as (V1 & V2).
  apply Z.leb_le in V1, V2, V3.
  rewrite buf_range_inside by lia.
  rewrite length_firstn, length_skipn. unfold buf_length in V3. lia.
Qed.

(** C1.  Whenever [getKeystream] returns a buffer, the buffer is the
    byte-wise reversal of what the module handed to the output callback
    [wasm_isaac_generate] during that call: the module of the service has
    the entry point, its constructor, [generate] and [delete] have
    returned, and the result is the region of the heap (the [size] bytes
    at [ptr]) of the last callback that they made, reversed: the length
    is [size], and byte [i] of the result is byte [size - 1 - i] of the
    region.  The buffers captured during the call are the regions of the
    callbacks, in order, and the field holds the last one.  No path
    returns the region as it was generated. *)
Theorem getKeystream_reversed (init_ok : bool) (key : jsstring) (size : Z)
        (s s' : Service) (out : list Z) :
  getKeystream init_ok key size s = (Ok out, s') ->
  exists m c cbs cb,
    module s = Some m
    /\ entry_point m = Some c
    /\ forallb returns (calls_of c key size) = true
    /\ callbacks_of (calls_of c key size) = cbs ++ [cb]
    /\ captured_during s s' = map region cbs ++ [region cb]
    /\ capturedKeystream s' = Some (region cb)
    /\ out = rev (region cb)
    /\ Z.of_nat (length out) = Keystream.size cb
    /\ (forall i, (i < length (region cb))%nat ->
                  nth_error out i = nth_error (region cb) (length (region cb) - 1 - i)).
Proof.
  intros H. destruct init_ok; [|discriminate H].
  rewrite KeystreamFacts.getKeystream_unfold in H.
  destruct (module s) as [m|] eqn:Hm; [|discriminate H].
  destruct (entry_point m) as [c|] eqn:He; [|discriminate H].
  rewrite generate_block_run in H. cbn [module captured_log] in H.
  destruct (fold_left _ (calls_of c key size) _) as [[[]|e] s1] eqn:Run; [|discriminate H].
  destruct (foreign_run_returned _ _ _ _ Run) as (Hr & _ & Hl & Hc).
  cbn [captured_log capturedKeystream] in Hl, Hc.
  destruct (capturedKeystream s1) as [keystream|] eqn:K; [|discriminate H].
  injection H as <- <-.
  destruct (callbacks_of (calls_of c key size)) as [|cb0 rest] eqn:Cbs; [discriminate Hc|].
  destruct (exists_last (l := cb0 :: rest) ltac:(discriminate)) as (cbs & cb & Hlast).
  rewrite Hlast in Hc, Hl. rewrite last_last in Hc.
  assert (Hks : keystream = region cb).
  { destruct (cbs ++ [cb]) eqn:A; [destruct cbs; discriminate|]. congruence. }
  subst keystream.
  assert (Hvalid : valid_region cb = true).
  { assert (Hall : forallb valid_region (callbacks_of (calls_of c key size)) = true).
    { unfold callbacks_of. clear -Hr. induction (calls_of c key size) as [|call calls IH];
        [reflexivity|].
      cbn [forallb flat_map] in *. apply andb_true_iff in Hr. destruct Hr as (Hcall & Hr).
      unfold returns in Hcall. apply andb_true_iff in Hcall.
      rewrite forallb_app, (proj2 Hcall), (IH Hr). reflexivity. }
    rewrite Cbs, Hlast, forallb_app in Hall. apply andb_true_iff in Hall.
    destruct Hall as (_ & Hall). cbn in Hall. rewrite andb_true_r in Hall. exact Hall. }
  exists m, c, cbs, cb.
  split; [reflexivity|]. split; [exact He|]. split; [exact Hr|].
  split; [rewrite Cbs; exact Hlast|].
  split.
  { unfold captured_during. rewrite Hl, map_app. cbn [map].
    rewrite skipn_app, skipn_all, Nat.sub_diag. reflexivity. }
  split; [exact K|]. split; [reflexivity|].
  split; [rewrite length_rev; apply region_length; exact Hvalid|].
  intros i Hi. rewrite nth_error_rev.
  destruct (Nat.ltb_spec i (length (region cb))); [|lia].
  f_equal. lia.
Qed.

Lemma getKeystream_reversed_witness :
  exists m c cbs cb,
    module sample_service = Some m
    /\ entry_point m = Some c
    /\ forallb returns (calls_of c (str "k") 4) = true
    /\ callbacks_of (calls_of c (str "k") 4) = cbs ++ [cb]
    /\ captured_during sample_service (snd (getKeystream true (str "k") 4 sample_service))
       = map region cbs ++ [region cb]
    /\ capturedKeystream (snd (getKeystream true (str "k") 4 sample_service))
       = Some (region cb)
    /\ [4; 3; 2; 1] = rev (region cb)
    /\ Z.of_nat (length [4; 3; 2; 1]) = Keystream.size cb
    /\ (forall i, (i < length (region cb))%nat ->
                  nth_error [4; 3; 2; 1] i
                  = nth_error (region cb) (length (region cb) - 1 - i)).
Proof.
  apply (getKeystream_reversed true (str "k") 4 sample_service _ [4; 3; 2; 1]).
  reflexivity.
Defined.

End KeystreamRunFacts.


(** ** The extension of an image, continued *)

Lemma byte_is_nth b i v : byte_is b (Z.of_nat i) v = true -> nth_error b i = Some v.
Proof.
  unfold byte_is, buf_get. destruct (Z.ltb_spec (Z.of_nat i) 0); [lia|].
  rewrite Nat2Z.id. destruct (nth_error b i); [|discriminate].
  intros E. apply Z.eqb_eq in E. congruence.
Qed.

Lemma str_differ (a b : jsstring) (P : Prop) : str_eqb a b = false -> a = b -> P.
Proof. intros N E. apply str_eqb_eq in E. congruence. Qed.

Ltac other_ext := refine (str_differ _ _ _ _); vm_compute; reflexivity.

(** X25.  The answers of [detectImageExt] can be relied on as follows.
    The extension is one of the five.  The answers [.png] and [.bmp] are
    given only to buffers that start with the signature, byte for byte.
    The answers [.gif] and [.webp] are given only to buffers that start
    with the signature once the high bit of every byte is cleared, which is
    how [toString('ascii')] reads them.  Every other buffer, among them
    the ones of a format that is not known, gets [.jpg]. *)
Theorem detectImageExt_sound (b : Buffer) :
  let ext := detectImageExt b in
  In ext [str ".jpg"; str ".png"; str ".gif"; str ".webp"; str ".bmp"]
  /\ (ext = str ".png" -> is_png b)
  /\ (ext = str ".bmp" -> is_bmp b)
  /\ (ext = str ".gif" -> is_gif (toString_ascii b))
  /\ (ext = str ".webp" -> is_webp (toString_ascii b)).
Proof.
  cbv zeta. unfold detectImageExt.
  rewrite !buf_range_firstn_skipn by lia.
  change (Z.to_nat (8 - 0)) with 8%nat. change (Z.to_nat (6 - 0)) with 6%nat.
  change (Z.to_nat (4 - 0)) with 4%nat. change (Z.to_nat (12 - 8)) with 4%nat.
  change (Z.to_nat 0) with 0%nat. change (Z.to_nat 8) with 8%nat.
  change (skipn 0 b) with b.
  destruct ((buf_length b >=? 3) && byte_is b 0 0xff && byte_is b 1 0xd8
            && byte_is b 2 0xff) eqn:Jpg.
  { split; [left; reflexivity|].
    split; [other_ext|split; [other_ext|split; other_ext]]. }
  destruct ((buf_length b >=? 8) && buf_equals (firstn 8 b) png_signature) eqn:Png.
  { split; [right; left; reflexivity|].
    split; [intros _|split; [other_ext|split; other_ext]].
    apply andb_true_iff in Png. destruct Png as (_ & E).
    apply str_eqb_eq in E. exact E. }
  destruct ((buf_length b >=? 6)
            && (str_eqb (toString_ascii (firstn 6 b)) (str "GIF87a")
                || str_eqb (toString_ascii (firstn 6 b)) (str "GIF89a"))) eqn:Gif.
  { split; [right; right; left; reflexivity|].
    split; [other_ext|].
    split; [other_ext|].
    split; [intros _|other_ext].
    apply andb_true_iff in Gif. destruct Gif as (_ & E).
    unfold toString_ascii in *. unfold is_gif, has_prefix.
    change (length (str "GIF87a")) with 6%nat. change (length (str "GIF89a")) with 6%nat.
    rewrite firstn_map.
    apply orb_true_iff in E. destruct E as [E|E]; apply str_eqb_eq in E; auto. }
  destruct ((buf_length b >=? 12)
            && str_eqb (toString_ascii (firstn 4 b)) (str "RIFF")
            && str_eqb (toString_ascii (firstn 4 (skipn 8 b))) (str "WEBP")) eqn:Webp.
  { split; [right; right; right; left; reflexivity|].
    split; [other_ext|].
    split; [other_ext|].
    split; [other_ext|intros _].
    apply andb_true_iff in Webp. destruct Webp as (Webp & E2).
    apply andb_true_iff in Webp. destruct Webp as (L & E1).
    apply str_eqb_eq in E1, E2. unfold toString_ascii in *.
    unfold is_webp, has_prefix. change (length (str "RIFF")) with 4%nat.
    rewrite firstn_map, skipn_map, firstn_map, length_map.
    rewrite Z.geb_leb in L. apply Z.leb_le in L. unfold buf_length in L.
    repeat split; [exact E1|lia|exact E2]. }
  destruct ((buf_length b >=? 2) && byte_is b 0 0x42 && byte_is b 1 0x4d) eqn:Bmp.
  { split; [right; right; right; right; left; reflexivity|].
    split; [other_ext|].
    split; [intros _|split; other_ext].
    apply andb_true_iff in Bmp. destruct Bmp as (Bmp & B1).
    apply andb_true_iff in Bmp. destruct Bmp as (_ & B0).
    apply (byte_is_nth b 0) in B0. apply (byte_is_nth b 1) in B1.
    destruct b as [|x0 [|x1 rest]]; try discriminate.
    cbn in B0, B1. injection B0 as ->. injection B1 as ->. reflexivity. }
  split; [left; reflexivity|].
  split; [other_ext|split; [other_ext|split; other_ext]].
Qed.

(** ** The sessions and contacts handlers *)

(** The first [limit] of the elements that pass a filter: they are
    elements of the list that pass it, at most [limit] of them, in the
    order of the list; and when they are fewer than [limit], they are all
    the elements that pass. *)
Lemma limited_filter {A : Type} (p : A -> bool) (all : list A) (limit : Z) :
  1 <= limit ->
  let limited := js_slice (filter p all) 0 limit in
  limited = firstn (Z.to_nat limit) (filter p all)
  /\ Z.of_nat (length limited) <= limit
  /\ (length limited <= length all)%nat
  /\ (forall x, In x limited -> In x all /\ p x = true)
  /\ (exists rest, filter p all = limited ++ rest)
  /\ (Z.of_nat (length limited) < limit -> limited = filter p all).
Proof.
  intros Hl. cbv zeta. rewrite js_slice_firstn by lia.
  split; [reflexivity|].
  split; [rewrite length_firstn; lia|].
  split.
  { rewrite length_firstn.
    assert (length (filter p all) <= length all)%nat by apply filter_length_le. lia. }
  split.
  { intros x Hx. apply filter_In. rewrite <- (firstn_skipn (Z.to_nat limit) (filter p all)).
    apply in_or_app. left. exact Hx. }
  split.
  { exists (skipn (Z.to_nat limit) (filter p all)). symmetry. apply firstn_skipn. }
  intros Hlt. rewrite length_firstn in Hlt. apply firstn_all2. lia.
Qed.

Section ListingFacts.

Variable toLowerCase : jsstring -> jsstring.
Variable Session : Type.
Variable ApiSession : Type.
Variable session_username : Session -> jsstring.
Variable session_displayName : Session -> option jsstring.
Variable project : Session -> ApiSession.
Variable Contact : Type.
Variable contact_username : Contact -> jsstring.
Variable contact_nickname : Contact -> option jsstring.
Variable contact_remark : Contact -> option jsstring.
Variable contact_displayName : Contact -> option jsstring.

(** X26.  The sessions handler answers 500 exactly when the listing
    throws, fails or has no list.  Otherwise it reports sessions of the
    listing, in its order and at most [limit] of them, [limit] being at
    most 10000, with their exact count; with a keyword every one of them
    has it, up to case, in its user name or its display name, and when
    fewer than [limit] are reported no session that has it is left out. *)
Theorem handleSessions_spec (keywordParam : option jsstring) (limitParam : option Z)
        (sessions : Listing Session) :
  let answer := handleSessions toLowerCase Session ApiSession session_username
                               session_displayName project
                               keywordParam limitParam sessions in
  let keyword := trim (or_empty keywordParam) in
  let limit := parseIntParam limitParam 100 1 10000 in
  match sessions with
  | ListingReturns true (Some all) =>
    exists reported rest,
      answer = ListJson (Z.of_nat (length reported)) (map project reported)
      /\ Z.of_nat (length reported) <= limit <= 10000
      /\ (keyword = [] -> reported = firstn (Z.to_nat limit) all)
      /\ (keyword <> [] ->
          filter (session_matches toLowerCase Session session_username
                                  session_displayName keyword) all
          = reported ++ rest
          /\ (Z.of_nat (length reported) < limit -> rest = []))
  | _ => answer = ListError 500
  end.
Proof.
  cbv zeta. unfold handleSessions. cbv zeta.
  destruct sessions as [|[] [all|]]; try reflexivity. cbn [negb].
  assert (Hl : 1 <= parseIntParam limitParam 100 1 10000 <= 10000)
    by (unfold parseIntParam; destruct limitParam; lia).
  set (limit := parseIntParam limitParam 100 1 10000) in *.
  set (keyword := trim (or_empty keywordParam)).
  set (p := session_matches toLowerCase Session session_username session_displayName keyword).
  destruct keyword as [|c k] eqn:K; cbn [truthy].
  - exists (js_slice all 0 limit), []. split; [reflexivity|].
    rewrite js_slice_firstn by lia.
    split; [rewrite length_firstn; lia|]. split; [reflexivity|]. congruence.
  - destruct (limited_filter p all limit (proj1 Hl)) as (E & Hlen & _ & _ & _ & Hall).
    exists (js_slice (filter p all) 0 limit), (skipn (Z.to_nat limit) (filter p all)).
    split; [reflexivity|]. split; [lia|]. split; [discriminate|]. intros _.
    split; [rewrite E; symmetry; apply firstn_skipn|].
    intros Hlt. rewrite E, length_firstn in Hlt. apply skipn_all2. lia.
Qed.

(** X27.  The contacts handler answers 500 exactly when the listing
    throws, fails or has no list.  Otherwise it reports contacts of the
    listing, as they are, in its order and at most [limit] of them, with
    their exact count; with a keyword every one of them has it, up to
    case, in its user name, nickname, remark or display name, and when
    fewer than [limit] are reported no contact that has it is left out. *)
Theorem handleContacts_spec (keywordParam : option jsstring) (limitParam : option Z)
        (contacts : Listing Contact) :
  let answer := handleContacts toLowerCase Contact contact_username contact_nickname
                               contact_remark contact_displayName
                               keywordParam limitParam contacts in
  let keyword := trim (or_empty keywordParam) in
  let limit := parseIntParam limitParam 100 1 10000 in
  match contacts with
  | ListingReturns true (Some all) =>
    exists reported rest,
      answer = ListJson (Z.of_nat (length reported)) reported
      /\ Z.of_nat (length reported) <= limit <= 10000
      /\ (keyword = [] -> reported = firstn (Z.to_nat limit) all)
      /\ (keyword <> [] ->
          filter (contact_matches toLowerCase Contact contact_username contact_nickname
                                  contact_remark contact_displayName keyword) all
          = reported ++ rest
          /\ (Z.of_nat (length reported) < limit -> rest = []))
  | _ => answer = ListError 500
  end.
Proof.
  cbv zeta. unfold handleContacts. cbv zeta.
  destruct contacts as [|[] [all|]]; try reflexivity. cbn [negb].
  assert (Hl : 1 <= parseIntParam limitParam 100 1 10000 <= 10000)
    by (unfold parseIntParam; destruct limitParam; lia).
  set (limit := parseIntParam limitParam 100 1 10000) in *.
  set (keyword := trim (or_empty keywordParam)).
  set (p := contact_matches toLowerCase Contact contact_username contact_nickname
                            contact_remark contact_displayName keyword).
  destruct keyword as [|c k] eqn:K; cbn [truthy].
  - exists (js_slice all 0 limit), []. split; [reflexivity|].
    rewrite js_slice_firstn by lia.
    split; [rewrite length_firstn; lia|]. split; [reflexivity|]. congruence.
  - destruct (limited_filter p all limit (proj1 Hl)) as (E & Hlen & _ & _ & _ & Hall).
    exists (js_slice (filter p all) 0 limit), (skipn (Z.to_nat limit) (filter p all)).
    split; [reflexivity|]. split; [lia|]. split; [discriminate|]. intros _.
    split; [rewrite E; symmetry; apply firstn_skipn|].
    intros Hlt. rewrite E, length_firstn in Hlt. apply skipn_all2. lia.
Qed.

End ListingFacts.

(** ** Varints, read back *)

Lemma buf_get_middle (prefix : Buffer) b tail :
  buf_get (prefix ++ b :: tail) (buf_length prefix) = Some b.
Proof.
  unfold buf_get, buf_length. destruct (Z.ltb_spec (Z.of_nat (length prefix)) 0); [lia|].
  rewrite Nat2Z.id, nth_error_app2 by lia. rewrite Nat.sub_diag. reflexivity.
Qed.

Lemma last_byte_bits m : 0 <= m < 128 -> Z.land m 0x7f = m /\ Z.land m 0x80 = 0.
Proof.
  intros H.
  assert (E : Z.land m 0x7f = m).
  { change 0x7f with (Z.ones 7). rewrite Z.land_ones by lia. apply Z.mod_small. lia. }
  split; [exact E|]. rewrite <- E, <- Z.land_assoc. apply Z.land_0_r.
Qed.

Lemma more_byte_bits r :
  0 <= r < 128 -> Z.land (r + 128) 0x7f = r /\ Z.land (r + 128) 0x80 <> 0.
Proof.
  intros H. split.
  - change 0x7f with (Z.ones 7). rewrite Z.land_ones by lia.
    change (2 ^ 7) with 128. rewrite <- (Z.mul_1_l 128) at 1.
    rewrite Z.mod_add by lia. apply Z.mod_small. lia.
  - intros E. apply (f_equal (fun x => Z.testbit x 7)) in E.
    rewrite Z.land_spec, Z.bits_0 in E. change (Z.testbit 128 7) with true in E.
    rewrite andb_true_r in E.
    assert (T : Z.testbit (r + 128) 7 = true).
    { apply Z.testbit_true; [lia|]. change (2 ^ 7) with 128.
      replace ((r + 128) / 128) with 1; [reflexivity|].
      apply Z.div_unique with r; lia. }
    congruence.
Qed.

(** The loop on the bytes of a number: it adds them to [value], group
    after group, and ends after the last. *)
Lemma varint_bytes_S f n :
  varint_bytes (S f) n
  = if n <? 128 then [n] else (n mod 128 + 128) :: varint_bytes f (n / 128).
Proof. reflexivity. Qed.

Lemma readVarint_loop_written f : forall (prefix rest : Buffer) m fuel limit value k,
  0 <= m < 128 ^ Z.of_nat (S f) ->
  0 <= value ->
  value + m * 2 ^ (7 * Z.of_nat k) < 2 ^ 53 ->
  (k = 0%nat \/ 1 <= m) ->
  (9 <= fuel + k)%nat ->
  buf_length prefix + Z.of_nat (length (varint_bytes (S f) m)) <= limit ->
  vr_result (readVarint_loop fuel (prefix ++ varint_bytes (S f) m ++ rest) limit
                             value (7 * Z.of_nat k) (buf_length prefix))
  = Some (value + m * 2 ^ (7 * Z.of_nat k),
          buf_length prefix + Z.of_nat (length (varint_bytes (S f) m))).
Proof.
  induction f as [|f IH]; intros prefix rest m fuel limit value k Hm Hv Hsum Hk Hfuel Hlim.
  all: assert (Hpow : 0 < 2 ^ (7 * Z.of_nat k)) by (apply Z.pow_pos_nonneg; lia).
  all: assert (Hshift : 7 * Z.of_nat k <= 53)
    by (destruct Hk as [->|Hk]; [cbn; lia|];
        destruct (Z.le_gt_cases (7 * Z.of_nat k) 53) as [H|H]; [exact H|];
        assert (2 ^ 53 <= 2 ^ (7 * Z.of_nat k)) by (apply Z.pow_le_mono_r; lia); nia).
  all: assert (Hk8 : (k <= 7)%nat) by lia.
  all: destruct fuel as [|fuel]; [lia|].
  all: rewrite (varint_bytes_S _ m) in Hlim |- *.
  all: destruct (Z.ltb_spec m 128) as [Hsmall|Hbig].
  all: cbn [length app] in Hlim |- *; cbn [readVarint_loop].
  all: destruct (Z.ltb_spec (buf_length prefix) limit) as [_|]; [|lia].
  all: destruct (Z.leb_spec (7 * Z.of_nat k) 53) as [_|]; [|lia]; cbn [andb].
  all: rewrite buf_get_middle; cbn [js_band].
  1,3: destruct (last_byte_bits m ltac:(lia)) as (-> & ->); cbn [Z.eqb vr_result];
       unfold js_add; rewrite round53_small by lia; f_equal; f_equal; lia.
  - (* one byte was all the fuel, and the number needs more *)
    exfalso. change (128 ^ Z.of_nat 1) with 128 in Hm. lia.
  - (* a byte with more to come *)
    assert (Hr : 0 <= m mod 128 < 128) by (apply Z.mod_pos_bound; lia).
    destruct (more_byte_bits _ Hr) as (-> & Hcont).
    apply Z.eqb_neq in Hcont. rewrite Hcont. cbn [vr_result].
    pose proof (Z.div_mod m 128 ltac:(lia)) as Hdm.
    assert (Hq : 1 <= m / 128) by (apply Z.div_le_lower_bound; lia).
    assert (Hq' : m / 128 < 128 ^ Z.of_nat (S f)).
    { apply Z.div_lt_upper_bound; [lia|].
      rewrite (Nat2Z.inj_succ (S f)), Z.pow_succ_r in Hm by lia. lia. }
    assert (Hnext : 2 ^ (7 * Z.of_nat (S k)) = 128 * 2 ^ (7 * Z.of_nat k)).
    { replace (7 * Z.of_nat (S k)) with (7 + 7 * Z.of_nat k) by lia.
      rewrite Z.pow_add_r by lia. reflexivity. }
    assert (Hstep : value + m mod 128 * 2 ^ (7 * Z.of_nat k)
                    + m / 128 * 2 ^ (7 * Z.of_nat (S k))
                    = value + m * 2 ^ (7 * Z.of_nat k)) by (rewrite Hnext; nia).
    unfold js_add. rewrite round53_small by nia.
    replace (7 * Z.of_nat k + 7) with (7 * Z.of_nat (S k)) by lia.
    replace (buf_length prefix + 1) with (buf_length (prefix ++ [m mod 128 + 128]))
      by (unfold buf_length; rewrite length_app; cbn [length]; lia).
    replace (prefix ++ (m mod 128 + 128) :: varint_bytes (S f) (m / 128) ++ rest)
      with ((prefix ++ [m mod 128 + 128]) ++ varint_bytes (S f) (m / 128) ++ rest)
      by (rewrite <- app_assoc; reflexivity).
    rewrite IH.
    + f_equal. f_equal; [exact Hstep|].
      unfold buf_length. rewrite length_app. cbn [length]. lia.
    + lia.
    + nia.
    + lia.
    + right. exact Hq.
    + lia.
    + unfold buf_length in *. rewrite length_app. cbn [length]. lia.
Qed.

(** A written number, read. *)
Lemma readVarint_written (n : Z) (prefix rest : Buffer) (limit : Z) :
  0 <= n < 2 ^ 53 ->
  buf_length prefix + Z.of_nat (length (writeVarint n)) <= limit ->
  readVarint (prefix ++ writeVarint n ++ rest) (buf_length prefix) limit
  = Some (n, buf_length prefix + Z.of_nat (length (writeVarint n))).
Proof.
  intros Hn Hlim. unfold readVarint, readVarint_run, varint_fuel, writeVarint in *.
  pose proof (readVarint_loop_written 9 prefix rest n 9 limit 0 0) as H.
  change (7 * Z.of_nat 0) with 0 in H. change (2 ^ 0) with 1 in H.
  rewrite Z.mul_1_r, Z.add_0_l in H. apply H; lia.
Qed.

(** X28.  A number is read back as it was written: for every number from
    0 to 2^53 - 1, [readVarint] at the first of the bytes that the
    base-128 format writes for it, whatever comes before and after them in
    the buffer and for every limit that covers them, returns the number and
    the position after its last byte. *)
Theorem readVarint_round_trip (n : Z) (prefix rest : Buffer) (limit : Z) :
  0 <= n < 2 ^ 53 ->
  buf_length prefix + Z.of_nat (length (writeVarint n)) <= limit ->
  readVarint (prefix ++ writeVarint n ++ rest) (buf_length prefix) limit
  = Some (n, buf_length prefix + Z.of_nat (length (writeVarint n))).
Proof. apply readVarint_written. Qed.

Lemma readVarint_round_trip_witness :
  readVarint ([0x0a] ++ writeVarint 300 ++ [0x12]) (buf_length [0x0a]) 3
  = Some (300, buf_length [0x0a] + Z.of_nat (length (writeVarint 300))).
Proof.
  apply (readVarint_round_trip 300 [0x0a] [0x12] 3).
  - lia.
  - vm_compute. discriminate.
Defined.

(** ** Records, read back *)

Lemma buf_range_middle (prefix middle rest : Buffer) :
  buf_range (prefix ++ middle ++ rest) (buf_length prefix)
            (buf_length prefix + buf_length middle) = middle.
Proof.
  unfold buf_length. rewrite buf_range_inside.
  - rewrite Nat2Z.id. rewrite skipn_app, skipn_all, Nat.sub_diag. cbn [app skipn].
    replace (Z.to_nat (Z.of_nat (length prefix) + Z.of_nat (length middle)
                       - Z.of_nat (length prefix))) with (length middle) by lia.
    rewrite firstn_app, firstn_all, Nat.sub_diag. cbn [firstn]. apply app_nil_r.
  - lia.
  - unfold buf_length. rewrite !length_app. lia.
Qed.

(** Lists of bytes, with every append to the right. *)
Ltac flatten_apps :=
  unfold written_record;
  repeat first [rewrite <- app_assoc | rewrite <- app_comm_cons];
  cbn [app].

Ltac app_lengths :=
  unfold buf_length in *;
  repeat (rewrite length_app in * || (progress cbn [length] in *));
  lia.

Section RecordFacts.

Variable toLowerCase : jsstring -> jsstring.

(** What a round of the scan needs to accept a record. *)
Lemma scan_at_accepts buffer candidateSet i idLen idStart nickLen nickStart :
  buf_get buffer i = Some 0x0a ->
  readVarint_default buffer (i + 1) = Some (idLen, idStart) ->
  0 < idLen <= 96 ->
  idStart + idLen < buf_length buffer ->
  let memberId := trim (toString_utf8 buffer idStart (idStart + idLen)) in
  isLikelyMemberId memberId = true ->
  truthy_set candidateSet && negb (set_has candidateSet (toLowerCase memberId)) = false ->
  buf_get buffer (idStart + idLen) = Some 0x12 ->
  readVarint_default buffer (idStart + idLen + 1) = Some (nickLen, nickStart) ->
  0 < nickLen <= 128 ->
  nickStart + nickLen <= buf_length buffer ->
  let nickname := nickname_of (toString_utf8 buffer nickStart (nickStart + nickLen)) in
  isLikelyNickname nickname = true ->
  scan_at toLowerCase buffer candidateSet i
  = mkScanStep (Some (memberId, nickname)) (nickStart + nickLen - 1).
Proof.
  intros G0 V1 L1 E1 memberId Hid Hcand G1 V2 L2 E2 nickname Hnick.
  unfold scan_at. rewrite G0, V1.
  destruct (Z.leb_spec idLen 0); [lia|].
  rewrite Z.gtb_ltb. destruct (Z.ltb_spec 96 idLen); [lia|]. cbn [orb].
  rewrite Z.gtb_ltb. destruct (Z.ltb_spec (buf_length buffer) (idStart + idLen)); [lia|].
  fold memberId. rewrite Hid. cbn [negb]. rewrite Hcand.
  rewrite Z.geb_leb. destruct (Z.leb_spec (buf_length buffer) (idStart + idLen)); [lia|].
  rewrite G1. cbn [orb negb Z.eqb Pos.eqb]. rewrite V2.
  destruct (Z.leb_spec nickLen 0); [lia|].
  rewrite Z.gtb_ltb. destruct (Z.ltb_spec 128 nickLen); [lia|]. cbn [orb].
  rewrite Z.gtb_ltb. destruct (Z.ltb_spec (buf_length buffer) (nickStart + nickLen)); [lia|].
  fold (nickname_of (toString_utf8 buffer nickStart (nickStart + nickLen))).
  fold nickname. rewrite Hnick. reflexivity.
Qed.

(** The written record at the head of a buffer is accepted. *)
Lemma scan_at_written id nick rest candidateSet :
  0 < Z.of_nat (length id) <= 96 ->
  0 < Z.of_nat (length nick) <= 128 ->
  let memberId := trim (utf8_decode id) in
  let nickname := nickname_of (utf8_decode nick) in
  isLikelyMemberId memberId = true ->
  truthy_set candidateSet && negb (set_has candidateSet (toLowerCase memberId)) = false ->
  isLikelyNickname nickname = true ->
  accepted (scan_at toLowerCase (written_record id nick ++ rest) candidateSet 0)
  = Some (memberId, nickname).
Proof.
  intros Lid Lnick memberId nickname Hid Hcand Hnick.
  set (w1 := writeVarint (Z.of_nat (length id))).
  set (w2 := writeVarint (Z.of_nat (length nick))).
  set (buffer := written_record id nick ++ rest).
  assert (Hb : buffer = [0x0a] ++ w1 ++ (id ++ 0x12 :: w2 ++ nick ++ rest))
    by (unfold buffer, w1, w2; flatten_apps; reflexivity).
  assert (Hb1 : buffer = ([0x0a] ++ w1) ++ id ++ (0x12 :: w2 ++ nick ++ rest))
    by (unfold buffer, w1, w2; flatten_apps; reflexivity).
  assert (Hb2 : buffer = ([0x0a] ++ w1 ++ id) ++ 0x12 :: (w2 ++ nick ++ rest))
    by (unfold buffer, w1, w2; flatten_apps; reflexivity).
  assert (Hb3 : buffer = ([0x0a] ++ w1 ++ id ++ [0x12]) ++ w2 ++ (nick ++ rest))
    by (unfold buffer, w1, w2; flatten_apps; reflexivity).
  assert (Hb4 : buffer = ([0x0a] ++ w1 ++ id ++ [0x12] ++ w2) ++ nick ++ rest)
    by (unfold buffer, w1, w2; flatten_apps; reflexivity).
  assert (Hlen : buf_length buffer
                 = 1 + Z.of_nat (length w1) + Z.of_nat (length id) + 1
                   + Z.of_nat (length w2) + Z.of_nat (length nick)
                   + Z.of_nat (length rest)).
  { rewrite Hb. app_lengths. }
  assert (V1 : readVarint_default buffer (0 + 1)
               = Some (Z.of_nat (length id), 1 + Z.of_nat (length w1))).
  { unfold readVarint_default. rewrite Hb at 1.
    change (0 + 1) with (buf_length [0x0a]).
    apply readVarint_written; [lia|]. fold w1. change (buf_length [0x0a]) with 1. lia. }
  assert (V2 : readVarint_default buffer
                 (1 + Z.of_nat (length w1) + Z.of_nat (length id) + 1)
               = Some (Z.of_nat (length nick),
                       1 + Z.of_nat (length w1) + Z.of_nat (length id) + 1
                       + Z.of_nat (length w2))).
  { unfold readVarint_default. rewrite Hb3 at 1.
    replace (1 + Z.of_nat (length w1) + Z.of_nat (length id) + 1)
      with (buf_length ([0x0a] ++ w1 ++ id ++ [0x12]))
      by app_lengths.
    apply readVarint_written; [lia|]. fold w2.
    app_lengths. }
  assert (U1 : toString_utf8 buffer (1 + Z.of_nat (length w1))
                             (1 + Z.of_nat (length w1) + Z.of_nat (length id))
               = utf8_decode id).
  { unfold toString_utf8. rewrite Hb1.
    replace (1 + Z.of_nat (length w1)) with (buf_length ([0x0a] ++ w1))
      by app_lengths.
    change (Z.of_nat (length id)) with (buf_length id).
    rewrite buf_range_middle. reflexivity. }
  assert (U2 : toString_utf8 buffer
                 (1 + Z.of_nat (length w1) + Z.of_nat (length id) + 1 + Z.of_nat (length w2))
                 (1 + Z.of_nat (length w1) + Z.of_nat (length id) + 1 + Z.of_nat (length w2)
                  + Z.of_nat (length nick))
               = utf8_decode nick).
  { unfold toString_utf8. rewrite Hb4.
    replace (1 + Z.of_nat (length w1) + Z.of_nat (length id) + 1 + Z.of_nat (length w2))
      with (buf_length ([0x0a] ++ w1 ++ id ++ [0x12] ++ w2))
      by app_lengths.
    change (Z.of_nat (length nick)) with (buf_length nick).
    rewrite buf_range_middle. reflexivity. }
  assert (G1 : buf_get buffer (1 + Z.of_nat (length w1) + Z.of_nat (length id))
               = Some 0x12).
  { rewrite Hb2.
    replace (1 + Z.of_nat (length w1) + Z.of_nat (length id))
      with (buf_length ([0x0a] ++ w1 ++ id))
      by app_lengths.
    apply buf_get_middle. }
  rewrite (scan_at_accepts buffer candidateSet 0 _ _ _ _ eq_refl V1 Lid
             ltac:(lia)
             ltac:(rewrite U1; exact Hid)
             ltac:(rewrite U1; exact Hcand)
             G1 V2 Lnick ltac:(lia) ltac:(rewrite U2; exact Hnick)).
  cbn [accepted]. rewrite U1, U2. reflexivity.
Qed.

(** X29.  A record that is written at the head of the buffer is read in
    full: when its member id has 1 to 96 bytes and passes
    [isLikelyMemberId] once decoded and trimmed, its nickname has 1 to 128
    bytes and passes [isLikelyNickname] once decoded and cleaned, and the
    id is one of the candidates, if any are given, then the table holds
    the nickname under the id and under its lowercase form, whatever
    follows the record in the buffer. *)
Theorem parse_written_record (id nick rest : list Z) (candidates : list jsstring) :
  let memberId := trim (utf8_decode id) in
  let nickname := nickname_of (utf8_decode nick) in
  let candidateSet :=
      set_of_list (map toLowerCase (buildIdCandidates toLowerCase (map Some candidates))) in
  let table :=
      parseGroupNicknamesFromExtBuffer toLowerCase (written_record id nick ++ rest)
                                       candidates in
  0 < Z.of_nat (length id) <= 96 ->
  0 < Z.of_nat (length nick) <= 128 ->
  isLikelyMemberId memberId = true ->
  isLikelyNickname nickname = true ->
  truthy_set candidateSet && negb (set_has candidateSet (toLowerCase memberId)) = false ->
  map_get table memberId = Some nickname
  /\ map_get table (toLowerCase memberId) = Some nickname.
Proof.
  intros memberId nickname candidateSet table Lid Lnick Hid Hnick Hcand.
  pose proof (scan_at_written id nick rest candidateSet Lid Lnick Hid Hcand Hnick) as Hacc.
  fold memberId nickname in Hacc.
  assert (Hrec : exists more,
             accepted_records toLowerCase (written_record id nick ++ rest) candidates
             = (memberId, nickname) :: more).
  { unfold accepted_records. fold candidateSet.
    set (buffer := written_record id nick ++ rest) in *.
    assert (Hlen : 4 <= buf_length buffer).
    { unfold buffer, written_record. app_lengths. }
    destruct (Z.eqb_spec (buf_length buffer) 0); [lia|].
    destruct (length buffer) as [|fuel] eqn:F; [unfold buf_length in Hlen; lia|].
    cbn [scan_records].
    destruct (Z.ltb_spec 0 (buf_length buffer - 2)); [|lia].
    rewrite Hacc. eexists. reflexivity. }
  destruct Hrec as (more & Hrec).
  unfold table. rewrite !parse_get, Hrec. unfold first_writer. cbn [find fst snd].
  rewrite !str_eqb_refl. rewrite orb_true_r. split; reflexivity.
Qed.

End RecordFacts.

Lemma parse_written_record_witness :
  let memberId := trim (utf8_decode (str "wxid_abcd")) in
  let nickname := nickname_of (utf8_decode (str "Alice1")) in
  let table :=
      parseGroupNicknamesFromExtBuffer asciiLower
        (written_record (str "wxid_abcd") (str "Alice1") ++ [0x1a; 0x00]) [] in
  map_get table memberId = Some nickname
  /\ map_get table (asciiLower memberId) = Some nickname.
Proof.
  apply (parse_written_record asciiLower (str "wxid_abcd") (str "Alice1") [0x1a; 0x00] []).
  - vm_compute. split; [reflexivity|discriminate].
  - vm_compute. split; [reflexivity|discriminate].
  - vm_compute. reflexivity.
  - vm_compute. reflexivity.
  - vm_compute. reflexivity.
Defined.
